(** * fetchgitissue: the paginated fetch client and the heuristic analyzer

    A shallow embedding of [src/fetch_issues.py] (module [Script]) and of
    [src/github_issue_analyzer/fetch_github_issues.py] (module [Package]).

    Conventions of the embedding.
    - An issue or comment dict is a record whose fields are the JSON keys the
      code reads; a key that may be missing is an [option].
    - A [str] is a list of Unicode code points. [\w], [\s], [str.strip]
      and [str.lower] are written out on the ASCII range; beyond it they
      consult the tables of the interpreter's Unicode database, which are a
      parameter ([Unicode]) of every definition that reads them.
    - The wall clock is an integer count of microseconds since the epoch.
      [time.sleep] is the only thing that advances it: a reply is at hand
      as soon as the request is sent, so the clock that the code reads
      after a request is the clock at which the request was sent.
    - The remote API is a script of replies, one consumed by each
      [requests.get]; every request and every sleep is appended to a trace.
    - [requests] is taken at version 2.27 or later, where [response.json()]
      raises [requests.exceptions.JSONDecodeError], which is both a
      [RequestException] and a [json.JSONDecodeError]. *)

From Stdlib Require Import ZArith List String Ascii Bool Lia DecimalString Permutation.
Import ListNotations.
Local Open Scope string_scope.
Local Open Scope list_scope.
Local Open Scope Z_scope.

(** ** Data model *)

(** A [str] is a sequence of Unicode code points. *)
Definition char : Type := Z.
Definition text : Type := list char.

(** A literal of the source text; all of them are ASCII. *)
Definition str (s : string) : text :=
  map (fun a => Z.of_nat (nat_of_ascii a)) (list_ascii_of_string s).

(** An issue dict. [None] stands for a key that is missing (for [body] and
    [created_at] also for a null or empty value, which the code treats the
    same way). [created_at] holds the instant that
    [strptime(created_at, '%Y-%m-%dT%H:%M:%SZ')] denotes, in microseconds. *)
Record Issue := mkIssue {
  number : Z;
  title : option text;
  body : option text;
  state : option text;
  labels : list text;              (* label['name'] for label in issue['labels'] *)
  created_at : option Z;
  pull_request : bool              (* 'pull_request' in issue *)
}.

Record Comment := mkComment {
  user_login : string;
  comment_body : string
}.

(** The JSON object answered by [GET /search/issues]; [total_count] may be
    missing ([data.get('total_count', 0)]). *)
Record SearchResult := mkSearchResult {
  total_count : option Z
}.

(** ** The environment: clock, trace, replies *)

Inductive Endpoint :=
| IssuesURL
| CommentsURL (issue_number : Z)
| SearchURL (issue_number : Z).

(** A [requests.get]: the URL, the query parameters the code varies, and
    the time of sending. The headers and [direction='asc'] are the same in
    every request and are left out. *)
Record Request := mkRequest {
  url : Endpoint;
  param_state : option string;
  param_page : option Z;
  param_per_page : option Z;
  sent_at : Z
}.

Inductive Event :=
| Get (r : Request)
| Sleep (duration : Z).

Record World := mkWorld {
  clock : Z;
  trace : list Event
}.

Definition second : Z := 1000000.

(** [int(time.time())] *)
Definition int_time (w : World) : Z := clock w / second.

Inductive Exn :=
| HTTPError (status : Z)
| ConnectionError
| JSONDecodeError
| ValueError
| KeyError
| OverflowError.

(** What [time.sleep(d)] raises, with [d] in microseconds. The length is
    first converted to a signed 64-bit count of nanoseconds, which raises
    [OverflowError] when it does not fit; a negative length then raises
    [ValueError]. *)
Definition sleep_raises (d : Z) : option Exn :=
  if (d * 1000 <? -9223372036854775808) || (9223372036854775807 <? d * 1000)
  then Some OverflowError
  else if d <? 0 then Some ValueError
  else None.

(** [time.sleep(d)]: when it does not raise, the clock moves on by [d]. *)
Definition sleep (d : Z) (w : World) : Exn + World :=
  match sleep_raises d with
  | Some e => inl e
  | None => inr {| clock := clock w + d; trace := trace w ++ [Sleep d] |}
  end.

(** [requests.get]: the request is appended to the trace with the time at
    which it is sent. No time passes until the reply is at hand. *)
Definition requests_get (u : Endpoint) (st : option string) (pg pp : option Z)
    (w : World) : World :=
  {| clock := clock w;
     trace := trace w ++ [Get (mkRequest u st pg pp (clock w))] |}.

Inductive IntHeader :=
| NoHeader            (* the header is missing: KeyError *)
| NotAnInt            (* int() rejects the value: ValueError *)
| IntValue (z : Z).

(** The header values and the [state] parameter stay [string]: the code
    compares them with a literal and does nothing else with them. *)
Record Response (A : Type) := mkResponse {
  status_code : Z;
  ratelimit_remaining : option string;    (* X-RateLimit-Remaining *)
  ratelimit_reset : IntHeader;            (* X-RateLimit-Reset *)
  json : option A                         (* None: the body is not JSON *)
}.
Arguments mkResponse {A}.
Arguments status_code {A}.
Arguments ratelimit_remaining {A}.
Arguments ratelimit_reset {A}.
Arguments json {A}.

Inductive Reply (A : Type) :=
| Fails                                   (* requests.get raises ConnectionError *)
| Responds (r : Response A).
Arguments Fails {A}.
Arguments Responds {A}.

(** [isinstance(e, requests.exceptions.RequestException)] *)
Definition is_RequestException (e : Exn) : bool :=
  match e with
  | HTTPError _ | ConnectionError | JSONDecodeError => true
  | ValueError | KeyError | OverflowError => false
  end.

(** How a call ends: it returns, the process exits through [sys.exit], an
    exception reaches the top level, or the script of replies is used up
    while the code is about to send one more request. *)
Inductive Outcome (A : Type) :=
| Return (a : A)
| SysExit (code : Z)
| Uncaught (e : Exn)
| Pending.
Arguments Return {A}.
Arguments SysExit {A}.
Arguments Uncaught {A}.
Arguments Pending {A}.

(** How one pass through the body of a [while True] ends. *)
Inductive Control (S : Type) :=
| Next (s : S) (w : World)          (* [continue], or the end of the body *)
| Break (s : S) (w : World)
| Exit (code : Z) (w : World)
| Propagate (e : Exn) (w : World).
Arguments Next {S}.
Arguments Break {S}.
Arguments Exit {S}.
Arguments Propagate {S}.

(** What the [try] block yields before the [except] clauses are consulted. *)
Inductive Tried (S : Type) :=
| Done (c : Control S)
| Raised (e : Exn) (s : S) (w : World).
Arguments Done {S}.
Arguments Raised {S}.

(** [while True: <one request, then the body>] *)
Fixpoint while_true {S A : Type} (iteration : Reply A -> S -> World -> Control S)
    (replies : list (Reply A)) (s : S) (w : World) : Outcome S * World :=
  match replies with
  | [] => (Pending, w)
  | r :: rest =>
      match iteration r s w with
      | Next s' w' => while_true iteration rest s' w'
      | Break s' w' => (Return s', w')
      | Exit c w' => (SysExit c, w')
      | Propagate e w' => (Uncaught e, w')
      end
  end.

(** Sequencing of calls: anything but a normal return ends the caller too. *)
Definition bind {A B : Type} (m : Outcome A * World)
    (k : A -> World -> Outcome B * World) : Outcome B * World :=
  match m with
  | (Return a, w) => k a w
  | (SysExit c, w) => (SysExit c, w)
  | (Uncaught e, w) => (Uncaught e, w)
  | (Pending, w) => (Pending, w)
  end.

(** [time.sleep(d)] outside any [try]: what it raises would reach the top. *)
Definition time_sleep (d : Z) (w : World) : Outcome unit * World :=
  match sleep d w with
  | inr w' => (Return tt, w')
  | inl e => (Uncaught e, w)
  end.

Definition per_page : Z := 100.

(** [len(l)] *)
Definition len {A : Type} (l : list A) : Z := Z.of_nat (List.length l).

(** ['X-RateLimit-Remaining' in response.headers and
     response.headers['X-RateLimit-Remaining'] == '0'] *)
Definition rate_limit_exhausted {A : Type} (resp : Response A) : bool :=
  match ratelimit_remaining resp with
  | Some v => String.eqb v "0"
  | None => false
  end.

(** The block under the rate-limit test, the same text in all four loops:
    [reset_time = int(headers['X-RateLimit-Reset'])],
    [sleep_time = reset_time - int(time.time()) + 1], [time.sleep(sleep_time)]. *)
Definition wait_for_reset {A : Type} (resp : Response A) (w : World) : Exn + World :=
  match ratelimit_reset resp with
  | NoHeader => inl KeyError
  | NotAnInt => inl ValueError
  | IntValue reset_time =>
      let current_time := int_time w in
      let sleep_time := reset_time - current_time + 1 in
      sleep (sleep_time * second) w
  end.

(** [response.raise_for_status()] raises [HTTPError] on 4xx and 5xx. *)
Definition raises_for_status {A : Type} (resp : Response A) : bool :=
  (400 <=? status_code resp) && (status_code resp <? 600).

(** ['pull_request' not in issue] *)
Definition not_pull_request (i : Issue) : bool := negb (pull_request i).

(** ** Text *)

(** [s == t] on two [str]. *)
Fixpoint text_eqb (s t : text) : bool :=
  match s, t with
  | [], [] => true
  | c :: s', d :: t' => (c =? d) && text_eqb s' t'
  | _, _ => false
  end.

(** What the Unicode database of the interpreter decides. The code reads
    it through [re] and [str]: [\w] is [Py_UNICODE_ISALNUM] or the
    underscore; [\s] and [str.strip] are [Py_UNICODE_ISSPACE]; [str.lower]
    maps an all-ASCII string letter by letter and hands any other string to
    the case mapping of the database. The tables are consulted for the
    characters beyond ASCII only, and are left open here. *)
Class Unicode := mkUnicode {
  isalnum : char -> bool;
  isspace : char -> bool;
  unicode_lower : text -> text
}.

Definition is_ascii (c : char) : bool := (0 <=? c) && (c <? 128).

(** [s.isascii()] *)
Definition isascii (s : text) : bool := forallb is_ascii s.

Definition between (lo hi c : Z) : bool := (lo <=? c) && (c <=? hi).

(** The letters [A] to [Z]. *)
Definition is_upper (c : char) : bool := between 65 90 c.

(** An upper-case ASCII letter becomes its lower-case letter, 32 places on. *)
Definition lower_char (c : char) : char := if is_upper c then c + 32 else c.

(** [kw] is at the start of [s]. *)
Fixpoint prefix (kw s : text) : bool :=
  match kw, s with
  | [], _ => true
  | c :: kw', d :: s' => (c =? d) && prefix kw' s'
  | _ :: _, [] => false
  end.

(** [kw in s] on strings: [kw] occurs in [s] as a contiguous block. *)
Fixpoint contains (kw s : text) : bool :=
  prefix kw s ||
  match s with
  | [] => false
  | _ :: t => contains kw t
  end.

(** [x in l] on a list of strings. *)
Definition mem (x : text) (l : list text) : bool := existsb (text_eqb x) l.

(** [d.get(key, '')] *)
Definition get_or_empty (v : option text) : text :=
  match v with Some s => s | None => [] end.

(** [s[:n]] *)
Definition take (n : nat) (s : text) : text := firstn n s.

(** The truth value of a [str]. *)
Definition nonempty (s : text) : bool :=
  match s with [] => false | _ :: _ => true end.

(** [str(n)] on an [int] *)
Definition str_int (n : Z) : text := str (NilZero.string_of_int (Z.to_int n)).

Record Duplicate := mkDuplicate {
  dup_title : text;
  dup_issues : list Z
}.

Record Categories := mkCategories {
  bugs : list Z;
  documentation : list Z;
  coding_errors : list Z
}.

Definition day : Z := 86400 * second.

(** [(a - b).days]: a [timedelta] keeps [0 <= seconds < 86400], so its
    [days] is the floor of the difference. *)
Definition timedelta_days (a b : Z) : Z := (a - b) / day.

Definition is_open (issue : Issue) : bool :=
  match state issue with
  | Some s => text_eqb s (str "open")
  | None => false
  end.

(** [utcnow] is what [datetime.utcnow()] reads. Each entry is the issue
    number with [age_days] ([days_open] in the package). *)
Definition detect_unaddressed_errors (utcnow : Z) (issues : list Issue)
    : list (Z * Z) :=
  fold_left
    (fun unaddressed issue =>
       if is_open issue then
         match created_at issue with
         | Some created_date =>
             let days_open := timedelta_days utcnow created_date in
             if days_open >? 365
             then unaddressed ++ [(number issue, days_open)]
             else unaddressed
         | None => unaddressed
         end
       else unaddressed)
    issues [].

Definition bug_keywords : list text :=
  [str "bug"; str "error"; str "crash"; str "fail"; str "broken"; str "not working"].
Definition doc_keywords : list text :=
  [str "document"; str "doc"; str "readme"; str "tutorial"; str "example"].
Definition coding_keywords : list text :=
  [str "exception"; str "stack trace"; str "compile"; str "syntax"; str "runtime"].

(** [any(keyword in text for keyword in keywords)] *)
Definition any_in (keywords : list text) (s : text) : bool :=
  existsb (fun keyword => contains keyword s) keywords.

(** [title_groups[key].append(issue)] on a [defaultdict(list)], which keeps
    its keys in insertion order. *)
Fixpoint group_append (key : text) (issue : Issue)
    (groups : list (text * list Issue)) : list (text * list Issue) :=
  match groups with
  | [] => [(key, [issue])]
  | (k, g) :: rest =>
      if text_eqb k key then (k, g ++ [issue]) :: rest
      else (k, g) :: group_append key issue rest
  end.

(** ** The text functions that consult the database, and the analyzer

    [detect_duplicates] and [categorize_issues] have the same text in both
    files; [detect_inconsistencies] and [detect_unaddressed_errors] differ
    only in the keys of the dicts they emit. *)

Section Analyzer.

Context {U : Unicode}.

(** [\w]: on ASCII the letters, the digits and the underscore. *)
Definition is_word (c : char) : bool :=
  if is_ascii c
  then between 97 122 c || between 65 90 c || between 48 57 c || (c =? 95)
  else isalnum c.

(** [\s] and [str.strip]: on ASCII the tab, line feed, vertical tab, form
    feed, carriage return, the four separators 28-31, and the space. *)
Definition is_space (c : char) : bool :=
  if is_ascii c then between 9 13 c || between 28 32 c else isspace c.

(** [s.lower()] *)
Definition lower (s : text) : text :=
  if isascii s then map lower_char s else unicode_lower s.

(** [re.sub(r'[^\w\s]', '', s)] *)
Fixpoint strip_non_word (s : text) : text :=
  match s with
  | [] => []
  | c :: t =>
      if is_word c || is_space c then c :: strip_non_word t
      else strip_non_word t
  end.

(** [re.sub(r'\s+', ' ', s)]: every maximal run of whitespace becomes one
    space, written when the last character of the run is reached. *)
Fixpoint collapse_whitespace (s : text) : text :=
  match s with
  | [] => []
  | c :: t =>
      if is_space c then
        match t with
        | [] => [32]
        | c' :: _ =>
            if is_space c' then collapse_whitespace t
            else 32 :: collapse_whitespace t
        end
      else c :: collapse_whitespace t
  end.

(** [s.strip()] drops the whitespace at the left end, then at the right. *)
Fixpoint lstrip (s : text) : text :=
  match s with
  | [] => []
  | c :: t => if is_space c then lstrip t else s
  end.

Fixpoint rstrip (s : text) : text :=
  match s with
  | [] => []
  | c :: t =>
      match rstrip t with
      | [] => if is_space c then [] else [c]
      | t' => c :: t'
      end
  end.

Definition strip (s : text) : text := rstrip (lstrip s).

(** [simplified]: the key under which [detect_duplicates] files an issue. *)
Definition simplified (issue : Issue) : text :=
  let title := lower (get_or_empty (title issue)) in
  let simplified := strip_non_word title in
  strip (collapse_whitespace simplified).

Definition title_groups (issues : list Issue) : list (text * list Issue) :=
  fold_left (fun groups issue => group_append (simplified issue) issue groups)
            issues [].

Definition detect_duplicates (issues : list Issue) : list Duplicate :=
  fold_left
    (fun duplicates '(title, group) =>
       if len group >? 1
       then duplicates ++ [mkDuplicate title (map number group)]
       else duplicates)
    (title_groups issues) [].

Definition lower_labels (issue : Issue) : list text := map lower (labels issue).

Definition detect_inconsistencies (issues : list Issue) : list Z :=
  fold_left
    (fun inconsistencies issue =>
       let labels := lower_labels issue in
       if mem (str "bug") labels && mem (str "feature") labels
       then inconsistencies ++ [number issue]
       else inconsistencies)
    issues [].

(** The three tests of [categorize_issues]. [title] and [body] are
    [issue.get(key, '').lower() if issue.get(key) else ''], which is the
    lower-cased text, or the empty string when the key is missing or null. *)
Definition is_bug (issue : Issue) : bool :=
  let labels := lower_labels issue in
  let title := lower (get_or_empty (title issue)) in
  let body := lower (get_or_empty (body issue)) in
  mem (str "bug") labels || any_in bug_keywords title || any_in bug_keywords body.

Definition is_documentation (issue : Issue) : bool :=
  let labels := lower_labels issue in
  let title := lower (get_or_empty (title issue)) in
  let body := lower (get_or_empty (body issue)) in
  mem (str "documentation") labels
  || any_in doc_keywords title || any_in doc_keywords body.

Definition is_coding_error (issue : Issue) : bool :=
  let title := lower (get_or_empty (title issue)) in
  let body := lower (get_or_empty (body issue)) in
  any_in coding_keywords title || any_in coding_keywords body.

Definition categorize_issues (issues : list Issue) : Categories :=
  fold_left
    (fun acc issue =>
       let acc := if is_bug issue
                  then mkCategories (bugs acc ++ [number issue]) (documentation acc) (coding_errors acc)
                  else acc in
       let acc := if is_documentation issue
                  then mkCategories (bugs acc) (documentation acc ++ [number issue]) (coding_errors acc)
                  else acc in
       if is_coding_error issue
       then mkCategories (bugs acc) (documentation acc) (coding_errors acc ++ [number issue])
       else acc)
    issues (mkCategories [] [] []).

(** ** The summary of an issue *)

(** What [summarize_issue] does to a body: [re.sub(r'\s+', ' ', body.strip())],
    and when the result has more than [limit] characters, its first
    [limit] characters followed by three dots. *)
Definition excerpt (limit : nat) (body : text) : text :=
  let body := collapse_whitespace (strip body) in
  if Nat.ltb limit (List.length body) then take limit body ++ str "..."
  else body.

End Analyzer.

(** ** The run of [main]

    The remote side of one run: the replies of the issue listing, of the
    search endpoint for each issue number, and of the comment listing of
    each issue number. *)
Record Remote := mkRemote {
  issues_api : list (Reply (list Issue));
  search_api : Z -> Reply SearchResult;
  comments_api : Z -> list (Reply (list Comment))
}.

(** One entry of [processed_issues]; the other keys copy fields of the issue. *)
Record Processed := mkProcessed {
  processed_number : Z;
  comments_count : Z
}.

(** What [main] has computed when it starts printing. *)
Record Report := mkReport {
  processed_issues : list Processed;
  duplicates : list Duplicate;
  inconsistencies : list Z;
  unaddressed : list (Z * Z);
  categories : Categories
}.

Definition analyse {U : Unicode} (issues : list Issue) (processed : list Processed)
    (w : World) : Report :=
  mkReport processed (detect_duplicates issues) (detect_inconsistencies issues)
           (detect_unaddressed_errors (clock w) issues) (categorize_issues issues).

(** ** [src/fetch_issues.py] *)
Module Script.

(** Lines 37-71: the [try] block of [fetch_issues]. *)
Definition fetch_issues_try (r : Reply (list Issue)) (s : Z * list Issue) (w : World)
    : Tried (Z * list Issue) :=
  let '(page, issues) := s in
  let w := requests_get IssuesURL (Some "all") (Some page) (Some per_page) w in
  match r with
  | Fails => Raised ConnectionError s w
  | Responds response =>
      if status_code response =? 403 then
        if rate_limit_exhausted response then
          match wait_for_reset response w with
          | inl e => Raised e s w
          | inr w' => Done (Next s w')                      (* retry the same page *)
          end
        else Done (Exit 1 w)
      else if raises_for_status response then
        Raised (HTTPError (status_code response)) s w
      else
        match json response with
        | None => Raised JSONDecodeError s w
        | Some page_issues =>
            match page_issues with
            | [] => Done (Break s w)
            | _ =>
                let issues := issues ++ page_issues in
                if len page_issues <? per_page then Done (Break (page, issues) w)
                else
                  match sleep 500000 w with
                  | inl e => Raised e (page + 1, issues) w
                  | inr w' => Done (Next (page + 1, issues) w')
                  end
            end
        end
  end.

(** Lines 73-86: the [except] clauses of [fetch_issues], in order. *)
Definition fetch_issues_except (e : Exn) (s : Z * list Issue) (w : World)
    : Control (Z * list Issue) :=
  match e with
  | HTTPError status => if status =? 422 then Break s w else Exit 1 w
  | _ =>
      if is_RequestException e then Exit 1 w
      else match e with
           | JSONDecodeError => Exit 1 w
           | _ => Propagate e w
           end
  end.

Definition fetch_issues_iteration (r : Reply (list Issue)) (s : Z * list Issue)
    (w : World) : Control (Z * list Issue) :=
  match fetch_issues_try r s w with
  | Done c => c
  | Raised e s' w' => fetch_issues_except e s' w'
  end.

Definition fetch_issues (replies : list (Reply (list Issue))) (w : World)
    : Outcome (list Issue) * World :=
  bind (while_true fetch_issues_iteration replies (1, []) w)
       (fun s w' => (Return (filter not_pull_request (snd s)), w')).

(** Lines 117-149: the [try] block of [extract_comments]. *)
Definition extract_comments_try (issue_number : Z) (r : Reply (list Comment))
    (s : Z * list Comment) (w : World) : Tried (Z * list Comment) :=
  let '(page, comments) := s in
  let w := requests_get (CommentsURL issue_number) None (Some page) (Some per_page) w in
  match r with
  | Fails => Raised ConnectionError s w
  | Responds response =>
      if status_code response =? 403 then
        if rate_limit_exhausted response then
          match wait_for_reset response w with
          | inl e => Raised e s w
          | inr w' => Done (Next s w')                      (* retry the same page *)
          end
        else Done (Break s w)
      else if raises_for_status response then
        Raised (HTTPError (status_code response)) s w
      else
        match json response with
        | None => Raised JSONDecodeError s w
        | Some page_comments =>
            match page_comments with
            | [] => Done (Break s w)
            | _ =>
                let comments := comments ++ page_comments in
                if len page_comments <? per_page then Done (Break (page, comments) w)
                else
                  match sleep 500000 w with
                  | inl e => Raised e (page + 1, comments) w
                  | inr w' => Done (Next (page + 1, comments) w')
                  end
            end
        end
  end.

(** Lines 151-153: the one [except] clause of [extract_comments]. *)
Definition extract_comments_except (e : Exn) (s : Z * list Comment) (w : World)
    : Control (Z * list Comment) :=
  if is_RequestException e then Break s w else Propagate e w.

Definition extract_comments_iteration (issue_number : Z) (r : Reply (list Comment))
    (s : Z * list Comment) (w : World) : Control (Z * list Comment) :=
  match extract_comments_try issue_number r s w with
  | Done c => c
  | Raised e s' w' => extract_comments_except e s' w'
  end.

Definition extract_comments (issue_number : Z) (replies : list (Reply (list Comment)))
    (w : World) : Outcome (list Comment) * World :=
  bind (while_true (extract_comments_iteration issue_number) replies (1, []) w)
       (fun s w' => (Return (snd s), w')).

(** Lines 157-182: [summarize_issue]. *)
Definition summarize_issue {U : Unicode} (issue : Issue) : text :=
  let title := match title issue with Some t => t | None => str "No title" end in
  let body := get_or_empty (body issue) in
  let number := str_int (number issue) in
  let state := match state issue with Some s => s | None => str "unknown" end in
  let body := if nonempty body then excerpt 500 body else body in
  let summary :=
    str "Issue #" ++ number ++ str " [" ++ state ++ str "]: " ++ title ++ str ". " in
  let summary :=
    if nonempty body then summary ++ str "Description: " ++ body ++ str " "
    else summary ++ str "No description provided. " in
  strip summary.

(** Lines 304-325: the loop of [main] over the issues. *)
Fixpoint process_issues (remote : Remote) (issues : list Issue)
    (processed : list Processed) (w : World) : Outcome (list Processed) * World :=
  match issues with
  | [] => (Return processed, w)
  | issue :: rest =>
      bind (extract_comments (number issue) (comments_api remote (number issue)) w)
        (fun comments w =>
      bind (time_sleep 100000 w)
        (fun _ w =>
      process_issues remote rest
        (processed ++ [mkProcessed (number issue) (len comments)]) w))
  end.

(** Lines 294-337 of [main]; [None] is the early return on an empty list. *)
Definition main {U : Unicode} (remote : Remote) (w : World)
    : Outcome (option Report) * World :=
  bind (fetch_issues (issues_api remote) w)
    (fun issues w =>
       match issues with
       | [] => (Return None, w)
       | _ =>
           bind (process_issues remote issues [] w)
             (fun processed w => (Return (Some (analyse issues processed w)), w))
       end).

End Script.

(** ** [src/github_issue_analyzer/fetch_github_issues.py] *)
Module Package.

(** Line 40: [state = 'open' if only_open_without_pr else 'all']. *)
Definition state_param (only_open_without_pr : bool) : string :=
  if only_open_without_pr then "open" else "all".

(** Lines 52-97: the [try] block of [fetch_issues]. The early
    [return issues] of line 66 leaves the loop with the list the function
    returns after the loop too, so it is a [Break]. *)
Definition fetch_issues_try (only_open_without_pr : bool) (r : Reply (list Issue))
    (s : Z * list Issue) (w : World) : Tried (Z * list Issue) :=
  let '(page, issues) := s in
  let w := requests_get IssuesURL (Some (state_param only_open_without_pr))
             (Some page) (Some per_page) w in
  match r with
  | Fails => Raised ConnectionError s w
  | Responds response =>
      if status_code response =? 403 then
        if rate_limit_exhausted response then
          match wait_for_reset response w with
          | inl e => Raised e s w
          | inr w' => Done (Next s w')
          end
        else Done (Break s w)
      else if raises_for_status response then
        Raised (HTTPError (status_code response)) s w
      else
        match json response with
        | None => Raised JSONDecodeError s w
        | Some page_issues =>
            match page_issues with
            | [] => Done (Break s w)
            | _ =>
                let issues :=
                  if only_open_without_pr
                  then issues ++ filter not_pull_request page_issues  (* lines 77-88 *)
                  else issues ++ filter not_pull_request page_issues  (* line 91 *)
                in
                if len page_issues <? per_page then Done (Break (page, issues) w)
                else
                  match sleep 100000 w with
                  | inl e => Raised e (page + 1, issues) w
                  | inr w' => Done (Next (page + 1, issues) w')
                  end
            end
        end
  end.

(** Lines 99-101: the one [except] clause of [fetch_issues]. *)
Definition fetch_issues_except (e : Exn) (s : Z * list Issue) (w : World)
    : Control (Z * list Issue) :=
  if is_RequestException e then Break s w else Propagate e w.

Definition fetch_issues_iteration (only_open_without_pr : bool)
    (r : Reply (list Issue)) (s : Z * list Issue) (w : World) : Control (Z * list Issue) :=
  match fetch_issues_try only_open_without_pr r s w with
  | Done c => c
  | Raised e s' w' => fetch_issues_except e s' w'
  end.

Definition fetch_issues (only_open_without_pr : bool)
    (replies : list (Reply (list Issue))) (w : World)
    : Outcome (list Issue) * World :=
  bind (while_true (fetch_issues_iteration only_open_without_pr) replies (1, []) w)
       (fun s w' => (Return (snd s), w')).

(** Lines 131-139 of [check_issue_has_pr]: the bare [except] swallows every
    exception, and every path that does not return inside the [try] falls
    to [return False]. *)
Definition check_issue_has_pr (issue_number : Z) (r : Reply SearchResult) (w : World)
    : bool * World :=
  let w := requests_get (SearchURL issue_number) None None None w in
  match r with
  | Fails => (false, w)
  | Responds response =>
      if status_code response =? 200 then
        match json response with
        | None => (false, w)
        | Some data =>
            (match total_count data with Some n => n >? 0 | None => 0 >? 0 end, w)
        end
      else (false, w)
  end.

(** Lines 160-188: the [try] block of [extract_comments]. *)
Definition extract_comments_try (issue_number : Z) (r : Reply (list Comment))
    (s : Z * list Comment) (w : World) : Tried (Z * list Comment) :=
  let '(page, comments) := s in
  let w := requests_get (CommentsURL issue_number) None (Some page) (Some per_page) w in
  match r with
  | Fails => Raised ConnectionError s w
  | Responds response =>
      if status_code response =? 403 then
        if rate_limit_exhausted response then
          match wait_for_reset response w with
          | inl e => Raised e s w
          | inr w' => Done (Next s w')
          end
        else Done (Break s w)
      else if raises_for_status response then
        Raised (HTTPError (status_code response)) s w
      else
        match json response with
        | None => Raised JSONDecodeError s w
        | Some page_comments =>
            match page_comments with
            | [] => Done (Break s w)
            | _ =>
                let comments := comments ++ page_comments in
                if len page_comments <? per_page then Done (Break (page, comments) w)
                else
                  match sleep 100000 w with
                  | inl e => Raised e (page + 1, comments) w
                  | inr w' => Done (Next (page + 1, comments) w')
                  end
            end
        end
  end.

(** Lines 190-192: the one [except] clause of [extract_comments]. *)
Definition extract_comments_except (e : Exn) (s : Z * list Comment) (w : World)
    : Control (Z * list Comment) :=
  if is_RequestException e then Break s w else Propagate e w.

Definition extract_comments_iteration (issue_number : Z) (r : Reply (list Comment))
    (s : Z * list Comment) (w : World) : Control (Z * list Comment) :=
  match extract_comments_try issue_number r s w with
  | Done c => c
  | Raised e s' w' => extract_comments_except e s' w'
  end.

Definition extract_comments (issue_number : Z) (replies : list (Reply (list Comment)))
    (w : World) : Outcome (list Comment) * World :=
  bind (while_true (extract_comments_iteration issue_number) replies (1, []) w)
       (fun s w' => (Return (snd s), w')).

(** Lines 197-213: [summarize_issue]. *)
Definition summarize_issue {U : Unicode} (issue : Issue) : text :=
  let title := match title issue with Some t => t | None => str "No title" end in
  let body := get_or_empty (body issue) in
  let number := str_int (number issue) in
  let state := match state issue with Some s => s | None => str "unknown" end in
  let body := if nonempty body then excerpt 300 body else body in
  let summary := str "Issue #" ++ number ++ str " [" ++ state ++ str "]: " ++ title in
  if nonempty body then summary ++ str " - " ++ body else summary.

Record Args := mkArgs {
  no_comments : bool;     (* --no-comments: Skip fetching comments *)
  open_only : bool;       (* --open-only: Fetch only open issues *)
  no_pr : bool            (* --no-pr: Fetch only issues without associated PRs *)
}.

(** Lines 325-330: the loop of [main] that keeps the issues without a pull
    request. *)
Fixpoint filter_issues (remote : Remote) (issues filtered_issues : list Issue)
    (w : World) : Outcome (list Issue) * World :=
  match issues with
  | [] => (Return filtered_issues, w)
  | issue :: rest =>
      let '(has_pr, w) :=
        check_issue_has_pr (number issue) (search_api remote (number issue)) w in
      let filtered_issues :=
        if negb has_pr then filtered_issues ++ [issue] else filtered_issues in
      bind (time_sleep 100000 w)
        (fun _ w => filter_issues remote rest filtered_issues w)
  end.

(** Lines 337-356: the loop of [main] over the issues. *)
Fixpoint process_issues (args : Args) (remote : Remote) (issues : list Issue)
    (processed : list Processed) (w : World) : Outcome (list Processed) * World :=
  match issues with
  | [] => (Return processed, w)
  | issue :: rest =>
      bind (if negb (no_comments args)
            then extract_comments (number issue) (comments_api remote (number issue)) w
            else (Return [], w))
        (fun comments w =>
      process_issues args remote rest
        (processed ++ [mkProcessed (number issue) (len comments)]) w)
  end.

(** Lines 311-362 of [main]; [None] is the early return on an empty list. *)
Definition main {U : Unicode} (args : Args) (remote : Remote) (w : World)
    : Outcome (option Report) * World :=
  let only_open_without_pr := open_only args && no_pr args in
  bind (fetch_issues only_open_without_pr (issues_api remote) w)
    (fun issues w =>
       match issues with
       | [] => (Return None, w)
       | _ =>
           bind (if no_pr args && negb (open_only args)
                 then filter_issues remote issues [] w
                 else (Return issues, w))
             (fun issues w =>
           bind (process_issues args remote issues [] w)
             (fun processed w => (Return (Some (analyse issues processed w)), w)))
       end).

End Package.

(** * Vocabulary of the statements *)

(** ** Traces, replies and sample data *)

(** The requests for the [n] pages [p], [p+1], ... of [endpoint]. *)
Definition pages_from (endpoint : Endpoint) (p : Z) (n : nat)
    : list (Endpoint * option Z) :=
  map (fun k => (endpoint, Some (p + Z.of_nat k))) (seq 0 n).

(** The requests of a trace, in the order in which they were sent. *)
Fixpoint requests (t : list Event) : list Request :=
  match t with
  | [] => []
  | Get r :: t' => r :: requests t'
  | Sleep _ :: t' => requests t'
  end.

(** The endpoint and the [page] parameter of every request, in order. *)
Definition page_requests (t : list Event) : list (Endpoint * option Z) :=
  map (fun r => (url r, param_page r)) (requests t).

(** A reply with status 200 whose body is the JSON array [l]. *)
Definition page_of {A : Type} (l : list A) : Reply (list A) :=
  Responds (mkResponse 200 None NoHeader (Some l)).

(** A run that starts at the epoch with an empty trace. *)
Definition start : World := mkWorld 0 [].

(** A record of the issue listing that is a pull request, one that is an
    issue, and a comment. *)
Definition a_pull_request : Issue :=
  mkIssue 7 (Some (str "Add retry")) None (Some (str "open")) [] None true.

Definition an_issue : Issue :=
  mkIssue 8 (Some (str "Crash on start")) None (Some (str "closed")) [] None false.

Definition a_comment : Comment := mkComment "octocat" "Same here".

(** ** Rate limiting and errors *)

(** A 403 whose remaining-quota header is ["0"] and whose reset header
    reads [T]; the body is whatever the remote sent along. *)
Definition rate_limited {A : Type} (T : Z) (body : option A) : Reply A :=
  Responds (mkResponse 403 (Some "0") (IntValue T) body).

(** The world in which a pass through a loop body ends. *)
Definition world_of {S : Type} (c : Control S) : World :=
  match c with
  | Next _ w | Break _ w | Exit _ w | Propagate _ w => w
  end.

(** The longest sleep, in whole seconds, that [time.sleep] accepts: one
    second more does not fit into 64 bits of nanoseconds. *)
Definition longest_sleep : Z := 9223372036.

(** The statement shared by the four loops: on a rate-limited reply that
    arrives no later than second [T+1], with a reset time that is not too
    far ahead for [time.sleep], the pass ends in [Next] with page and
    accumulator untouched, after one request for page [p] and one sleep that
    ends at [T+1] or later; and whatever the next reply is, the next pass
    opens with a request for the same page [p], sent when the sleep is over. *)
Definition blocking_retry {A : Type}
    (iteration : Reply (list A) -> Z * list A -> World -> Control (Z * list A))
    (endpoint : Endpoint) (st : option string) : Prop :=
  forall (T : Z) (body : option (list A)) (p : Z) (acc : list A) (w : World),
    int_time w <= T + 1 ->
    T - int_time w + 1 <= longest_sleep ->
    exists w',
      iteration (rate_limited T body) (p, acc) w = Next (p, acc) w' /\
      trace w' = trace w ++ [Get (mkRequest endpoint st (Some p) (Some per_page) (clock w));
                             Sleep (clock w' - clock w)] /\
      (T + 1) * second <= clock w' /\
      forall next, exists tail,
        trace (world_of (iteration next (p, acc) w')) =
        trace w' ++ Get (mkRequest endpoint st (Some p) (Some per_page) (clock w')) :: tail.

(** What [time.sleep] raises when the reset time [T] has passed:
    [ValueError] for the negative length, unless the length is so far below
    zero that its conversion fails first. *)
Definition too_late_error (T : Z) (w : World) : Exn :=
  if T - int_time w + 1 <? - longest_sleep then OverflowError else ValueError.

(** A local clock that reads [now], in whole seconds. *)
Definition at_second (now : Z) : World := mkWorld (now * second) [].

(** The replies the spec calls unrecoverable: a network failure, a 403
    without the rate-limit signal, any other 4xx or 5xx status, or a body
    that is not JSON. *)
Definition unrecoverable {A : Type} (r : Reply A) : bool :=
  match r with
  | Fails => true
  | Responds resp =>
      if status_code resp =? 403 then negb (rate_limit_exhausted resp)
      else raises_for_status resp
           || match json resp with None => true | Some _ => false end
  end.

(** The reply is an HTTP response with status [code]. *)
Definition has_status {A : Type} (code : Z) (r : Reply A) : bool :=
  match r with
  | Fails => false
  | Responds resp => status_code resp =? code
  end.

(** ** The issue retriever *)

(** No issue of the list carries the pull-request marker. *)
Definition no_pull_requests (issues : list Issue) : Prop :=
  Forall (fun i => pull_request i = false) issues.

(** Every request sent so far carries the [state] parameter [st]. *)
Definition asks_state (st : string) (w : World) : Prop :=
  Forall (fun r => param_state r = Some st) (requests (trace w)).

(** A repository whose listing is one short page: a closed issue and a pull
    request. It has no comments and the search endpoint is down. *)
Definition small_repository : Remote :=
  mkRemote [page_of [an_issue; a_pull_request]] (fun _ => Fails) (fun _ => [page_of []]).

(** Of a run of [main]: the numbers of the processed issues, and the
    [state] parameter of every request. *)
Definition outcome_summary (r : Outcome (option Report) * World)
    : option (list Z) * list (option string) :=
  (match fst r with
   | Return (Some report) => Some (map processed_number (processed_issues report))
   | _ => None
   end,
   map param_state (requests (trace (snd r)))).

(** A reply with status 500. *)
Definition server_error {A : Type} : Reply A :=
  Responds (mkResponse 500 None NoHeader None).

(** A repository in which every comment listing serves one full page and
    then answers with status 500. *)
Definition commented_repository : Remote :=
  mkRemote [page_of [an_issue]] (fun _ => Fails)
           (fun _ => map page_of [repeat a_comment 100] ++ server_error :: []).

(** The search call fails: [requests.get] raises, the status is not 200, or
    [response.json()] raises on the body. *)
Definition search_fails (r : Reply SearchResult) : bool :=
  match r with
  | Fails => true
  | Responds resp =>
      negb (status_code resp =? 200)
      || match json resp with None => true | Some _ => false end
  end.

(** What [check_issue_has_pr] answers for the issue. *)
Definition has_pr (remote : Remote) (issue : Issue) : bool :=
  fst (Package.check_issue_has_pr (number issue) (search_api remote (number issue)) start).

(** ** The analyzer *)

(** The age of an issue in whole days, when it has a creation timestamp. *)
Definition age_in_days (utcnow : Z) (issue : Issue) : option Z :=
  option_map (timedelta_days utcnow) (created_at issue).

(** The claim's criterion: the issue is open, and its age in whole days
    since its creation timestamp exceeds 365. *)
Definition stale (utcnow : Z) (issue : Issue) : bool :=
  is_open issue &&
  match age_in_days utcnow issue with
  | Some days => days >? 365
  | None => false
  end.

(** An issue created at the epoch. *)
Definition year_old (state : string) (n : Z) : Issue :=
  mkIssue n (Some (str "Crash on start")) None (Some (str state)) [] (Some 0) false.

(** [kw] occurs in [s]: some text before it and some after it. *)
Definition occurs_in (kw s : text) : Prop :=
  exists before after, s = before ++ kw ++ after.

(** One of the keywords occurs in [s]. *)
Definition keyword_occurs (keywords : list text) (s : text) : Prop :=
  exists keyword, In keyword keywords /\ occurs_in keyword s.

(** Open issues that have only a title, only a body, only labels, or
    nothing. *)
Definition titled (n : Z) (t : string) : Issue :=
  mkIssue n (Some (str t)) None (Some (str "open")) [] None false.

Definition with_body (n : Z) (b : string) : Issue :=
  mkIssue n None (Some (str b)) (Some (str "open")) [] None false.

Definition labelled (n : Z) (l : list string) : Issue :=
  mkIssue n None None (Some (str "open")) (map str l) None false.

Definition untitled (n : Z) : Issue :=
  mkIssue n None None (Some (str "open")) [] None false.

(** The distinct elements of a list, each at the place of its first
    occurrence. *)
Fixpoint first_occurrences (keys : list text) : list text :=
  match keys with
  | [] => []
  | k :: rest => k :: filter (fun k' => negb (text_eqb k' k)) (first_occurrences rest)
  end.

(** The tables emptied: a database in which no character beyond ASCII is
    alphanumeric or whitespace or has a lower-case form. It is enough to
    run the code on ASCII text, for which the tables are not consulted. *)
Definition ascii_only : Unicode :=
  mkUnicode (fun _ => false) (fun _ => false) (fun s => s).

Section AnalyzerVocabulary.

Context {U : Unicode}.

(** The issues whose normalized title is [key], in their order. *)
Definition same_title (key : text) (issues : list Issue) : list Issue :=
  filter (fun i => text_eqb (simplified i) key) issues.

(** The claim's reading of duplicate detection: group the issues by
    normalized title, keep the groups of two or more, in the order in which
    each group's first member occurs. *)
Definition duplicate_groups (issues : list Issue) : list Duplicate :=
  map (fun key => mkDuplicate key (map number (same_title key issues)))
      (filter (fun key => 2 <=? len (same_title key issues))
              (first_occurrences (map simplified issues))).

(** [s.split()]: the maximal runs of characters that are not whitespace. *)
Fixpoint words (s : text) : list text :=
  match s with
  | [] => []
  | c :: t =>
      if is_space c then words t
      else
        match t with
        | [] => [[c]]
        | d :: _ =>
            if is_space d then [c] :: words t
            else
              match words t with
              | w :: ws => (c :: w) :: ws
              | [] => [[c]]
              end
        end
  end.

(** [' '.join(ws)] *)
Fixpoint unwords (ws : list text) : text :=
  match ws with
  | [] => []
  | [w] => w
  | w :: rest => w ++ 32 :: unwords rest
  end.

(** The claim's reading of the normalization: lower-case the title, drop
    every character that is neither a word character nor whitespace, and
    write the words that are left with one space between them. *)
Definition normalized_title (issue : Issue) : text :=
  unwords
    (words (filter (fun c => is_word c || is_space c)
                   (lower (get_or_empty (title issue))))).

(** No character of [s] is a word character: a letter, a digit or the
    underscore. *)
Definition no_word_char (s : text) : bool := forallb (fun c => negb (is_word c)) s.

(** Every character of [s] is whitespace. *)
Definition all_space (s : text) : bool := forallb is_space s.

(** The title is absent, empty, or has no word character once it is
    lower-cased. *)
Definition blank_title (issue : Issue) : bool :=
  match title issue with
  | None => true
  | Some t => no_word_char (lower t)
  end.

(** ** The shape of text *)

(** A character of a normalized title: the plain space, or a word
    character that is not whitespace. *)
Definition normal_char (c : char) : Prop :=
  c = 32 \/ (is_word c = true /\ is_space c = false).

(** The first, respectively the last, character of [s] is whitespace. *)
Definition starts_with_space (s : text) : bool :=
  match s with
  | [] => false
  | c :: _ => is_space c
  end.

Fixpoint ends_with_space (s : text) : bool :=
  match s with
  | [] => false
  | [c] => is_space c
  | _ :: t => ends_with_space t
  end.

(** No two neighbours in [s] are both whitespace. *)
Fixpoint no_double_space (s : text) : bool :=
  match s with
  | [] => true
  | c :: t => negb (is_space c && starts_with_space t) && no_double_space t
  end.

(** A character of the normalized form of an ASCII title: an ASCII
    character that is no upper-case letter, and is the plain space or a word
    character. *)
Definition ascii_normal (c : char) : Prop :=
  is_ascii c = true /\ is_upper c = false /\
  (c = 32 \/ (is_word c = true /\ is_space c = false)).

(** A whitespace character of the text is a plain space. *)
Definition flat (s : text) : Prop :=
  Forall (fun c => is_space c = true -> c = 32) s.

(** The test of [detect_inconsistencies]: the lower-cased labels hold both
    "bug" and "feature". *)
Definition conflicting (issue : Issue) : bool :=
  mem (str "bug") (lower_labels issue) && mem (str "feature") (lower_labels issue).

(** What [summarize_issue] makes of a body whose words, written with one
    space between them, are [clean]: all of it when it has no more than
    [limit] characters, and else its first [limit] characters and three
    dots. *)
Definition cut (limit : nat) (clean : text) : text :=
  if Nat.leb (List.length clean) limit then clean
  else firstn limit clean ++ str "...".

End AnalyzerVocabulary.

(** The heading of a summary: ["Issue #<number> [<state>]: <title>"]. *)
Definition heading (issue : Issue) : text :=
  str "Issue #" ++ str_int (number issue) ++ str " ["
  ++ match state issue with Some s => s | None => str "unknown" end
  ++ str "]: "
  ++ match title issue with Some t => t | None => str "No title" end.

(** The issue without its body. *)
Definition without_body (issue : Issue) : Issue :=
  mkIssue (number issue) (title issue) None (state issue) (labels issue)
          (created_at issue) (pull_request issue).

(** The issue with another title. *)
Definition retitled (t : text) (issue : Issue) : Issue :=
  mkIssue (number issue) (Some t) (body issue) (state issue) (labels issue)
          (created_at issue) (pull_request issue).

(** The keywords of the documentation category without "document". *)
Definition doc_keywords_without_document : list text :=
  [str "doc"; str "readme"; str "tutorial"; str "example"].

(** ** Exact worlds *)

(** The request for page [p] of [endpoint], sent at time [t]. *)
Definition request_at (endpoint : Endpoint) (st : option string) (p t : Z) : Request :=
  mkRequest endpoint st (Some p) (Some per_page) t.

(** The world after the request for a page that comes back short. *)
Definition after_short (endpoint : Endpoint) (st : option string) (p : Z) (w : World)
    : World :=
  {| clock := clock w;
     trace := trace w ++ [Get (request_at endpoint st p (clock w))] |}.

(** The world after the request for a page that comes back full and the
    sleep of [d] microseconds that follows it. *)
Definition after_full (endpoint : Endpoint) (st : option string) (d p : Z) (w : World)
    : World :=
  {| clock := clock w + d;
     trace := (trace w ++ [Get (request_at endpoint st p (clock w))]) ++ [Sleep d] |}.

(** The world after [n] full pages, the first of them page [p]. *)
Fixpoint after_pages (endpoint : Endpoint) (st : option string) (d p : Z) (n : nat)
    (w : World) : World :=
  match n with
  | O => w
  | S n' => after_pages endpoint st d (p + 1) n' (after_full endpoint st d p w)
  end.

(** The requests for the [n] pages from [p] on, the first sent at [t] and
    each of the others [d] microseconds after the one before. *)
Definition paced_requests (endpoint : Endpoint) (st : option string) (d p t : Z)
    (n : nat) : list Request :=
  map (fun k => request_at endpoint st (p + Z.of_nat k) (t + Z.of_nat k * d)) (seq 0 n).

(** Between [w] and [w'] the requests for the pages 1 to [pages + 1] were
    sent, [d] microseconds apart, and [pages] times [d] microseconds went
    by: no time passed after the last request. *)
Definition paced_run (w w' : World) (endpoint : Endpoint) (st : option string)
    (d : Z) (pages : nat) : Prop :=
  requests (trace w') =
  requests (trace w) ++ paced_requests endpoint st d 1 (clock w) (S pages) /\
  clock w' = clock w + Z.of_nat pages * d.

(** The world after the request for page [p] was answered by a rate-limited
    403 with reset time [T] and the loop has slept until the reset. *)
Definition after_wait (endpoint : Endpoint) (st : option string) (p T : Z) (w : World)
    : World :=
  {| clock := clock w + (T - int_time w + 1) * second;
     trace := (trace w ++ [Get (request_at endpoint st p (clock w))])
              ++ [Sleep ((T - int_time w + 1) * second)] |}.

(** The exceptions of [time.sleep]. *)
Definition sleep_error (e : Exn) : Prop := e = ValueError \/ e = OverflowError.

(** The page [p] of [endpoint], asked for [k] times. *)
Definition asked_again (endpoint : Endpoint) (p : Z) (k : nat)
    : list (Endpoint * option Z) :=
  repeat (endpoint, Some p) k.

(** One rate-limited pass of a loop: the page is asked for, and then the
    pass ends in [Next] with the state it began with, or in the exception of
    the sleep. *)
Definition retry_or_raise {A : Type}
    (iteration : Reply (list A) -> Z * list A -> World -> Control (Z * list A))
    (endpoint : Endpoint) : Prop :=
  forall (T : Z) (body : option (list A)) (p : Z) (acc : list A) (w : World),
    exists w',
      page_requests (trace w') = page_requests (trace w) ++ [(endpoint, Some p)] /\
      (iteration (rate_limited T body) (p, acc) w = Next (p, acc) w' \/
       exists e, iteration (rate_limited T body) (p, acc) w = Propagate e w' /\
                 sleep_error e).

(** Rate-limited replies in a row, whatever their number and their reset
    times, leave the loop where it was: either it asked for the page [p]
    once for each of them and goes on with the replies that follow, at page
    [p] and with the records [acc]; or one of the sleeps raised, after no
    more requests than there were replies, all of them for the page [p]. *)
Definition retried_without_cap {A : Type}
    (iteration : Reply (list A) -> Z * list A -> World -> Control (Z * list A))
    (endpoint : Endpoint) : Prop :=
  forall (resets : list Z) (body : option (list A)) (rest : list (Reply (list A)))
         (p : Z) (acc : list A) (w : World),
    let replies := map (fun T => rate_limited T body) resets ++ rest in
    (exists w',
        while_true iteration replies (p, acc) w =
        while_true iteration rest (p, acc) w' /\
        page_requests (trace w') =
        page_requests (trace w) ++ asked_again endpoint p (List.length resets)) \/
    (exists e w' k,
        while_true iteration replies (p, acc) w = (Uncaught e, w') /\
        sleep_error e /\ (k <= List.length resets)%nat /\
        page_requests (trace w') = page_requests (trace w) ++ asked_again endpoint p k).

(** A 403 that reports remaining quota 0 and carries the reset header [h]. *)
Definition rate_limited_with {A : Type} (h : IntHeader) (body : option A) : Reply A :=
  Responds (mkResponse 403 (Some "0") h body).

(** What [int(response.headers['X-RateLimit-Reset'])] raises on a header
    that is missing or is not a number. *)
Definition reset_error (h : IntHeader) : option Exn :=
  match h with
  | NoHeader => Some KeyError
  | NotAnInt => Some ValueError
  | IntValue _ => None
  end.

(** ** Page numbers *)

(** [pages] starts at [p], and each page after the first is the page before
    it or the one that follows it: none is skipped, none is gone back to. *)
Fixpoint steps_from (p : Z) (pages : list Z) : Prop :=
  match pages with
  | [] => True
  | q :: rest => q = p /\ (steps_from p rest \/ steps_from (p + 1) rest)
  end.

(** What a loop asked of [endpoint] between [w] and [w']: the pages
    [pages], one request for each, and nothing of any other endpoint. *)
Definition asked_pages (w w' : World) (endpoint : Endpoint) (pages : list Z) : Prop :=
  page_requests (trace w') =
  page_requests (trace w) ++ map (fun q => (endpoint, Some q)) pages.

(** ** How a fetch ends *)

(** The reply is a 403 that reports remaining quota 0. *)
Definition is_rate_limited {A : Type} (r : Reply A) : bool :=
  match r with
  | Fails => false
  | Responds resp => (status_code resp =? 403) && rate_limit_exhausted resp
  end.

(** The call ended the process: through [sys.exit] with a code that
    satisfies [exit_ok], or with an exception that satisfies [exn_ok]. *)
Definition ends_within {A : Type} (exit_ok : Z -> Prop) (exn_ok : Exn -> Prop)
    (o : Outcome A) : Prop :=
  match o with
  | Return _ | Pending => True
  | SysExit c => exit_ok c
  | Uncaught e => exn_ok e
  end.

(** The same for one pass through a loop body. *)
Definition ends_within_pass {S : Type} (exit_ok : Z -> Prop) (exn_ok : Exn -> Prop)
    (c : Control S) : Prop :=
  match c with
  | Next _ _ | Break _ _ => True
  | Exit code _ => exit_ok code
  | Propagate e _ => exn_ok e
  end.

Definition never : Z -> Prop := fun _ => False.
Definition no_exception : Exn -> Prop := fun _ => False.
Definition rate_limit_error : Exn -> Prop :=
  fun e => e = KeyError \/ e = ValueError \/ e = OverflowError.

(** ** The run of [main], request by request *)

(** The one request of [check_issue_has_pr] for the issue [n], sent at [t]. *)
Definition search_request (n t : Z) : Request :=
  mkRequest (SearchURL n) None None None t.

(** The world after [check_issue_has_pr] was called for every issue of the
    list, with the tenth of a second that follows each call. *)
Fixpoint after_checks (issues : list Issue) (w : World) : World :=
  match issues with
  | [] => w
  | issue :: rest =>
      after_checks rest
        {| clock := clock w + 100000;
           trace := (trace w ++ [Get (search_request (number issue) (clock w))])
                    ++ [Sleep 100000] |}
  end.

(** No request was sent to the search endpoint. *)
Definition no_search (w : World) : Prop :=
  Forall (fun r => forall n, url r <> SearchURL n) (requests (trace w)).

(** The entry that the loop of [main] writes for [issue] when the comment
    fetch [fetch] returns: the issue's number, and the number of comments
    that the fetch returned. *)
Definition recorded (fetch : Z -> World -> Outcome (list Comment) * World)
    (issue : Issue) (entry : Processed) : Prop :=
  processed_number entry = number issue /\
  exists w comments,
    fst (fetch (number issue) w) = Return comments /\
    comments_count entry = len comments.

(** The analysis part of a report is the analysis of [issues] at [utcnow]. *)
Definition analysis_of {U : Unicode} (issues : list Issue) (utcnow : Z)
    (report : Report) : Prop :=
  duplicates report = detect_duplicates issues /\
  inconsistencies report = detect_inconsistencies issues /\
  unaddressed report = detect_unaddressed_errors utcnow issues /\
  categories report = categorize_issues issues.

(** * Properties *)

(** ** Reading the trace *)

Lemma requests_app (t1 t2 : list Event) :
  requests (t1 ++ t2) = requests t1 ++ requests t2.
Proof.
  induction t1 as [|[r|d] t1 IH]; simpl; [reflexivity | f_equal; exact IH | exact IH].
Qed.

Lemma page_requests_app (t1 t2 : list Event) :
  page_requests (t1 ++ t2) = page_requests t1 ++ page_requests t2.
Proof. unfold page_requests. now rewrite requests_app, map_app. Qed.

Lemma len_cons {A : Type} (x : A) (l : list A) : len (x :: l) = len l + 1.
Proof. unfold len. simpl List.length. lia. Qed.

Lemma len_nonneg {A : Type} (l : list A) : 0 <= len l.
Proof. unfold len. lia. Qed.

(** ** Walking the pages *)

Section Pagination.

Context {A : Type}.
Variable iteration : Reply (list A) -> Z * list A -> World -> Control (Z * list A).
Variable endpoint : Endpoint.
Variable keep : list A -> list A.

Hypothesis full_page : forall l p acc w,
  len l = per_page ->
  exists w',
    iteration (page_of l) (p, acc) w = Next (p + 1, acc ++ keep l) w' /\
    page_requests (trace w') = page_requests (trace w) ++ [(endpoint, Some p)].

Hypothesis short_page : forall l p acc w,
  len l < per_page ->
  exists w',
    iteration (page_of l) (p, acc) w = Break (p, acc ++ keep l) w' /\
    page_requests (trace w') = page_requests (trace w) ++ [(endpoint, Some p)].

Lemma pages_from_S (p : Z) (n : nat) :
  pages_from endpoint p (S n) = (endpoint, Some p) :: pages_from endpoint (p + 1) n.
Proof.
  unfold pages_from. simpl seq. simpl map. rewrite Z.add_0_r. f_equal.
  rewrite <- seq_shift, map_map. apply map_ext. intros k.
  do 2 f_equal. lia.
Qed.

Lemma walk_full_pages (fulls : list (list A)) :
  forall tail p acc w,
    Forall (fun l => len l = per_page) fulls ->
    exists w',
      while_true iteration (map page_of fulls ++ tail) (p, acc) w =
      while_true iteration tail (p + len fulls, acc ++ List.concat (map keep fulls)) w' /\
      page_requests (trace w') =
      page_requests (trace w) ++ pages_from endpoint p (List.length fulls).
Proof.
  induction fulls as [|l fulls IH]; intros tail p acc w Hfull.
  - exists w. unfold len, pages_from. simpl.
    now rewrite Z.add_0_r, !app_nil_r.
  - inversion Hfull as [|? ? Hl Hrest]; subst.
    destruct (full_page l p acc w Hl) as (w1 & Hstep & Htrace).
    destruct (IH tail (p + 1) (acc ++ keep l) w1 Hrest) as (w2 & Hrun & Htrace2).
    exists w2. split.
    + simpl map. simpl app. cbn [while_true]. rewrite Hstep, Hrun.
      rewrite len_cons. simpl List.concat. rewrite <- app_assoc.
      replace (p + 1 + len fulls) with (p + (len fulls + 1)) by lia.
      reflexivity.
    + rewrite Htrace2, Htrace, <- app_assoc. f_equal.
      simpl List.length. now rewrite pages_from_S.
Qed.

(** [N] full pages and then a short one: [N+1] requests for the pages
    [p], [p+1], ..., and whatever the remote would answer afterwards is
    never asked for. *)
Lemma walk_pages (fulls : list (list A)) (last : list A) :
  forall rest p acc w,
    Forall (fun l => len l = per_page) fulls ->
    len last < per_page ->
    exists w',
      while_true iteration (map page_of fulls ++ page_of last :: rest) (p, acc) w =
      (Return (p + len fulls, acc ++ List.concat (map keep (fulls ++ [last]))), w') /\
      page_requests (trace w') =
      page_requests (trace w) ++ pages_from endpoint p (S (List.length fulls)).
Proof.
  intros rest p acc w Hfull Hlast.
  destruct (walk_full_pages fulls (page_of last :: rest) p acc w Hfull)
    as (w1 & Hrun & Htrace).
  destruct (short_page last (p + len fulls) (acc ++ List.concat (map keep fulls)) w1 Hlast)
    as (w2 & Hstep & Htrace2).
  exists w2. split.
  - rewrite Hrun. cbn [while_true]. rewrite Hstep.
    rewrite map_app, concat_app. simpl. now rewrite app_nil_r, <- app_assoc.
  - rewrite Htrace2, Htrace, <- app_assoc. f_equal.
    unfold pages_from. rewrite seq_S, map_app. reflexivity.
Qed.

End Pagination.

(** What the four loops do with a page that arrives with status 200. *)

Lemma full_page_not_short {A : Type} (l : list A) :
  len l = per_page -> l <> [] /\ (len l <? per_page) = false.
Proof.
  intros H. split.
  - intros ->. discriminate H.
  - apply Z.ltb_ge. lia.
Qed.

Ltac page_step l :=
  cbn [page_of status_code json ratelimit_remaining ratelimit_reset];
  unfold raises_for_status; cbn [status_code json];
  change (200 =? 403) with false; change ((400 <=? 200) && (200 <? 600)) with false;
  cbv iota;
  destruct l; [try contradiction; try discriminate | ].

Lemma script_issues_full_page (l : list Issue) p acc w :
  len l = per_page ->
  exists w',
    Script.fetch_issues_iteration (page_of l) (p, acc) w = Next (p + 1, acc ++ id l) w' /\
    page_requests (trace w') = page_requests (trace w) ++ [(IssuesURL, Some p)].
Proof.
  intros H. destruct (full_page_not_short l H) as [Hne Hlt].
  unfold Script.fetch_issues_iteration, Script.fetch_issues_try.
  page_step l. rewrite Hlt.
  eexists. split; [reflexivity|].
  cbn [trace requests_get]. rewrite !page_requests_app. cbn. now rewrite app_nil_r.
Qed.

Lemma script_issues_short_page (l : list Issue) p acc w :
  len l < per_page ->
  exists w',
    Script.fetch_issues_iteration (page_of l) (p, acc) w = Break (p, acc ++ id l) w' /\
    page_requests (trace w') = page_requests (trace w) ++ [(IssuesURL, Some p)].
Proof.
  intros H. apply Z.ltb_lt in H.
  unfold Script.fetch_issues_iteration, Script.fetch_issues_try.
  page_step l.
  - eexists. split; [now rewrite app_nil_r|].
    cbn [trace requests_get]. now rewrite page_requests_app.
  - rewrite H. eexists. split; [reflexivity|].
    cbn [trace requests_get]. now rewrite page_requests_app.
Qed.

Lemma package_issues_full_page (only_open_without_pr : bool) (l : list Issue) p acc w :
  len l = per_page ->
  exists w',
    Package.fetch_issues_iteration only_open_without_pr (page_of l) (p, acc) w =
    Next (p + 1, acc ++ filter not_pull_request l) w' /\
    page_requests (trace w') = page_requests (trace w) ++ [(IssuesURL, Some p)].
Proof.
  intros H. destruct (full_page_not_short l H) as [Hne Hlt].
  unfold Package.fetch_issues_iteration, Package.fetch_issues_try.
  page_step l. rewrite Hlt.
  eexists. split; [destruct only_open_without_pr; reflexivity|].
  cbn [trace requests_get]. rewrite !page_requests_app. cbn. now rewrite app_nil_r.
Qed.

Lemma package_issues_short_page (only_open_without_pr : bool) (l : list Issue) p acc w :
  len l < per_page ->
  exists w',
    Package.fetch_issues_iteration only_open_without_pr (page_of l) (p, acc) w =
    Break (p, acc ++ filter not_pull_request l) w' /\
    page_requests (trace w') = page_requests (trace w) ++ [(IssuesURL, Some p)].
Proof.
  intros H. apply Z.ltb_lt in H.
  unfold Package.fetch_issues_iteration, Package.fetch_issues_try.
  page_step l.
  - eexists. split; [cbn; now rewrite app_nil_r|].
    cbn [trace requests_get]. now rewrite page_requests_app.
  - rewrite H. eexists. split; [destruct only_open_without_pr; reflexivity|].
    cbn [trace requests_get]. now rewrite page_requests_app.
Qed.

Lemma script_comments_full_page (n : Z) (l : list Comment) p acc w :
  len l = per_page ->
  exists w',
    Script.extract_comments_iteration n (page_of l) (p, acc) w = Next (p + 1, acc ++ id l) w' /\
    page_requests (trace w') = page_requests (trace w) ++ [(CommentsURL n, Some p)].
Proof.
  intros H. destruct (full_page_not_short l H) as [Hne Hlt].
  unfold Script.extract_comments_iteration, Script.extract_comments_try.
  page_step l. rewrite Hlt.
  eexists. split; [reflexivity|].
  cbn [trace requests_get]. rewrite !page_requests_app. cbn. now rewrite app_nil_r.
Qed.

Lemma script_comments_short_page (n : Z) (l : list Comment) p acc w :
  len l < per_page ->
  exists w',
    Script.extract_comments_iteration n (page_of l) (p, acc) w = Break (p, acc ++ id l) w' /\
    page_requests (trace w') = page_requests (trace w) ++ [(CommentsURL n, Some p)].
Proof.
  intros H. apply Z.ltb_lt in H.
  unfold Script.extract_comments_iteration, Script.extract_comments_try.
  page_step l.
  - eexists. split; [now rewrite app_nil_r|].
    cbn [trace requests_get]. now rewrite page_requests_app.
  - rewrite H. eexists. split; [reflexivity|].
    cbn [trace requests_get]. now rewrite page_requests_app.
Qed.

Lemma package_comments_full_page (n : Z) (l : list Comment) p acc w :
  len l = per_page ->
  exists w',
    Package.extract_comments_iteration n (page_of l) (p, acc) w = Next (p + 1, acc ++ id l) w' /\
    page_requests (trace w') = page_requests (trace w) ++ [(CommentsURL n, Some p)].
Proof.
  intros H. destruct (full_page_not_short l H) as [Hne Hlt].
  unfold Package.extract_comments_iteration, Package.extract_comments_try.
  page_step l. rewrite Hlt.
  eexists. split; [reflexivity|].
  cbn [trace requests_get]. rewrite !page_requests_app. cbn. now rewrite app_nil_r.
Qed.

Lemma package_comments_short_page (n : Z) (l : list Comment) p acc w :
  len l < per_page ->
  exists w',
    Package.extract_comments_iteration n (page_of l) (p, acc) w = Break (p, acc ++ id l) w' /\
    page_requests (trace w') = page_requests (trace w) ++ [(CommentsURL n, Some p)].
Proof.
  intros H. apply Z.ltb_lt in H.
  unfold Package.extract_comments_iteration, Package.extract_comments_try.
  page_step l.
  - eexists. split; [now rewrite app_nil_r|].
    cbn [trace requests_get]. now rewrite page_requests_app.
  - rewrite H. eexists. split; [reflexivity|].
    cbn [trace requests_get]. now rewrite page_requests_app.
Qed.

Lemma filter_concat {A : Type} (f : A -> bool) (ls : list (list A)) :
  List.concat (map (filter f) ls) = filter f (List.concat ls).
Proof.
  induction ls as [|l ls IH]; simpl; [reflexivity|].
  now rewrite filter_app, IH.
Qed.

Lemma map_id_eq {A : Type} (l : list A) : map id l = l.
Proof.
  induction l as [|x l IH]; [reflexivity|].
  simpl. unfold id at 1. now rewrite IH.
Qed.



Lemma repeat_len {A : Type} (x : A) (n : nat) : len (repeat x n) = Z.of_nat n.
Proof. unfold len. now rewrite repeat_length. Qed.


(** ** Rate limiting *)

Lemma int_time_le_clock (w : World) : int_time w * second <= clock w.
Proof.
  unfold int_time. pose proof (Z.mul_div_le (clock w) second) as H.
  unfold second in *. lia.
Qed.

(** What [time.sleep] does with a whole number of seconds. *)
Lemma sleep_raises_seconds (s : Z) :
  sleep_raises (s * second) =
  if (s <? - longest_sleep) || (longest_sleep <? s) then Some OverflowError
  else if s <? 0 then Some ValueError
  else None.
Proof.
  unfold sleep_raises, second, longest_sleep. cbn [Z.opp].
  destruct (Z.ltb_spec (s * 1000000 * 1000) (-9223372036854775808));
    destruct (Z.ltb_spec 9223372036854775807 (s * 1000000 * 1000));
    destruct (Z.ltb_spec s (-9223372036)); destruct (Z.ltb_spec 9223372036 s);
    destruct (Z.ltb_spec (s * 1000000) 0); destruct (Z.ltb_spec s 0);
    cbn [orb]; try reflexivity; exfalso; lia.
Qed.

Lemma sleep_raises_pause (d : Z) :
  0 <= d <= 1000000 -> sleep_raises d = None.
Proof.
  intros H. unfold sleep_raises.
  destruct (Z.ltb_spec (d * 1000) (-9223372036854775808));
    destruct (Z.ltb_spec 9223372036854775807 (d * 1000));
    destruct (Z.ltb_spec d 0); cbn [orb]; try reflexivity; exfalso; lia.
Qed.

Lemma wait_for_reset_in_time {A : Type} (resp : Response A) (T : Z) (w : World) :
  ratelimit_reset resp = IntValue T ->
  int_time w <= T + 1 ->
  T - int_time w + 1 <= longest_sleep ->
  wait_for_reset resp w =
  inr {| clock := clock w + (T - int_time w + 1) * second;
         trace := trace w ++ [Sleep ((T - int_time w + 1) * second)] |}.
Proof.
  intros Hreset Hle Hmax. unfold wait_for_reset, sleep. rewrite Hreset.
  rewrite sleep_raises_seconds.
  assert ((T - int_time w + 1 <? - longest_sleep) = false) as ->
    by (apply Z.ltb_ge; unfold longest_sleep; lia).
  assert ((longest_sleep <? T - int_time w + 1) = false) as ->
    by (apply Z.ltb_ge; lia).
  assert ((T - int_time w + 1 <? 0) = false) as -> by (apply Z.ltb_ge; lia).
  reflexivity.
Qed.

Lemma wait_for_reset_too_late {A : Type} (resp : Response A) (T : Z) (w : World) :
  ratelimit_reset resp = IntValue T ->
  T + 1 < int_time w ->
  wait_for_reset resp w = inl (too_late_error T w).
Proof.
  intros Hreset Hlt. unfold wait_for_reset, sleep, too_late_error. rewrite Hreset.
  rewrite sleep_raises_seconds.
  assert ((longest_sleep <? T - int_time w + 1) = false) as ->
    by (apply Z.ltb_ge; unfold longest_sleep; lia).
  rewrite orb_false_r.
  destruct (T - int_time w + 1 <? - longest_sleep); [reflexivity|].
  assert ((T - int_time w + 1 <? 0) = true) as -> by (apply Z.ltb_lt; lia).
  reflexivity.
Qed.

Ltac innermost_case :=
  match goal with
  | |- context [match ?x with _ => _ end] =>
      lazymatch x with
      | context [match _ with _ => _ end] => fail
      | _ => destruct x
      end
  end.

Ltac first_event :=
  repeat (cbv beta iota; innermost_case);
  cbn [world_of trace requests_get sleep clock];
  try (eexists; reflexivity);
  try (eexists; rewrite <- app_assoc; reflexivity).

Lemma script_issues_first_event r p acc w :
  exists tail,
    trace (world_of (Script.fetch_issues_iteration r (p, acc) w)) =
    trace w ++ Get (mkRequest IssuesURL (Some "all") (Some p) (Some per_page) (clock w)) :: tail.
Proof.
  unfold Script.fetch_issues_iteration, Script.fetch_issues_try,
    Script.fetch_issues_except, wait_for_reset, sleep.
  first_event.
Qed.

Lemma package_issues_first_event only_open_without_pr r p acc w :
  exists tail,
    trace (world_of (Package.fetch_issues_iteration only_open_without_pr r (p, acc) w)) =
    trace w ++ Get (mkRequest IssuesURL (Some (Package.state_param only_open_without_pr))
                      (Some p) (Some per_page) (clock w)) :: tail.
Proof.
  unfold Package.fetch_issues_iteration, Package.fetch_issues_try,
    Package.fetch_issues_except, wait_for_reset, sleep.
  first_event.
Qed.

Lemma script_comments_first_event n r p acc w :
  exists tail,
    trace (world_of (Script.extract_comments_iteration n r (p, acc) w)) =
    trace w ++ Get (mkRequest (CommentsURL n) None (Some p) (Some per_page) (clock w)) :: tail.
Proof.
  unfold Script.extract_comments_iteration, Script.extract_comments_try,
    Script.extract_comments_except, wait_for_reset, sleep.
  first_event.
Qed.

Lemma package_comments_first_event n r p acc w :
  exists tail,
    trace (world_of (Package.extract_comments_iteration n r (p, acc) w)) =
    trace w ++ Get (mkRequest (CommentsURL n) None (Some p) (Some per_page) (clock w)) :: tail.
Proof.
  unfold Package.extract_comments_iteration, Package.extract_comments_try,
    Package.extract_comments_except, wait_for_reset, sleep.
  first_event.
Qed.

(** The rate-limited pass of a loop, once its [try] block is unfolded. *)
Ltac retry_step T body w Hle Hmax :=
  cbn [rate_limited status_code];
  change (403 =? 403) with true; cbv iota;
  change (rate_limit_exhausted (mkResponse 403 (Some "0") (IntValue T) body)) with true;
  cbv iota;
  match goal with
  | |- context [wait_for_reset ?resp ?w1] =>
      rewrite (wait_for_reset_in_time resp T w1 eq_refl Hle Hmax)
  end;
  eexists; split; [reflexivity|];
  cbn [trace clock requests_get]; split; [|split].

Lemma script_issues_retry :
  blocking_retry Script.fetch_issues_iteration IssuesURL (Some "all").
Proof.
  intros T body p acc w Hle Hmax.
  unfold Script.fetch_issues_iteration, Script.fetch_issues_try.
  retry_step T body w Hle Hmax.
  - rewrite <- app_assoc. cbn [app]. do 4 f_equal. lia.
  - pose proof (int_time_le_clock w). unfold int_time in *. cbn [clock requests_get].
    unfold second in *. lia.
  - intros next. apply script_issues_first_event.
Qed.

Lemma package_issues_retry (only_open_without_pr : bool) :
  blocking_retry (Package.fetch_issues_iteration only_open_without_pr) IssuesURL
                 (Some (Package.state_param only_open_without_pr)).
Proof.
  intros T body p acc w Hle Hmax.
  unfold Package.fetch_issues_iteration, Package.fetch_issues_try.
  retry_step T body w Hle Hmax.
  - rewrite <- app_assoc. cbn [app]. do 4 f_equal. lia.
  - pose proof (int_time_le_clock w). unfold int_time in *. cbn [clock requests_get].
    unfold second in *. lia.
  - intros next. apply package_issues_first_event.
Qed.

Lemma script_comments_retry (n : Z) :
  blocking_retry (Script.extract_comments_iteration n) (CommentsURL n) None.
Proof.
  intros T body p acc w Hle Hmax.
  unfold Script.extract_comments_iteration, Script.extract_comments_try.
  retry_step T body w Hle Hmax.
  - rewrite <- app_assoc. cbn [app]. do 4 f_equal. lia.
  - pose proof (int_time_le_clock w). unfold int_time in *. cbn [clock requests_get].
    unfold second in *. lia.
  - intros next. apply script_comments_first_event.
Qed.

Lemma package_comments_retry (n : Z) :
  blocking_retry (Package.extract_comments_iteration n) (CommentsURL n) None.
Proof.
  intros T body p acc w Hle Hmax.
  unfold Package.extract_comments_iteration, Package.extract_comments_try.
  retry_step T body w Hle Hmax.
  - rewrite <- app_assoc. cbn [app]. do 4 f_equal. lia.
  - pose proof (int_time_le_clock w). unfold int_time in *. cbn [clock requests_get].
    unfold second in *. lia.
  - intros next. apply package_comments_first_event.
Qed.

(** The wait-and-retry of all four loops, when the reply arrives no later
    than second [T+1] of the local clock. *)
Lemma rate_limit_retry_in_time :
  blocking_retry Script.fetch_issues_iteration IssuesURL (Some "all") /\
  (forall b, blocking_retry (Package.fetch_issues_iteration b) IssuesURL
                            (Some (Package.state_param b))) /\
  (forall n, blocking_retry (Script.extract_comments_iteration n) (CommentsURL n) None) /\
  (forall n, blocking_retry (Package.extract_comments_iteration n) (CommentsURL n) None).
Proof.
  repeat split.
  - apply script_issues_retry.
  - intros b. apply package_issues_retry.
  - intros n. apply script_comments_retry.
  - intros n. apply package_comments_retry.
Qed.

(** The rate-limited pass of a loop when the reset time has passed. *)
Ltac late_step T body w Hlate :=
  cbn [rate_limited status_code];
  change (403 =? 403) with true; cbv iota;
  change (rate_limit_exhausted (mkResponse 403 (Some "0") (IntValue T) body)) with true;
  cbv iota;
  match goal with
  | |- context [wait_for_reset ?resp ?w1] =>
      rewrite (wait_for_reset_too_late resp T w1 eq_refl Hlate)
  end;
  unfold too_late_error, int_time; cbn [clock requests_get];
  destruct (T - clock w / second + 1 <? - longest_sleep); reflexivity.

(** C2, the failing inputs: a 403 that reports remaining quota 0 and a reset
    time [T] with [T + 1 < int(time.time())]. [sleep_time] is negative,
    [time.sleep] raises [ValueError] ([OverflowError] when the length is
    below minus [longest_sleep] seconds), and no [except] clause of any of
    the four loops catches it: the pass ends with the exception on its way to
    the top level, and a fetch whose first reply is such a 403 ends the run
    with the one request for page 1 in its trace. The page is not asked for
    again, whatever the remote would have served. *)
Theorem rate_limit_reset_in_the_past_raises :
  forall (T : Z) (w : World),
    T + 1 < int_time w ->
    (forall body p acc,
        Script.fetch_issues_iteration (rate_limited T body) (p, acc) w =
        Propagate (too_late_error T w)
          (requests_get IssuesURL (Some "all") (Some p) (Some per_page) w)) /\
    (forall b body p acc,
        Package.fetch_issues_iteration b (rate_limited T body) (p, acc) w =
        Propagate (too_late_error T w)
          (requests_get IssuesURL (Some (Package.state_param b)) (Some p) (Some per_page) w)) /\
    (forall n body p acc,
        Script.extract_comments_iteration n (rate_limited T body) (p, acc) w =
        Propagate (too_late_error T w)
          (requests_get (CommentsURL n) None (Some p) (Some per_page) w)) /\
    (forall n body p acc,
        Package.extract_comments_iteration n (rate_limited T body) (p, acc) w =
        Propagate (too_late_error T w)
          (requests_get (CommentsURL n) None (Some p) (Some per_page) w)) /\
    (forall body rest,
        Script.fetch_issues (rate_limited T body :: rest) w =
        (Uncaught (too_late_error T w),
         requests_get IssuesURL (Some "all") (Some 1) (Some per_page) w)) /\
    (forall b body rest,
        Package.fetch_issues b (rate_limited T body :: rest) w =
        (Uncaught (too_late_error T w),
         requests_get IssuesURL (Some (Package.state_param b)) (Some 1) (Some per_page) w)) /\
    (forall n body rest,
        Script.extract_comments n (rate_limited T body :: rest) w =
        (Uncaught (too_late_error T w),
         requests_get (CommentsURL n) None (Some 1) (Some per_page) w)) /\
    (forall n body rest,
        Package.extract_comments n (rate_limited T body :: rest) w =
        (Uncaught (too_late_error T w),
         requests_get (CommentsURL n) None (Some 1) (Some per_page) w)).
Proof.
  intros T w Hlate.
  assert (forall body p acc,
             Script.fetch_issues_iteration (rate_limited T body) (p, acc) w =
             Propagate (too_late_error T w)
               (requests_get IssuesURL (Some "all") (Some p) (Some per_page) w)) as H1.
  { intros body p acc.
    unfold Script.fetch_issues_iteration, Script.fetch_issues_try.
    late_step T body w Hlate. }
  assert (forall b body p acc,
             Package.fetch_issues_iteration b (rate_limited T body) (p, acc) w =
             Propagate (too_late_error T w)
               (requests_get IssuesURL (Some (Package.state_param b)) (Some p)
                  (Some per_page) w)) as H2.
  { intros b body p acc.
    unfold Package.fetch_issues_iteration, Package.fetch_issues_try.
    late_step T body w Hlate. }
  assert (forall n body p acc,
             Script.extract_comments_iteration n (rate_limited T body) (p, acc) w =
             Propagate (too_late_error T w)
               (requests_get (CommentsURL n) None (Some p) (Some per_page) w)) as H3.
  { intros n body p acc.
    unfold Script.extract_comments_iteration, Script.extract_comments_try.
    late_step T body w Hlate. }
  assert (forall n body p acc,
             Package.extract_comments_iteration n (rate_limited T body) (p, acc) w =
             Propagate (too_late_error T w)
               (requests_get (CommentsURL n) None (Some p) (Some per_page) w)) as H4.
  { intros n body p acc.
    unfold Package.extract_comments_iteration, Package.extract_comments_try.
    late_step T body w Hlate. }
  repeat split; trivial.
  - intros body rest. unfold Script.fetch_issues. cbn [while_true].
    now rewrite H1.
  - intros b body rest. unfold Package.fetch_issues. cbn [while_true].
    now rewrite H2.
  - intros n body rest. unfold Script.extract_comments. cbn [while_true].
    now rewrite H3.
  - intros n body rest. unfold Package.extract_comments. cbn [while_true].
    now rewrite H4.
Qed.

(** Reset time 100 reported while the local clock reads second 200:
    [sleep_time = 100 - 200 + 1 = -99]. A page is ready to be served, and
    is never asked for. *)
Lemma rate_limit_reset_in_the_past_raises_witness :
  100 + 1 < int_time (at_second 200) /\
  Script.fetch_issues [rate_limited 100 None; page_of [an_issue]] (at_second 200)
  = (Uncaught ValueError,
     requests_get IssuesURL (Some "all") (Some 1) (Some per_page) (at_second 200)) /\
  Package.extract_comments 8 [rate_limited 100 None; page_of [a_comment]] (at_second 200)
  = (Uncaught ValueError,
     requests_get (CommentsURL 8) None (Some 1) (Some per_page) (at_second 200)).
Proof.
  assert (100 + 1 < int_time (at_second 200)) as Hlate by reflexivity.
  split; [exact Hlate|].
  pose proof (rate_limit_reset_in_the_past_raises 100 (at_second 200) Hlate)
    as (_ & _ & _ & _ & Hs & _ & _ & Hp).
  split; [apply Hs | apply Hp].
Defined.

(** The same reply at second 50 is waited out: the clock reads second 101
    when page 1 is asked for again. *)
Example rate_limit_reset_ahead_is_waited_out :
  Script.fetch_issues [rate_limited 100 None; page_of [an_issue]] (at_second 50)
  = (Return [an_issue],
     mkWorld (101 * second)
       [Get (mkRequest IssuesURL (Some "all") (Some 1) (Some 100) (50 * second));
        Sleep (51 * second);
        Get (mkRequest IssuesURL (Some "all") (Some 1) (Some 100) (101 * second))]).
Proof. reflexivity. Qed.

(** ** Errors of the issue listing *)

Lemma script_issues_unrecoverable (bad : Reply (list Issue)) p acc w :
  unrecoverable bad = true ->
  exists w',
    Script.fetch_issues_iteration bad (p, acc) w =
    if has_status 422 bad then Break (p, acc) w' else Exit 1 w'.
Proof.
  unfold unrecoverable, has_status, Script.fetch_issues_iteration,
    Script.fetch_issues_try, Script.fetch_issues_except.
  destruct bad as [|resp]; [intros _; eexists; reflexivity|].
  destruct (status_code resp =? 403) eqn:H403.
  - apply Z.eqb_eq in H403. rewrite H403. change (403 =? 422) with false.
    intros Hrl. apply negb_true_iff in Hrl. rewrite Hrl.
    eexists; reflexivity.
  - destruct (raises_for_status resp) eqn:Hraise.
    + intros _. destruct (status_code resp =? 422); eexists; reflexivity.
    + destruct (json resp); [discriminate|]. intros _.
      assert ((status_code resp =? 422) = false) as ->; [|eexists; reflexivity].
      apply Z.eqb_neq. intros H422. unfold raises_for_status in Hraise.
      rewrite H422 in Hraise. discriminate.
Qed.

Lemma package_issues_unrecoverable b (bad : Reply (list Issue)) p acc w :
  unrecoverable bad = true ->
  exists w', Package.fetch_issues_iteration b bad (p, acc) w = Break (p, acc) w'.
Proof.
  unfold unrecoverable, Package.fetch_issues_iteration,
    Package.fetch_issues_try, Package.fetch_issues_except.
  destruct bad as [|resp]; [intros _; eexists; reflexivity|].
  destruct (status_code resp =? 403).
  - intros Hrl. apply negb_true_iff in Hrl. rewrite Hrl. eexists; reflexivity.
  - destruct (raises_for_status resp); [intros _; eexists; reflexivity|].
    destruct (json resp); [discriminate|]. intros _. eexists; reflexivity.
Qed.

(** C3, as stated, fails. In the package a 403 without the rate-limit
    signal on page 2 does not end the process: [fetch_issues] returns the
    100 issues of page 1. In the script a 422 on page 2 does the same. *)
Lemma issue_fetch_error_is_fatal_counterexample :
  fst (Package.fetch_issues false
         [page_of (repeat an_issue 100); Responds (mkResponse 403 None NoHeader None)]
         start)
  = Return (repeat an_issue 100) /\
  fst (Script.fetch_issues
         [page_of (repeat an_issue 100); Responds (mkResponse 422 None NoHeader None)]
         start)
  = Return (repeat an_issue 100).
Proof. split; vm_compute; reflexivity. Qed.

(** C3, amended: after any number of full pages, an unrecoverable reply to
    the issue listing (network failure, 403 without the rate-limit signal,
    another 4xx or 5xx status, a body that is not JSON) makes
    [fetch_issues] of the script end the process with [sys.exit(1)], except
    that status 422 ends the pagination and returns the issues gathered so
    far; [fetch_issues] of the package never ends the process on such a
    reply and returns the issues gathered so far. *)
Theorem issue_fetch_unrecoverable_reply :
  forall (fulls : list (list Issue)) (bad : Reply (list Issue))
         (rest : list (Reply (list Issue))) (w : World),
    Forall (fun l => len l = per_page) fulls ->
    unrecoverable bad = true ->
    let replies := map page_of fulls ++ bad :: rest in
    let so_far := filter not_pull_request (List.concat fulls) in
    (exists w',
        Script.fetch_issues replies w =
        if has_status 422 bad then (Return so_far, w') else (SysExit 1, w')) /\
    (forall only_open_without_pr, exists w',
        Package.fetch_issues only_open_without_pr replies w = (Return so_far, w')).
Proof.
  intros fulls bad rest w Hfull Hbad replies so_far. split.
  - destruct (walk_full_pages Script.fetch_issues_iteration IssuesURL id
                script_issues_full_page fulls (bad :: rest) 1 [] w Hfull)
      as (w1 & Hrun & _).
    destruct (script_issues_unrecoverable bad (1 + len fulls)
                ([] ++ List.concat (map id fulls)) w1 Hbad) as (w2 & Hstep).
    exists w2. unfold Script.fetch_issues. fold replies in Hrun. rewrite Hrun.
    cbn [while_true]. rewrite Hstep.
    destruct (has_status 422 bad); [|reflexivity].
    cbn [bind snd app]. now rewrite map_id_eq.
  - intros b.
    destruct (walk_full_pages (Package.fetch_issues_iteration b) IssuesURL
                (filter not_pull_request) (package_issues_full_page b)
                fulls (bad :: rest) 1 [] w Hfull) as (w1 & Hrun & _).
    destruct (package_issues_unrecoverable b bad (1 + len fulls)
                ([] ++ List.concat (map (filter not_pull_request) fulls)) w1 Hbad)
      as (w2 & Hstep).
    exists w2. unfold Package.fetch_issues. fold replies in Hrun. rewrite Hrun.
    cbn [while_true]. rewrite Hstep.
    cbn [bind snd app]. now rewrite filter_concat.
Qed.

Lemma issue_fetch_unrecoverable_reply_witness :
  (exists w',
      Script.fetch_issues
        (map page_of [repeat an_issue 100]
           ++ Responds (mkResponse 500 None NoHeader None) :: [])
        start
      = if has_status 422 (Responds (mkResponse 500 None NoHeader (@None (list Issue))))
        then (Return (filter not_pull_request (List.concat [repeat an_issue 100])), w')
        else (SysExit 1, w')) /\
  (forall only_open_without_pr, exists w',
      Package.fetch_issues only_open_without_pr
        (map page_of [repeat an_issue 100]
           ++ Responds (mkResponse 500 None NoHeader None) :: [])
        start
      = (Return (filter not_pull_request (List.concat [repeat an_issue 100])), w')).
Proof.
  apply (issue_fetch_unrecoverable_reply
           [repeat an_issue 100] (Responds (mkResponse 500 None NoHeader None)) [] start).
  - repeat constructor.
  - reflexivity.
Defined.

(** ** The state filter and the pull-request marker *)

Section LoopInvariants.

Context {S A : Type}.
Variable iteration : Reply A -> S -> World -> Control S.

Lemma while_true_state_invariant (P : S -> Prop) :
  (forall r s w, P s ->
     match iteration r s w with
     | Next s' _ | Break s' _ => P s'
     | _ => True
     end) ->
  forall replies s w s' w',
    P s -> while_true iteration replies s w = (Return s', w') -> P s'.
Proof.
  intros Hstep replies. induction replies as [|r rest IH]; intros s w s' w' Hs Hrun.
  - discriminate Hrun.
  - cbn [while_true] in Hrun. specialize (Hstep r s w Hs).
    destruct (iteration r s w) as [s1 w1|s1 w1|c w1|e w1]; try discriminate Hrun.
    + exact (IH s1 w1 s' w' Hstep Hrun).
    + now inversion Hrun; subst.
Qed.

Lemma while_true_world_invariant (Q : World -> Prop) :
  (forall r s w, Q w -> Q (world_of (iteration r s w))) ->
  forall replies s w, Q w -> Q (snd (while_true iteration replies s w)).
Proof.
  intros Hstep replies. induction replies as [|r rest IH]; intros s w Hw.
  - exact Hw.
  - cbn [while_true]. specialize (Hstep r s w Hw).
    destruct (iteration r s w) as [s1 w1|s1 w1|c w1|e w1]; cbn [world_of snd] in *;
      auto.
Qed.

End LoopInvariants.

Lemma snd_bind {A B : Type} (m : Outcome A * World) (f : A -> B) :
  snd (bind m (fun a w => (Return (f a), w))) = snd m.
Proof. destruct m as [[a|c|e|] w]; reflexivity. Qed.

Lemma filter_not_pull_request (issues : list Issue) :
  no_pull_requests (filter not_pull_request issues).
Proof.
  apply Forall_forall. intros i Hi. apply filter_In in Hi as [_ Hi].
  unfold not_pull_request in Hi. now apply negb_true_iff in Hi.
Qed.

Lemma no_pull_requests_app (l1 l2 : list Issue) :
  no_pull_requests l1 -> no_pull_requests l2 -> no_pull_requests (l1 ++ l2).
Proof. intros H1 H2. apply Forall_app. now split. Qed.

(** X21: whatever the remote replies, no record that carries the
    pull-request marker is in the list that [fetch_issues] returns, in the
    script and in both modes of the package. *)
Lemma fetch_issues_drops_pull_requests :
  (forall replies w issues w',
      Script.fetch_issues replies w = (Return issues, w') -> no_pull_requests issues) /\
  (forall b replies w issues w',
      Package.fetch_issues b replies w = (Return issues, w') -> no_pull_requests issues).
Proof.
  split.
  - intros replies w issues w' H. unfold Script.fetch_issues in H.
    destruct (while_true Script.fetch_issues_iteration replies (1, []) w)
      as [[[p acc]|c|e|] w1]; cbn [bind snd] in H; try discriminate H.
    inversion H; subst. apply filter_not_pull_request.
  - intros b replies w issues w' H. unfold Package.fetch_issues in H.
    destruct (while_true (Package.fetch_issues_iteration b) replies (1, []) w)
      as [[[p acc]|c|e|] w1] eqn:Hrun; cbn [bind snd] in H; try discriminate H.
    inversion H; subst.
    apply (while_true_state_invariant (Package.fetch_issues_iteration b)
             (fun s => no_pull_requests (snd s))) in Hrun; [exact Hrun| |constructor].
    intros r [p0 acc0] w0 Hacc. cbn [snd] in Hacc.
    unfold Package.fetch_issues_iteration, Package.fetch_issues_try,
      Package.fetch_issues_except, wait_for_reset, sleep.
    repeat (cbv beta iota; innermost_case); cbn [snd]; trivial;
      apply no_pull_requests_app; trivial; apply filter_not_pull_request.
Qed.

(** Every request of the package's [fetch_issues] carries
    [state = 'open'] when [only_open_without_pr] is set and [state = 'all']
    otherwise; every request of the script's carries [state = 'all']. *)
Lemma fetch_issues_state_parameter :
  (forall replies w,
      asks_state "all" w -> asks_state "all" (snd (Script.fetch_issues replies w))) /\
  (forall b replies w,
      asks_state (Package.state_param b) w ->
      asks_state (Package.state_param b) (snd (Package.fetch_issues b replies w))).
Proof.
  split.
  - intros replies w Hw. unfold Script.fetch_issues. rewrite snd_bind.
    apply while_true_world_invariant; [|exact Hw].
    intros r [p acc] w0 Hw0. unfold asks_state in *.
    unfold Script.fetch_issues_iteration, Script.fetch_issues_try,
      Script.fetch_issues_except, wait_for_reset, sleep.
    repeat (cbv beta iota; innermost_case);
      cbn [world_of trace requests_get]; rewrite ?requests_app;
      cbn [requests]; rewrite ?app_nil_r;
      (apply Forall_app; split; [assumption | repeat constructor]).
  - intros b replies w Hw. unfold Package.fetch_issues.
    rewrite (snd_bind _ snd).
    apply while_true_world_invariant; [|exact Hw].
    intros r [p acc] w0 Hw0. unfold asks_state in *.
    unfold Package.fetch_issues_iteration, Package.fetch_issues_try,
      Package.fetch_issues_except, wait_for_reset, sleep.
    repeat (cbv beta iota; innermost_case);
      cbn [world_of trace requests_get]; rewrite ?requests_app;
      cbn [requests]; rewrite ?app_nil_r;
      (apply Forall_app; split; [assumption | repeat constructor]).
Qed.

(** The loop of [main] over the issues reads no flag but [--no-comments]. *)
Lemma process_issues_flags (args args' : Package.Args) (remote : Remote)
    (issues : list Issue) :
  Package.no_comments args = Package.no_comments args' ->
  forall processed w,
    Package.process_issues args remote issues processed w =
    Package.process_issues args' remote issues processed w.
Proof.
  intros Hsame. induction issues as [|issue rest IH]; intros processed w;
    [reflexivity|].
  cbn [Package.process_issues]. rewrite Hsame.
  destruct (if negb (Package.no_comments args')
            then Package.extract_comments (number issue)
                   (comments_api remote (number issue)) w
            else (Return [], w)) as [[comments|c|e|] w1]; cbn [bind];
    [apply IH | reflexivity | reflexivity | reflexivity].
Qed.

(** C4, the failing inputs: [--open-only] given without [--no-pr]. [main]
    computes [only_open_without_pr = args.open_only and args.no_pr = False],
    so the run is the run without the flag: every request to the issue
    listing carries [state = 'all']. On the sample repository the closed
    issue 8 is fetched and processed. The pull request 7 is dropped all the
    same. *)
Theorem open_only_alone_asks_for_all_states :
  forall (U : Unicode),
  (forall no_comments remote w,
      Package.main (Package.mkArgs no_comments true false) remote w =
      Package.main (Package.mkArgs no_comments false false) remote w) /\
  (forall no_comments remote w,
      exists rest,
        Package.main (Package.mkArgs no_comments true false) remote w =
        bind (Package.fetch_issues false (issues_api remote) w) rest /\
        asks_state "all" (snd (Package.fetch_issues false (issues_api remote) start))) /\
  outcome_summary
    (Package.main (Package.mkArgs true true false) small_repository start)
  = (Some [8], [Some "all"]).
Proof.
  intros U.
  split; [|split].
  - intros no_comments remote w. unfold Package.main.
    cbn [Package.open_only Package.no_pr andb negb].
    destruct (Package.fetch_issues false (issues_api remote) w)
      as [[issues|c|e|] w1]; cbn [bind]; try reflexivity.
    destruct issues as [|i issues]; [reflexivity|]. cbn [bind].
    now rewrite (process_issues_flags _ (Package.mkArgs no_comments false false)).
  - intros no_comments remote w. eexists. split; [reflexivity|].
    apply (proj2 fetch_issues_state_parameter false). constructor.
  - reflexivity.
Qed.

(** Only together with [--no-pr] does [--open-only] turn the state
    parameter into ['open']. *)
Example open_only_with_no_pr_asks_for_open :
  forall (U : Unicode),
  outcome_summary
    (Package.main (Package.mkArgs true true true) small_repository start)
  = (Some [8], [Some "open"]).
Proof. intros U. reflexivity. Qed.

(** ** Errors of a comment listing *)

Lemma script_comments_unrecoverable n (bad : Reply (list Comment)) p acc w :
  unrecoverable bad = true ->
  exists w', Script.extract_comments_iteration n bad (p, acc) w = Break (p, acc) w'.
Proof.
  unfold unrecoverable, Script.extract_comments_iteration,
    Script.extract_comments_try, Script.extract_comments_except.
  destruct bad as [|resp]; [intros _; eexists; reflexivity|].
  destruct (status_code resp =? 403).
  - intros Hrl. apply negb_true_iff in Hrl. rewrite Hrl. eexists; reflexivity.
  - destruct (raises_for_status resp); [intros _; eexists; reflexivity|].
    destruct (json resp); [discriminate|]. intros _. eexists; reflexivity.
Qed.

Lemma package_comments_unrecoverable n (bad : Reply (list Comment)) p acc w :
  unrecoverable bad = true ->
  exists w', Package.extract_comments_iteration n bad (p, acc) w = Break (p, acc) w'.
Proof.
  unfold unrecoverable, Package.extract_comments_iteration,
    Package.extract_comments_try, Package.extract_comments_except.
  destruct bad as [|resp]; [intros _; eexists; reflexivity|].
  destruct (status_code resp =? 403).
  - intros Hrl. apply negb_true_iff in Hrl. rewrite Hrl. eexists; reflexivity.
  - destruct (raises_for_status resp); [intros _; eexists; reflexivity|].
    destruct (json resp); [discriminate|]. intros _. eexists; reflexivity.
Qed.

Lemma script_comments_stop (n : Z) (fulls : list (list Comment)) bad rest w :
  Forall (fun l => len l = per_page) fulls ->
  unrecoverable bad = true ->
  exists w',
    Script.extract_comments n (map page_of fulls ++ bad :: rest) w =
    (Return (List.concat fulls), w').
Proof.
  intros Hfull Hbad.
  destruct (walk_full_pages (Script.extract_comments_iteration n) (CommentsURL n) id
              (script_comments_full_page n) fulls (bad :: rest) 1 [] w Hfull)
    as (w1 & Hrun & _).
  destruct (script_comments_unrecoverable n bad (1 + len fulls)
              ([] ++ List.concat (map id fulls)) w1 Hbad) as (w2 & Hstep).
  exists w2. unfold Script.extract_comments. rewrite Hrun.
  cbn [while_true]. rewrite Hstep. cbn [bind snd app]. now rewrite map_id_eq.
Qed.

Lemma package_comments_stop (n : Z) (fulls : list (list Comment)) bad rest w :
  Forall (fun l => len l = per_page) fulls ->
  unrecoverable bad = true ->
  exists w',
    Package.extract_comments n (map page_of fulls ++ bad :: rest) w =
    (Return (List.concat fulls), w').
Proof.
  intros Hfull Hbad.
  destruct (walk_full_pages (Package.extract_comments_iteration n) (CommentsURL n) id
              (package_comments_full_page n) fulls (bad :: rest) 1 [] w Hfull)
    as (w1 & Hrun & _).
  destruct (package_comments_unrecoverable n bad (1 + len fulls)
              ([] ++ List.concat (map id fulls)) w1 Hbad) as (w2 & Hstep).
  exists w2. unfold Package.extract_comments. rewrite Hrun.
  cbn [while_true]. rewrite Hstep. cbn [bind snd app]. now rewrite map_id_eq.
Qed.

(** C5, as stated, fails: when page 1 of an issue's comments arrives in full
    and page 2 is answered with status 500, [extract_comments] of either
    file returns the 100 comments of page 1, not an empty sequence. *)
Lemma comment_fetch_error_returns_empty_counterexample :
  fst (Script.extract_comments 8 [page_of (repeat a_comment 100); server_error] start)
    <> Return [] /\
  fst (Package.extract_comments 8 [page_of (repeat a_comment 100); server_error] start)
    <> Return [].
Proof. split; vm_compute; discriminate. Qed.

(** C5, amended: if an unrecoverable reply (403 without the rate-limit
    signal, another 4xx or 5xx status, a network failure, a body that is not
    JSON) arrives while an issue's comments are fetched, after any number of
    full pages, [extract_comments] returns the comments of the pages fetched
    before it (the empty sequence when it is the first reply), and the loop
    of [main] records the issue with that many comments and goes on with the
    next issue. *)
Theorem comment_fetch_unrecoverable_reply :
  forall (remote : Remote) (issue : Issue) (others : list Issue)
         (fulls : list (list Comment)) (bad : Reply (list Comment))
         (rest : list (Reply (list Comment)))
         (processed : list Processed) (w : World),
    comments_api remote (number issue) = map page_of fulls ++ bad :: rest ->
    Forall (fun l => len l = per_page) fulls ->
    unrecoverable bad = true ->
    let entry := mkProcessed (number issue) (len (List.concat fulls)) in
    (exists w',
        Script.extract_comments (number issue) (comments_api remote (number issue)) w
        = (Return (List.concat fulls), w')) /\
    (exists w',
        Package.extract_comments (number issue) (comments_api remote (number issue)) w
        = (Return (List.concat fulls), w')) /\
    (exists w',
        Script.process_issues remote (issue :: others) processed w
        = Script.process_issues remote others (processed ++ [entry]) w') /\
    (forall args, Package.no_comments args = false -> exists w',
        Package.process_issues args remote (issue :: others) processed w
        = Package.process_issues args remote others (processed ++ [entry]) w').
Proof.
  intros remote issue others fulls bad rest processed w Hapi Hfull Hbad entry.
  destruct (script_comments_stop (number issue) fulls bad rest w Hfull Hbad)
    as (ws & Hs).
  destruct (package_comments_stop (number issue) fulls bad rest w Hfull Hbad)
    as (wp & Hp).
  rewrite <- Hapi in Hs, Hp.
  repeat split.
  - now exists ws.
  - now exists wp.
  - eexists. cbn [Script.process_issues]. rewrite Hs. cbn [bind].
    unfold time_sleep, sleep. change (sleep_raises 100000) with (@None Exn). cbv iota.
    cbn [bind]. reflexivity.
  - intros args Hargs. exists wp. cbn [Package.process_issues].
    rewrite Hargs. cbn [negb]. rewrite Hp. reflexivity.
Qed.

Lemma comment_fetch_unrecoverable_reply_witness :
  exists w',
    Script.process_issues commented_repository (an_issue :: [an_issue]) [] start
    = Script.process_issues commented_repository [an_issue]
        ([] ++ [mkProcessed (number an_issue) (len (List.concat [repeat a_comment 100]))]) w'.
Proof.
  refine (proj1 (proj2 (proj2
    (comment_fetch_unrecoverable_reply commented_repository an_issue [an_issue]
       [repeat a_comment 100] server_error [] [] start _ _ _)))).
  - reflexivity.
  - repeat constructor.
  - reflexivity.
Defined.

(** ** The pull-request linkage check *)

Lemma check_issue_has_pr_any_world (remote : Remote) (issue : Issue) (w : World) :
  fst (Package.check_issue_has_pr (number issue) (search_api remote (number issue)) w)
  = has_pr remote issue.
Proof.
  unfold has_pr, Package.check_issue_has_pr.
  destruct (search_api remote (number issue)) as [|resp]; [reflexivity|].
  destruct (status_code resp =? 200); [|reflexivity].
  destruct (json resp); reflexivity.
Qed.

Lemma search_fails_no_pr (remote : Remote) (issue : Issue) :
  search_fails (search_api remote (number issue)) = true ->
  has_pr remote issue = false.
Proof.
  unfold has_pr, search_fails, Package.check_issue_has_pr.
  destruct (search_api remote (number issue)) as [|resp]; [reflexivity|].
  destruct (status_code resp =? 200); [|reflexivity].
  destruct (json resp); [discriminate|reflexivity].
Qed.

(** The filter loop of [main] always runs to its end, and keeps, in order,
    the issues for which the check answered [False]. *)
Lemma filter_issues_returns (remote : Remote) (issues : list Issue) :
  forall filtered w, exists w',
    Package.filter_issues remote issues filtered w =
    (Return (filtered ++ filter (fun i => negb (has_pr remote i)) issues), w').
Proof.
  induction issues as [|issue rest IH]; intros filtered w.
  - exists w. cbn. now rewrite app_nil_r.
  - cbn [Package.filter_issues filter].
    pose proof (check_issue_has_pr_any_world remote issue w) as Hany.
    destruct (Package.check_issue_has_pr (number issue)
                (search_api remote (number issue)) w) as [b w1].
    cbn [fst] in Hany. subst b.
    unfold time_sleep, sleep. change (sleep_raises 100000) with (@None Exn). cbv iota. cbn [bind].
    destruct (has_pr remote issue); cbn [negb].
    + apply IH.
    + destruct (IH (filtered ++ [issue])
                  {| clock := clock w1 + 100000; trace := trace w1 ++ [Sleep 100000] |})
        as (w' & Hrun).
      exists w'. rewrite Hrun. now rewrite <- app_assoc.
Qed.

(** C6: when the search call for an issue fails (an exception, a status
    other than 200), [check_issue_has_pr] answers [False], the filter loop
    of [main] goes on with the next issue with this one appended to the kept
    issues, and the loop returns a list that holds the issue. *)
Theorem failed_linkage_check_keeps_issue :
  forall (remote : Remote) (issue : Issue),
    search_fails (search_api remote (number issue)) = true ->
    (forall w,
        fst (Package.check_issue_has_pr (number issue)
               (search_api remote (number issue)) w) = false) /\
    (forall after filtered w, exists w',
        Package.filter_issues remote (issue :: after) filtered w =
        Package.filter_issues remote after (filtered ++ [issue]) w') /\
    (forall issues w,
        In issue issues ->
        exists kept w',
          Package.filter_issues remote issues [] w = (Return kept, w') /\
          In issue kept).
Proof.
  intros remote issue Hfail.
  pose proof (search_fails_no_pr remote issue Hfail) as Hno.
  repeat split.
  - intros w. now rewrite check_issue_has_pr_any_world.
  - intros after filtered w. cbn [Package.filter_issues].
    pose proof (check_issue_has_pr_any_world remote issue w) as Hany.
    destruct (Package.check_issue_has_pr (number issue)
                (search_api remote (number issue)) w) as [b w1].
    cbn [fst] in Hany. subst b. rewrite Hno. cbn [negb].
    unfold time_sleep, sleep. change (sleep_raises 100000) with (@None Exn). cbv iota. cbn [bind].
    eexists; reflexivity.
  - intros issues w Hin.
    destruct (filter_issues_returns remote issues [] w) as (w' & Hrun).
    eexists; exists w'. split; [exact Hrun|].
    cbn [app]. apply filter_In. split; [exact Hin|]. now rewrite Hno.
Qed.

Lemma failed_linkage_check_keeps_issue_witness :
  exists kept w',
    Package.filter_issues small_repository [an_issue] [] start = (Return kept, w') /\
    In an_issue kept.
Proof.
  refine (proj2 (proj2
    (failed_linkage_check_keeps_issue small_repository an_issue _)) [an_issue] start _).
  - reflexivity.
  - left; reflexivity.
Defined.

(** ** The analyzer passes as maps and filters *)

Lemma fold_left_same {A B : Type} (f g : B -> A -> B) :
  (forall acc x, f acc x = g acc x) ->
  forall l init, fold_left f l init = fold_left g l init.
Proof.
  intros H l. induction l as [|x l IH]; intros init; simpl; [reflexivity|].
  now rewrite H, IH.
Qed.

(** A loop that appends zero or more entries for each element. *)
Lemma fold_left_append {A B : Type} (f : A -> list B) (l : list A) :
  forall init, fold_left (fun acc x => acc ++ f x) l init = init ++ flat_map f l.
Proof.
  induction l as [|x l IH]; intros init; simpl.
  - now rewrite app_nil_r.
  - now rewrite IH, app_assoc.
Qed.

Lemma flat_map_filter {A B : Type} (p : A -> bool) (g : A -> B) (l : list A) :
  flat_map (fun x => if p x then [g x] else []) l = map g (filter p l).
Proof.
  induction l as [|x l IH]; simpl; [reflexivity|].
  destruct (p x); simpl; now rewrite IH.
Qed.

(** A loop that appends an entry under a condition. *)
Lemma fold_left_select {A B : Type} (p : A -> bool) (g : A -> B) (l : list A) :
  fold_left (fun acc x => if p x then acc ++ [g x] else acc) l [] = map g (filter p l).
Proof.
  rewrite <- flat_map_filter, <- (app_nil_l (flat_map _ l)), <- fold_left_append.
  apply fold_left_same. intros acc x. destruct (p x); [reflexivity|].
  now rewrite app_nil_r.
Qed.

(** ** Text *)

Lemma text_eqb_eq (s t : text) : text_eqb s t = true <-> s = t.
Proof.
  revert t. induction s as [|c s IH]; intros [|d t]; cbn [text_eqb];
    try (split; [discriminate | intros H; discriminate H]); [tauto|].
  rewrite andb_true_iff, Z.eqb_eq, IH. split.
  - now intros [-> ->].
  - intros H. inversion H. tauto.
Qed.

Lemma text_eqb_refl (s : text) : text_eqb s s = true.
Proof. now apply text_eqb_eq. Qed.

Lemma text_eqb_neq (s t : text) : text_eqb s t = false <-> s <> t.
Proof.
  rewrite <- text_eqb_eq. destruct (text_eqb s t); split; congruence.
Qed.

Lemma text_eqb_sym (s t : text) : text_eqb s t = text_eqb t s.
Proof.
  apply eq_true_iff_eq. rewrite !text_eqb_eq. split; congruence.
Qed.

Lemma text_dec (s t : text) : {s = t} + {s <> t}.
Proof. apply list_eq_dec, Z.eq_dec. Qed.

(** ** Staleness *)

Lemma detect_unaddressed_errors_stale (utcnow : Z) (issues : list Issue) :
  detect_unaddressed_errors utcnow issues =
  map (fun i => (number i, match age_in_days utcnow i with Some d => d | None => 0 end))
      (filter (stale utcnow) issues).
Proof.
  unfold detect_unaddressed_errors. rewrite <- fold_left_select.
  apply fold_left_same. intros acc i. unfold stale, age_in_days.
  destruct (is_open i); [|reflexivity].
  destruct (created_at i) as [c|]; [|reflexivity].
  cbn [option_map andb]. destruct (timedelta_days utcnow c >? 365); reflexivity.
Qed.

Lemma more_than_365_days (utcnow created : Z) :
  (timedelta_days utcnow created >? 365) = true <-> created + 366 * day <= utcnow.
Proof.
  unfold timedelta_days. rewrite Z.gtb_gt.
  assert (0 < day) as Hday by (unfold day, second; lia).
  split; intros H.
  - destruct (Z_le_gt_dec (created + 366 * day) utcnow) as [Hle|Hgt]; [exact Hle|].
    assert ((utcnow - created) / day < 366); [|lia].
    apply Z.div_lt_upper_bound; lia.
  - assert (366 <= (utcnow - created) / day); [|lia].
    apply Z.div_le_lower_bound; lia.
Qed.

Lemma is_open_state (issue : Issue) :
  is_open issue = true <-> state issue = Some (str "open").
Proof.
  unfold is_open. destruct (state issue) as [s|]; [|split; discriminate].
  rewrite text_eqb_eq. split; [intros ->; reflexivity | now intros [= ->]].
Qed.

(** C7: staleness detection flags, in order, exactly the issues whose state
    is "open" and whose age in whole days exceeds 365, each with that age.
    For an open issue this is the case from the instant 366 days after its
    creation on: flagged when created exactly 366 days ago, not flagged when
    created exactly 365 days ago. An issue that is not open is never
    flagged, whatever its age. *)
Theorem staleness_detection :
  forall (utcnow : Z) (issues : list Issue),
    (forall n days,
        In (n, days) (detect_unaddressed_errors utcnow issues) <->
        exists issue created,
          In issue issues /\ number issue = n /\ state issue = Some (str "open") /\
          created_at issue = Some created /\
          days = timedelta_days utcnow created /\ days > 365) /\
    map fst (detect_unaddressed_errors utcnow issues)
      = map number (filter (stale utcnow) issues) /\
    (forall issue created,
        state issue = Some (str "open") -> created_at issue = Some created ->
        (stale utcnow issue = true <-> created + 366 * day <= utcnow)) /\
    (forall issue created,
        state issue = Some (str "open") -> created_at issue = Some created ->
        stale (created + 366 * day) issue = true /\
        stale (created + 365 * day) issue = false) /\
    (forall issue, state issue <> Some (str "open") -> stale utcnow issue = false).
Proof.
  intros utcnow issues.
  assert (forall now issue created,
             state issue = Some (str "open") -> created_at issue = Some created ->
             (stale now issue = true <-> created + 366 * day <= now)) as Hiff.
  { intros now issue created Hopen Hcreated. unfold stale, age_in_days.
    apply is_open_state in Hopen. rewrite Hopen, Hcreated. cbn [option_map andb].
    apply more_than_365_days. }
  split; [|split; [|split; [|split]]].
  - intros n days. rewrite detect_unaddressed_errors_stale, in_map_iff. split.
    + intros (i & Heq & Hin). apply filter_In in Hin as [Hin Hstale].
      unfold stale, age_in_days in Hstale, Heq.
      apply andb_prop in Hstale as [Hopen Hage].
      destruct (created_at i) as [c|] eqn:Hc; [|discriminate].
      cbn [option_map] in Hage, Heq. inversion Heq; subst.
      exists i, c.
      split; [exact Hin|]. split; [reflexivity|].
      split; [now apply is_open_state|]. split; [exact Hc|].
      split; [reflexivity|]. now apply Z.gtb_gt.
    + intros (i & c & Hin & Hn & Hopen & Hc & Hdays & Hgt).
      exists i. unfold stale, age_in_days. rewrite Hc. cbn [option_map]. split.
      * now rewrite Hn, Hdays.
      * apply filter_In. split; [exact Hin|].
        apply is_open_state in Hopen. rewrite Hopen, Hc. cbn [andb option_map].
        apply Z.gtb_gt. now rewrite <- Hdays.
  - rewrite detect_unaddressed_errors_stale, map_map. reflexivity.
  - intros issue created. apply Hiff.
  - intros issue created Hopen Hcreated. split.
    + apply (Hiff _ issue created Hopen Hcreated). lia.
    + destruct (stale (created + 365 * day) issue) eqn:Hs; [|reflexivity].
      apply (Hiff _ issue created Hopen Hcreated) in Hs.
      unfold day, second in Hs. lia.
  - intros issue Hclosed. unfold stale.
    destruct (is_open issue) eqn:Hopen; [|reflexivity].
    apply is_open_state in Hopen. contradiction.
Qed.

Lemma staleness_detection_witness :
  stale (0 + 366 * day) (year_old "open" 1) = true /\
  stale (0 + 365 * day) (year_old "open" 1) = false.
Proof.
  refine (proj1 (proj2 (proj2 (proj2 (staleness_detection 0 []))))
            (year_old "open" 1) 0 _ _); reflexivity.
Defined.

Example staleness_boundaries :
  detect_unaddressed_errors (366 * day)
    [year_old "open" 1; year_old "closed" 2] = [(1, 366)] /\
  detect_unaddressed_errors (366 * day - 1)
    [year_old "open" 1; year_old "closed" 2] = [] /\
  detect_unaddressed_errors (365 * day)
    [year_old "open" 1; year_old "closed" 2] = [].
Proof. repeat split. Qed.

(** ** Categorization *)

Lemma prefix_spec (a s : text) :
  prefix a s = true <-> exists after, s = a ++ after.
Proof.
  revert s. induction a as [|c a IH]; intros s.
  - split; [intros _; now exists s | reflexivity].
  - destruct s as [|d s]; cbn [prefix].
    + split; [discriminate | intros (after & H); discriminate H].
    + rewrite andb_true_iff, Z.eqb_eq, IH. split.
      * intros [-> (after & ->)]. now exists after.
      * intros (after & H). inversion H. split; [reflexivity | now exists after].
Qed.

Lemma contains_spec (kw s : text) :
  contains kw s = true <-> occurs_in kw s.
Proof.
  unfold occurs_in. induction s as [|c s IH]; cbn [contains].
  - rewrite orb_false_r, prefix_spec. split.
    + intros (after & H). now exists [], after.
    + intros ([|d before] & after & H); [now exists after | discriminate H].
  - rewrite orb_true_iff, prefix_spec, IH. split.
    + intros [(after & H)|(before & after & H)].
      * now exists [], after.
      * exists (c :: before), after. simpl. now rewrite H.
    + intros ([|d before] & after & H).
      * left. now exists after.
      * right. exists before, after. simpl in H. now inversion H.
Qed.

Lemma any_in_spec (keywords : list text) (s : text) :
  any_in keywords s = true <-> keyword_occurs keywords s.
Proof.
  unfold any_in, keyword_occurs. rewrite existsb_exists.
  split; intros (kw & Hin & H); exists kw; (split; [exact Hin|]);
    now apply contains_spec.
Qed.

Lemma mem_spec (x : text) (l : list text) : mem x l = true <-> In x l.
Proof.
  unfold mem. rewrite existsb_exists. split.
  - intros (y & Hin & Heq). apply text_eqb_eq in Heq. now subst.
  - intros Hin. exists x. split; [exact Hin | apply text_eqb_refl].
Qed.

(** A lower-cased label is [x] when some label of the issue reads [x] once
    it is lower-cased. *)
Lemma mem_lower_labels {U : Unicode} (x : text) (issue : Issue) :
  mem x (lower_labels issue) = true <->
  exists label, In label (labels issue) /\ lower label = x.
Proof.
  unfold lower_labels. rewrite mem_spec, in_map_iff.
  split; intros (l & H1 & H2); exists l; tauto.
Qed.

(** The three lists of [categorize_issues] are three independent
    selections: an issue is in any number of them. *)
Lemma categorize_issues_selects {U : Unicode} (issues : list Issue) :
  categorize_issues issues =
  mkCategories (map number (filter is_bug issues))
               (map number (filter is_documentation issues))
               (map number (filter is_coding_error issues)).
Proof.
  unfold categorize_issues.
  assert (forall l acc,
    fold_left
      (fun acc issue =>
         let acc := if is_bug issue
                    then mkCategories (bugs acc ++ [number issue]) (documentation acc) (coding_errors acc)
                    else acc in
         let acc := if is_documentation issue
                    then mkCategories (bugs acc) (documentation acc ++ [number issue]) (coding_errors acc)
                    else acc in
         if is_coding_error issue
         then mkCategories (bugs acc) (documentation acc) (coding_errors acc ++ [number issue])
         else acc) l acc
    = mkCategories (bugs acc ++ map number (filter is_bug l))
                   (documentation acc ++ map number (filter is_documentation l))
                   (coding_errors acc ++ map number (filter is_coding_error l))) as H.
  { induction l as [|i l IH]; intros [b d c]; cbn [fold_left filter map].
    - cbn. now rewrite !app_nil_r.
    - rewrite IH.
      destruct (is_bug i), (is_documentation i), (is_coding_error i);
        cbn [bugs documentation coding_errors map]; rewrite <- ?app_assoc; reflexivity. }
  apply H.
Qed.

(** C8: an issue is a bug when one of its labels reads "bug" once it is
    lower-cased, or a bug keyword occurs, as a substring, in the lower-cased
    title or body; likewise documentation with the label "documentation"
    and its keywords; a coding error when one of its keywords occurs in
    title or body, whatever the labels. A label is compared as a whole, a
    keyword is looked for inside the text. The three tests are independent,
    so an issue is in several lists or in none. An issue with body "Stack
    trace attached, compile error" is a coding error, and it is a bug too
    since "error" occurs in that body; an issue with title "Update README"
    is documentation; "Dockerfile" is documentation because "doc" occurs
    inside the word; the labels "Bug" and "Documentation" count, the labels
    "bugfix", "docs" and "runtime" do not. *)
Theorem categorization_by_substring :
  forall (U : Unicode),
    (forall issues,
        bugs (categorize_issues issues) = map number (filter is_bug issues) /\
        documentation (categorize_issues issues)
          = map number (filter is_documentation issues) /\
        coding_errors (categorize_issues issues)
          = map number (filter is_coding_error issues)) /\
    (forall issue,
        let title := lower (get_or_empty (title issue)) in
        let body := lower (get_or_empty (body issue)) in
        let has_label name :=
          exists label, In label (labels issue) /\ lower label = str name in
        let has_keyword keywords :=
          exists keyword,
            In keyword (map str keywords) /\
            (occurs_in keyword title \/ occurs_in keyword body) in
        (is_bug issue = true <->
           has_label "bug" \/
           has_keyword ["bug"; "error"; "crash"; "fail"; "broken"; "not working"]) /\
        (is_documentation issue = true <->
           has_label "documentation" \/
           has_keyword ["document"; "doc"; "readme"; "tutorial"; "example"]) /\
        (is_coding_error issue = true <->
           has_keyword ["exception"; "stack trace"; "compile"; "syntax"; "runtime"])) /\
    categorize_issues
      [with_body 1 "Stack trace attached, compile error";
       titled 2 "Update README";
       titled 3 "Dockerfile";
       titled 4 "Runtime ERROR in the Tutorial";
       titled 5 "Question about releases";
       with_body 6 "Stack trace attached, compile";
       labelled 7 ["Bug"];
       labelled 8 ["Documentation"; "help wanted"];
       labelled 9 ["bugfix"; "docs"; "runtime"]]
    = mkCategories [1; 4; 7] [2; 3; 4; 8] [1; 4; 6].
Proof.
  intros U. split; [|split].
  - intros issues. now rewrite categorize_issues_selects.
  - intros issue title body has_label has_keyword.
    assert (forall keywords,
               any_in (map str keywords) title || any_in (map str keywords) body = true
               <-> has_keyword keywords) as Hkw.
    { intros keywords. rewrite orb_true_iff, !any_in_spec.
      unfold has_keyword, keyword_occurs. split.
      - intros [(kw & Hin & H)|(kw & Hin & H)]; exists kw; tauto.
      - intros (kw & Hin & [H|H]); [left | right]; exists kw; tauto. }
    unfold is_bug, is_documentation, is_coding_error. fold title body.
    change bug_keywords
      with (map str ["bug"; "error"; "crash"; "fail"; "broken"; "not working"]).
    change doc_keywords
      with (map str ["document"; "doc"; "readme"; "tutorial"; "example"]).
    change coding_keywords
      with (map str ["exception"; "stack trace"; "compile"; "syntax"; "runtime"]).
    split; [|split].
    + rewrite <- orb_assoc, orb_true_iff, mem_lower_labels, Hkw. reflexivity.
    + rewrite <- orb_assoc, orb_true_iff, mem_lower_labels, Hkw. reflexivity.
    + apply Hkw.
  - reflexivity.
Qed.

(** ** Duplicate detection *)

Lemma first_occurrences_In (k : text) (keys : list text) :
  In k (first_occurrences keys) <-> In k keys.
Proof.
  induction keys as [|a keys IH]; simpl; [tauto|].
  rewrite filter_In, IH, negb_true_iff, text_eqb_neq.
  destruct (text_dec a k) as [->|Hne]; [tauto|].
  split; [tauto|]. intros [H|H]; [contradiction|]. right. split; [exact H|congruence].
Qed.

Lemma first_occurrences_NoDup (keys : list text) : NoDup (first_occurrences keys).
Proof.
  induction keys as [|a keys IH]; simpl; constructor.
  - rewrite filter_In, negb_true_iff, text_eqb_neq. tauto.
  - now apply NoDup_filter.
Qed.

Lemma first_occurrences_snoc (keys : list text) (k : text) :
  first_occurrences (keys ++ [k]) =
  if mem k keys then first_occurrences keys else first_occurrences keys ++ [k].
Proof.
  induction keys as [|a keys IH]; [reflexivity|].
  cbn [app first_occurrences]. rewrite IH. unfold mem. cbn [existsb].
  fold (mem k keys). destruct (mem k keys).
  - now rewrite orb_true_r.
  - rewrite orb_false_r, filter_app. cbn [filter].
    destruct (text_eqb k a); cbn [negb app]; [now rewrite app_nil_r|reflexivity].
Qed.

(** Appending to the group of [key] in a dict whose keys are distinct. *)
Lemma group_append_map (key : text) (issue : Issue) (F : text -> list Issue)
    (keys : list text) :
  NoDup keys ->
  group_append key issue (map (fun k => (k, F k)) keys) =
  map (fun k => (k, if text_eqb k key then F k ++ [issue] else F k)) keys
  ++ (if mem key keys then [] else [(key, [issue])]).
Proof.
  induction keys as [|a keys IH]; intros Hnd; [reflexivity|].
  inversion Hnd as [|? ? Hnotin Hnd']; subst.
  cbn [map group_append app]. unfold mem. cbn [existsb]. fold (mem key keys).
  rewrite (text_eqb_sym key a).
  destruct (text_eqb a key) eqn:Heq.
  - apply text_eqb_eq in Heq. subst a. cbn [orb]. rewrite app_nil_r. f_equal.
    apply map_ext_in. intros k Hin.
    destruct (text_eqb k key) eqn:Hk; [|reflexivity].
    apply text_eqb_eq in Hk. subst k. contradiction.
  - cbn [orb]. now rewrite IH.
Qed.

Section Grouping.

Context {U : Unicode}.

Lemma same_title_snoc (key : text) (issues : list Issue) (issue : Issue) :
  same_title key (issues ++ [issue]) =
  if text_eqb (simplified issue) key then same_title key issues ++ [issue]
  else same_title key issues.
Proof.
  unfold same_title. rewrite filter_app. cbn [filter].
  destruct (text_eqb (simplified issue) key); [reflexivity|apply app_nil_r].
Qed.

Lemma same_title_absent (key : text) (issues : list Issue) :
  mem key (map simplified issues) = false -> same_title key issues = [].
Proof.
  intros Hmem. unfold same_title.
  induction issues as [|i issues IH]; [reflexivity|].
  unfold mem in *. cbn [map existsb] in Hmem. apply orb_false_iff in Hmem as [Hi Hrest].
  cbn [filter]. rewrite text_eqb_sym, Hi. now apply IH.
Qed.

(** The dict that [detect_duplicates] builds: one entry per distinct
    normalized title, at the place of its first occurrence, holding the
    issues with that title in their order. *)
Lemma title_groups_spec (issues : list Issue) :
  title_groups issues =
  map (fun key => (key, same_title key issues))
      (first_occurrences (map simplified issues)).
Proof.
  unfold title_groups. induction issues as [|issue issues IH] using rev_ind.
  - reflexivity.
  - rewrite fold_left_app. cbn [fold_left]. rewrite IH.
    rewrite group_append_map by apply first_occurrences_NoDup.
    rewrite map_app. cbn [map]. rewrite first_occurrences_snoc.
    assert (mem (simplified issue) (first_occurrences (map simplified issues))
            = mem (simplified issue) (map simplified issues)) as Hmem.
    { apply eq_true_iff_eq. rewrite !mem_spec. apply first_occurrences_In. }
    rewrite Hmem.
    assert (map (fun k => (k, if text_eqb k (simplified issue)
                              then same_title k issues ++ [issue]
                              else same_title k issues))
                (first_occurrences (map simplified issues))
            = map (fun key => (key, same_title key (issues ++ [issue])))
                (first_occurrences (map simplified issues))) as ->.
    { apply map_ext. intros k. rewrite same_title_snoc.
      now rewrite (text_eqb_sym k). }
    destruct (mem (simplified issue) (map simplified issues)) eqn:Hin.
    + now rewrite app_nil_r.
    + rewrite map_app. cbn [map]. do 2 f_equal.
      rewrite same_title_snoc, text_eqb_refl.
      now rewrite (same_title_absent _ _ Hin).
Qed.

Lemma detect_duplicates_groups (issues : list Issue) :
  detect_duplicates issues = duplicate_groups issues.
Proof.
  unfold detect_duplicates, duplicate_groups. rewrite title_groups_spec.
  rewrite (fold_left_same _
             (fun acc (entry : text * list Issue) =>
                if len (snd entry) >? 1
                then acc ++ [mkDuplicate (fst entry) (map number (snd entry))]
                else acc))
    by (intros acc [t g]; reflexivity).
  rewrite (fold_left_select (fun entry : text * list Issue => len (snd entry) >? 1)
             (fun entry => mkDuplicate (fst entry) (map number (snd entry)))).
  induction (first_occurrences (map simplified issues)) as [|k ks IH];
    [reflexivity|].
  cbn [map filter fst snd].
  assert ((len (same_title k issues) >? 1) = (2 <=? len (same_title k issues))) as ->.
  { apply eq_true_iff_eq. rewrite Z.gtb_gt, Z.leb_le. lia. }
  destruct (2 <=? len (same_title k issues)); cbn [map fst snd]; now rewrite IH.
Qed.

Lemma same_title_In (key : text) (issues : list Issue) (issue : Issue) :
  In issue (same_title key issues) <-> In issue issues /\ simplified issue = key.
Proof. unfold same_title. now rewrite filter_In, text_eqb_eq. Qed.

Lemma duplicate_groups_In (issues : list Issue) (d : Duplicate) :
  In d (duplicate_groups issues) <->
  exists key,
    d = mkDuplicate key (map number (same_title key issues)) /\
    2 <= len (same_title key issues).
Proof.
  unfold duplicate_groups. rewrite in_map_iff. split.
  - intros (key & Hd & Hin). apply filter_In in Hin as [_ Hlen].
    exists key. split; [now rewrite Hd | now apply Z.leb_le].
  - intros (key & Hd & Hlen). exists key. split; [now rewrite Hd|].
    apply filter_In. split; [|now apply Z.leb_le].
    apply first_occurrences_In.
    destruct (same_title key issues) as [|i rest] eqn:Hgroup;
      [unfold len in Hlen; simpl in Hlen; lia|].
    assert (In i (same_title key issues)) as Hi by (rewrite Hgroup; now left).
    apply same_title_In in Hi as [Hi Hkey]. rewrite <- Hkey. now apply in_map.
Qed.

Lemma duplicate_groups_titles_NoDup (issues : list Issue) :
  NoDup (map dup_title (duplicate_groups issues)).
Proof.
  unfold duplicate_groups. rewrite map_map. cbn [dup_title]. rewrite map_id.
  apply NoDup_filter, first_occurrences_NoDup.
Qed.

End Grouping.

(** ** The shape of a normalized title *)

Section Shape.

Context {U : Unicode}.

Lemma space_is_space : is_space 32 = true.
Proof. reflexivity. Qed.

Lemma strip_non_word_filter (s : text) :
  strip_non_word s = filter (fun c => is_word c || is_space c) s.
Proof.
  induction s as [|c s IH]; [reflexivity|]. cbn [strip_non_word filter].
  now rewrite IH.
Qed.

Lemma strip_non_word_chars (P : char -> Prop) (s : text) :
  Forall P s ->
  Forall (fun c => P c /\ (is_word c = true \/ is_space c = true)) (strip_non_word s).
Proof.
  induction s as [|c s IH]; cbn [strip_non_word]; intros H; [constructor|].
  inversion H as [|? ? Hc Hs]; subst.
  destruct (is_word c) eqn:Hw; cbn [orb].
  - constructor; [split; [exact Hc | now left] | now apply IH].
  - destruct (is_space c) eqn:Hsp; [|now apply IH].
    constructor; [split; [exact Hc | now right] | now apply IH].
Qed.

Lemma collapse_whitespace_chars (P : char -> Prop) (s : text) :
  Forall P s ->
  Forall (fun c => c = 32 \/ (P c /\ is_space c = false)) (collapse_whitespace s).
Proof.
  induction s as [|c s IH]; intros H; [constructor|].
  inversion H as [|? ? Hc Hs]; subst. specialize (IH Hs).
  cbn [collapse_whitespace]. destruct (is_space c) eqn:Hsp.
  - destruct s as [|c' s']; [repeat constructor|].
    destruct (is_space c'); [exact IH|].
    constructor; [now left | exact IH].
  - constructor; [right; now split | exact IH].
Qed.

Lemma lstrip_chars (P : char -> Prop) (s : text) :
  Forall P s -> Forall P (lstrip s).
Proof.
  induction s as [|c s IH]; intros H; [constructor|].
  cbn [lstrip]. destruct (is_space c); [|exact H].
  inversion H; subst. now apply IH.
Qed.

Lemma rstrip_chars (P : char -> Prop) (s : text) :
  Forall P s -> Forall P (rstrip s).
Proof.
  induction s as [|c s IH]; intros H; [constructor|].
  inversion H as [|? ? Hc Hs]; subst. specialize (IH Hs).
  cbn [rstrip]. destruct (rstrip s) as [|d t].
  - destruct (is_space c); [constructor | repeat constructor; exact Hc].
  - constructor; [exact Hc | exact IH].
Qed.

Lemma lstrip_start (s : text) : starts_with_space (lstrip s) = false.
Proof.
  induction s as [|c s IH]; [reflexivity|]. cbn [lstrip].
  destruct (is_space c) eqn:Hsp; [exact IH | exact Hsp].
Qed.

Lemma rstrip_start (s : text) :
  starts_with_space s = false -> starts_with_space (rstrip s) = false.
Proof.
  destruct s as [|c s]; [reflexivity|]. cbn [starts_with_space rstrip]. intros Hc.
  destruct (rstrip s); [rewrite Hc|]; exact Hc.
Qed.

Lemma rstrip_end (s : text) : ends_with_space (rstrip s) = false.
Proof.
  induction s as [|c s IH]; [reflexivity|]. cbn [rstrip].
  destruct (rstrip s) as [|d t] eqn:Hr.
  - destruct (is_space c) eqn:Hsp; [reflexivity | cbn; exact Hsp].
  - exact IH.
Qed.

Lemma collapse_whitespace_start (s : text) :
  starts_with_space s = false -> starts_with_space (collapse_whitespace s) = false.
Proof.
  destruct s as [|c s]; [reflexivity|]. cbn [starts_with_space collapse_whitespace].
  intros Hc. rewrite Hc. exact Hc.
Qed.

Lemma collapse_whitespace_no_double (s : text) :
  no_double_space (collapse_whitespace s) = true.
Proof.
  induction s as [|c s IH]; [reflexivity|]. cbn [collapse_whitespace].
  destruct (is_space c) eqn:Hsp.
  - destruct s as [|c' s']; [reflexivity|].
    destruct (is_space c') eqn:Hsp'; [exact IH|].
    cbn [no_double_space]. rewrite IH.
    rewrite (collapse_whitespace_start (c' :: s') Hsp'). now rewrite andb_false_r.
  - cbn [no_double_space]. now rewrite Hsp, IH.
Qed.

Lemma lstrip_no_double (s : text) :
  no_double_space s = true -> no_double_space (lstrip s) = true.
Proof.
  induction s as [|c s IH]; [reflexivity|]. cbn [lstrip]. intros H.
  destruct (is_space c); [|exact H].
  cbn [no_double_space] in H. apply andb_prop in H as [_ H]. now apply IH.
Qed.

Lemma rstrip_start_same (s : text) :
  starts_with_space (rstrip s) = true -> starts_with_space s = true.
Proof.
  destruct s as [|c s]; [discriminate|]. cbn [rstrip starts_with_space].
  destruct (rstrip s).
  - destruct (is_space c) eqn:Hsp; [discriminate|].
    cbn [starts_with_space]. now rewrite Hsp.
  - cbn [starts_with_space]. trivial.
Qed.

Lemma rstrip_no_double (s : text) :
  no_double_space s = true -> no_double_space (rstrip s) = true.
Proof.
  induction s as [|c s IH]; [reflexivity|]. cbn [no_double_space]. intros H.
  apply andb_prop in H as [Hc Hs]. specialize (IH Hs). cbn [rstrip].
  destruct (rstrip s) as [|d t] eqn:Hr.
  - destruct (is_space c); [reflexivity|].
    cbn [no_double_space starts_with_space]. now rewrite andb_false_r.
  - cbn [no_double_space] in *. rewrite IH, andb_true_r.
    destruct (is_space c) eqn:Hsp; [|reflexivity]. cbn [andb] in *.
    apply negb_true_iff in Hc. apply negb_true_iff.
    destruct (starts_with_space (d :: t)) eqn:Hd; [|reflexivity].
    rewrite <- Hr in Hd. apply rstrip_start_same in Hd. congruence.
Qed.

(** A normalized title is made of word characters and plain spaces,
    neither begins nor ends with whitespace, and has no two spaces in a
    row. *)
Lemma simplified_shape (issue : Issue) :
  Forall normal_char (simplified issue) /\
  starts_with_space (simplified issue) = false /\
  ends_with_space (simplified issue) = false /\
  no_double_space (simplified issue) = true.
Proof.
  unfold simplified, strip. split; [|split; [|split]].
  - apply rstrip_chars, lstrip_chars.
    eapply Forall_impl;
      [|apply collapse_whitespace_chars, (strip_non_word_chars (fun _ => True)),
          Forall_forall; trivial].
    intros c [Hc|[[_ [Hw|Hsp]] Hnsp]]; [now left | right; now split | congruence].
  - apply rstrip_start, lstrip_start.
  - apply rstrip_end.
  - apply rstrip_no_double, lstrip_no_double, collapse_whitespace_no_double.
Qed.

End Shape.

(** ** Words *)

Section Words.

Context {U : Unicode}.

Lemma words_start (c : char) (t : text) :
  is_space c = false -> exists w ws, words (c :: t) = (c :: w) :: ws.
Proof.
  intros Hc. cbn [words]. rewrite Hc. destruct t as [|d t]; [now exists [], []|].
  destruct (is_space d); [now exists [], (words (d :: t))|].
  destruct (words (d :: t)) as [|w ws]; [now exists [], [] | now exists w, ws].
Qed.

Lemma words_all_space (s : text) : all_space s = true <-> words s = [].
Proof.
  unfold all_space. induction s as [|c s IH]; [now split|].
  cbn [forallb]. destruct (is_space c) eqn:Hc.
  - cbn [andb words]. now rewrite Hc.
  - cbn [andb]. split; [discriminate|]. intros H.
    destruct (words_start c s Hc) as (w & ws & Hw). congruence.
Qed.

Lemma all_space_end (s : text) :
  all_space s = true -> s <> [] -> ends_with_space s = true.
Proof.
  unfold all_space. induction s as [|c s IH]; [congruence|].
  cbn [forallb]. intros H _. apply andb_prop in H as [Hc Hs].
  destruct s as [|d s]; [exact Hc|].
  change (ends_with_space (c :: d :: s)) with (ends_with_space (d :: s)).
  apply IH; [exact Hs | discriminate].
Qed.

Lemma unwords_cons (c : char) (w : text) (ws : list text) :
  unwords ((c :: w) :: ws) = c :: unwords (w :: ws).
Proof. destruct ws; reflexivity. Qed.

(** Every word is not empty and holds no whitespace. *)
Lemma words_shape (s : text) :
  Forall (fun w => w <> [] /\ Forall (fun c => is_space c = false) w) (words s).
Proof.
  induction s as [|c s IH]; [constructor|]. cbn [words].
  destruct (is_space c) eqn:Hc; [exact IH|].
  destruct s as [|d s]; [repeat constructor; [discriminate | exact Hc]|].
  destruct (is_space d) eqn:Hd.
  - constructor; [|exact IH]. split; [discriminate | now repeat constructor].
  - destruct (words (d :: s)) as [|w ws];
      [repeat constructor; [discriminate | exact Hc]|].
    inversion IH as [|? ? [Hw Hall] Hws]; subst.
    constructor; [|exact Hws]. split; [discriminate | now constructor].
Qed.

(** What [re.sub(r'\s+', ' ', s)] leaves: the words with one space between
    them, after one space when [s] begins with whitespace, and before one
    space when [s] ends with whitespace and has a word. *)
Lemma collapse_whitespace_words (s : text) :
  collapse_whitespace s =
  (if starts_with_space s then [32] else [])
  ++ unwords (words s)
  ++ (if ends_with_space s && negb (all_space s) then [32] else []).
Proof.
  induction s as [|c t IH]; [reflexivity|].
  cbn [collapse_whitespace starts_with_space words].
  destruct (is_space c) eqn:Hc.
  - destruct t as [|d t'].
    + unfold all_space. cbn [ends_with_space forallb]. rewrite Hc. reflexivity.
    + change (ends_with_space (c :: d :: t')) with (ends_with_space (d :: t')).
      assert (all_space (c :: d :: t') = all_space (d :: t')) as ->
        by (unfold all_space; cbn [forallb]; now rewrite Hc).
      rewrite IH. cbn [starts_with_space].
      destruct (is_space d); reflexivity.
  - destruct t as [|d t'].
    + unfold all_space. cbn [ends_with_space forallb collapse_whitespace unwords].
      rewrite Hc. reflexivity.
    + change (ends_with_space (c :: d :: t')) with (ends_with_space (d :: t')).
      assert (all_space (c :: d :: t') = false) as ->
        by (unfold all_space; cbn [forallb]; now rewrite Hc).
      rewrite IH. cbn [starts_with_space negb]. rewrite andb_true_r.
      destruct (is_space d) eqn:Hd.
      * destruct (words (d :: t')) as [|w ws] eqn:Hw.
        -- apply words_all_space in Hw. rewrite Hw.
           rewrite (all_space_end (d :: t') Hw) by discriminate. reflexivity.
        -- assert (all_space (d :: t') = false) as ->.
           { destruct (all_space (d :: t')) eqn:Ha; [|reflexivity].
             apply words_all_space in Ha. congruence. }
           rewrite andb_true_r. cbn [unwords app]. reflexivity.
      * destruct (words_start d t' Hd) as (w & ws & Hw). rewrite Hw.
        assert (all_space (d :: t') = false) as ->
          by (unfold all_space; cbn [forallb]; now rewrite Hd).
        rewrite andb_true_r. rewrite !unwords_cons. reflexivity.
Qed.

Lemma lstrip_trimmed (s : text) : starts_with_space s = false -> lstrip s = s.
Proof. destruct s as [|c s]; [reflexivity|]. cbn. now intros ->. Qed.

Lemma rstrip_trimmed (s : text) : ends_with_space s = false -> rstrip s = s.
Proof.
  induction s as [|c s IH]; intros H; [reflexivity|]. cbn [rstrip].
  destruct s as [|d t].
  - cbn in H. cbn [rstrip]. now rewrite H.
  - rewrite IH by exact H. reflexivity.
Qed.

Lemma rstrip_space (s : text) : rstrip (s ++ [32]) = rstrip s.
Proof.
  induction s as [|c s IH]; [reflexivity|]. cbn [app rstrip]. now rewrite IH.
Qed.

Lemma ends_with_space_app (s t : text) :
  t <> [] -> ends_with_space (s ++ t) = ends_with_space t.
Proof.
  intros Ht. induction s as [|c s IH]; [reflexivity|]. cbn [app].
  destruct (s ++ t) as [|d r] eqn:Hst.
  - destruct s; [cbn in Hst; congruence | discriminate Hst].
  - exact IH.
Qed.

Lemma word_end (w : text) :
  w <> [] -> Forall (fun c => is_space c = false) w -> ends_with_space w = false.
Proof.
  induction w as [|c w IH]; [congruence|]. intros _ H.
  inversion H as [|? ? Hc Hw]; subst.
  destruct w as [|d w]; [exact Hc|]. apply IH; [discriminate | exact Hw].
Qed.

Lemma unwords_end (ws : list text) :
  Forall (fun w => w <> [] /\ Forall (fun c => is_space c = false) w) ws ->
  ends_with_space (unwords ws) = false.
Proof.
  induction ws as [|w ws IH]; [reflexivity|]. intros H.
  inversion H as [|? ? [Hw Hall] Hws]; subst.
  destruct ws as [|w' ws']; [now apply word_end|].
  change (unwords (w :: w' :: ws')) with (w ++ 32 :: unwords (w' :: ws')).
  rewrite ends_with_space_app by discriminate.
  specialize (IH Hws). destruct (unwords (w' :: ws')) as [|d r] eqn:Hu; [|exact IH].
  exfalso. inversion Hws as [|? ? [Hw' _] _]; subst.
  destruct w' as [|e w']; [congruence|]. destruct ws'; discriminate Hu.
Qed.

Lemma lstrip_lead (b : bool) (x : text) :
  starts_with_space x = false -> lstrip ((if b then [32] else []) ++ x) = x.
Proof.
  intros H. destruct b; cbn [app lstrip]; rewrite ?space_is_space;
    now apply lstrip_trimmed.
Qed.

(** [re.sub(r'\s+', ' ', s).strip()] and [re.sub(r'\s+', ' ', s.strip())]
    are [' '.join(s.split())]. *)
Lemma strip_collapse_words (s : text) :
  strip (collapse_whitespace s) = unwords (words s).
Proof.
  rewrite collapse_whitespace_words. unfold strip.
  pose proof (words_shape s) as Hshape.
  destruct (words s) as [|w ws] eqn:Hw.
  - apply words_all_space in Hw. rewrite Hw, andb_false_r. cbn [unwords app].
    rewrite app_nil_r. destruct (starts_with_space s); reflexivity.
  - assert (all_space s = false) as ->.
    { destruct (all_space s) eqn:Ha; [|reflexivity].
      apply words_all_space in Ha. congruence. }
    rewrite andb_true_r. cbn [negb].
    pose proof (unwords_end (w :: ws) Hshape) as Hend.
    inversion Hshape as [|? ? [Hne Hall] _]; subst.
    destruct w as [|c w]; [congruence|]. inversion Hall as [|? ? Hc _]; subst.
    rewrite unwords_cons in *.
    rewrite lstrip_lead by exact Hc.
    destruct (ends_with_space s).
    + rewrite rstrip_space. now apply rstrip_trimmed.
    + rewrite app_nil_r. now apply rstrip_trimmed.
Qed.

Lemma words_space (c : char) (t : text) :
  is_space c = true -> words (c :: t) = words t.
Proof. intros Hc. cbn [words]. now rewrite Hc. Qed.

Lemma words_cons (c d : char) (t : text) :
  is_space c = false ->
  words (c :: d :: t) =
  if is_space d then [c] :: words (d :: t)
  else match words (d :: t) with
       | w :: ws => (c :: w) :: ws
       | [] => [[c]]
       end.
Proof. intros Hc. cbn [words]. now rewrite Hc. Qed.

Lemma lstrip_words (t : text) : words (lstrip t) = words t.
Proof.
  induction t as [|c t IH]; [reflexivity|]. cbn [lstrip].
  destruct (is_space c) eqn:Hc; [|reflexivity].
  now rewrite (words_space c t Hc).
Qed.

Lemma rstrip_head (c : char) (t : text) (d : char) (r : text) :
  rstrip (c :: t) = d :: r -> d = c.
Proof.
  cbn [rstrip]. destruct (rstrip t); [destruct (is_space c)|]; congruence.
Qed.

Lemma rstrip_words (t : text) : words (rstrip t) = words t.
Proof.
  induction t as [|c t IH]; [reflexivity|]. cbn [rstrip].
  destruct (rstrip t) as [|d r] eqn:Hrt.
  - assert (all_space t = true) as Hall
      by (apply words_all_space; rewrite <- IH; reflexivity).
    destruct (is_space c) eqn:Hc.
    + rewrite (words_space c t Hc). symmetry. now apply words_all_space.
    + destruct t as [|e t']; [reflexivity|].
      assert (is_space e = true) as He
        by (unfold all_space in Hall; cbn [forallb] in Hall;
            now apply andb_prop in Hall as [He _]).
      rewrite (words_cons c e t' Hc), He.
      apply words_all_space in Hall. rewrite Hall. cbn [words]. now rewrite Hc.
  - destruct t as [|e t']; [discriminate Hrt|].
    pose proof (rstrip_head e t' d r Hrt) as ->.
    destruct (is_space c) eqn:Hc.
    + now rewrite (words_space c (e :: r) Hc), (words_space c (e :: t') Hc).
    + now rewrite (words_cons c e r Hc), (words_cons c e t' Hc), IH.
Qed.

Lemma strip_words (s : text) : words (strip s) = words s.
Proof. unfold strip. now rewrite rstrip_words, lstrip_words. Qed.

(** [re.sub(r'\s+', ' ', s.strip())] is [' '.join(s.split())] too. *)
Lemma collapse_strip_words (s : text) :
  collapse_whitespace (strip s) = unwords (words s).
Proof.
  rewrite collapse_whitespace_words, strip_words. unfold strip.
  rewrite (rstrip_start _ (lstrip_start s)), rstrip_end. cbn [andb app].
  now rewrite app_nil_r.
Qed.

(** The key of [detect_duplicates] is the claim's normalized title. *)
Lemma simplified_normalized (issue : Issue) :
  simplified issue = normalized_title issue.
Proof.
  unfold simplified, normalized_title.
  now rewrite strip_collapse_words, strip_non_word_filter.
Qed.

End Words.

(** ** Duplicate detection, as claimed *)

(** C9: [detect_duplicates] files every issue under its title lower-cased,
    stripped of every character that is neither a word character nor
    whitespace, and written word by word with one space in between: the
    key that the two [re.sub] and the [strip] compute is the claim's
    normalized title. It is made of word characters and plain spaces,
    neither begins nor ends with whitespace and has no two spaces in a row.
    [detect_duplicates] emits exactly the groups of two or more issues,
    each once, the groups in the order of the first occurrence of their
    titles and the issue numbers of a group in the order of the issues.
    "Fix login bug", "fix login bug!" and "Fix Login Bug" form one group;
    "Unrelated" stands alone and is left out. *)
Theorem duplicate_detection :
  forall (U : Unicode),
    (forall issue, simplified issue = normalized_title issue) /\
    (forall issue,
        Forall normal_char (simplified issue) /\
        starts_with_space (simplified issue) = false /\
        ends_with_space (simplified issue) = false /\
        no_double_space (simplified issue) = true) /\
    (forall issues, detect_duplicates issues = duplicate_groups issues) /\
    (forall issues d,
        In d (detect_duplicates issues) <->
        exists key,
          d = mkDuplicate key (map number (same_title key issues)) /\
          2 <= len (same_title key issues)) /\
    (forall issues, NoDup (map dup_title (detect_duplicates issues))) /\
    map simplified
      [titled 1 "Fix login bug"; titled 2 "fix login bug!"; titled 3 "Fix Login Bug"]
    = [str "fix login bug"; str "fix login bug"; str "fix login bug"] /\
    detect_duplicates
      [titled 1 "Fix login bug"; titled 4 "Unrelated"; titled 2 "fix login bug!";
       titled 3 "Fix Login Bug"]
    = [mkDuplicate (str "fix login bug") [1; 2; 3]] /\
    detect_duplicates
      [titled 1 "Timeout  on - upload"; titled 2 "Fix login bug"; titled 3 "fix login bug!";
       titled 4 " timeout on upload? "]
    = [mkDuplicate (str "timeout on upload") [1; 4];
       mkDuplicate (str "fix login bug") [2; 3]].
Proof.
  intros U.
  split; [exact simplified_normalized|]. split; [exact simplified_shape|].
  split; [exact detect_duplicates_groups|].
  split; [|split; [|repeat split]].
  - intros issues d. rewrite detect_duplicates_groups. apply duplicate_groups_In.
  - intros issues. rewrite detect_duplicates_groups.
    apply duplicate_groups_titles_NoDup.
Qed.

(** ** Titles without a word character *)

Section BlankTitles.

Context {U : Unicode}.

Lemma strip_non_word_all_space (s : text) :
  no_word_char s = true -> all_space (strip_non_word s) = true.
Proof.
  unfold no_word_char, all_space.
  induction s as [|c s IH]; [reflexivity|]. cbn [forallb strip_non_word].
  intros H. apply andb_prop in H as [Hc Hs]. apply negb_true_iff in Hc.
  rewrite Hc. cbn [orb]. destruct (is_space c) eqn:Hsp; [|now apply IH].
  cbn [forallb]. rewrite Hsp. now apply IH.
Qed.

Lemma simplified_blank (issue : Issue) :
  blank_title issue = true -> simplified issue = [].
Proof.
  intros H. rewrite simplified_normalized. unfold normalized_title, blank_title in *.
  destruct (title issue) as [t|]; cbn [get_or_empty].
  - apply strip_non_word_all_space in H. rewrite strip_non_word_filter in H.
    apply words_all_space in H. now rewrite H.
  - reflexivity.
Qed.

End BlankTitles.

(** Comparisons that the linear facts at hand decide. *)
Ltac decide_comparisons :=
  repeat match goal with
         | |- context [?a <=? ?b] =>
             first [ replace (a <=? b) with true by (symmetry; apply Z.leb_le; lia)
                   | replace (a <=? b) with false by (symmetry; apply Z.leb_gt; lia) ]
         | |- context [?a <? ?b] =>
             first [ replace (a <? b) with true by (symmetry; apply Z.ltb_lt; lia)
                   | replace (a <? b) with false by (symmetry; apply Z.ltb_ge; lia) ]
         | |- context [?a =? ?b] =>
             first [ replace (a =? b) with true by (symmetry; apply Z.eqb_eq; lia)
                   | replace (a =? b) with false by (symmetry; apply Z.eqb_neq; lia) ]
         end.

Lemma is_upper_range (c : char) : is_upper c = true <-> 65 <= c <= 90.
Proof. unfold is_upper, between. rewrite andb_true_iff, !Z.leb_le. tauto. Qed.

(** On ASCII lower-casing keeps the word characters and the others apart. *)
Lemma lower_char_word {U : Unicode} (c : char) :
  is_ascii c = true ->
  is_word (lower_char c) =
  between 97 122 c || between 65 90 c || between 48 57 c || (c =? 95).
Proof.
  intros Hascii. unfold lower_char. destruct (is_upper c) eqn:Hup.
  - apply is_upper_range in Hup. unfold is_word, is_ascii, between.
    decide_comparisons. reflexivity.
  - unfold is_word. now rewrite Hascii.
Qed.

Lemma lower_ascii {U : Unicode} (s : text) :
  isascii s = true -> lower s = map lower_char s.
Proof. unfold lower. now intros ->. Qed.

Lemma filter_length_le {A : Type} (p q : A -> bool) (l : list A) :
  (forall x, In x l -> p x = true -> q x = true) ->
  (List.length (filter p l) <= List.length (filter q l))%nat.
Proof.
  induction l as [|x l IH]; intros H; [apply Nat.le_refl|]. cbn [filter].
  assert (List.length (filter p l) <= List.length (filter q l))%nat as Hle.
  { apply IH. intros y Hy. apply H. now right. }
  destruct (p x) eqn:Hp.
  - rewrite (H x (or_introl eq_refl) Hp). cbn [List.length]. lia.
  - destruct (q x); cbn [List.length]; lia.
Qed.

(** C10, as stated, fails: "_" and "!" both consist of punctuation only,
    but the underscore is a word character of the regular expression, so
    "_" is filed under "_" and "!" under the empty string, and no group is
    reported. Both titles are ASCII: the tables are not consulted. *)
Lemma blank_titles_grouped_counterexample :
  @simplified ascii_only (titled 1 "_") <> [] /\
  @detect_duplicates ascii_only [titled 1 "_"; titled 2 "!"] = [].
Proof. split; [vm_compute; discriminate | reflexivity]. Qed.

(** C10, amended: when two or more issues have a title that is absent,
    empty, or without a word character once it is lower-cased, all those
    titles are normalized to the empty string, and duplicate detection
    reports exactly one group under the empty string, which holds the
    numbers of all those issues. An ASCII title is such a title exactly
    when it holds no letter, no digit and no underscore: when it is made
    of whitespace, of punctuation other than the underscore and of control
    characters. *)
Theorem blank_titles_grouped :
  forall (U : Unicode) (issues : list Issue),
    2 <= len (filter blank_title issues) ->
    let numbers := map number (same_title [] issues) in
    (forall issue, In issue issues -> blank_title issue = true ->
                   simplified issue = [] /\ In (number issue) numbers) /\
    In (mkDuplicate [] numbers) (detect_duplicates issues) /\
    (forall d, In d (detect_duplicates issues) -> dup_title d = [] ->
               d = mkDuplicate [] numbers) /\
    (forall issue t,
        title issue = Some t -> isascii t = true ->
        blank_title issue =
        forallb (fun c => negb (between 97 122 c || between 65 90 c
                                || between 48 57 c || (c =? 95))) t).
Proof.
  intros U issues Htwo numbers. split; [|split; [|split]].
  - intros issue Hin Hblank. pose proof (simplified_blank issue Hblank) as Hs.
    split; [exact Hs|]. apply in_map. now apply same_title_In.
  - rewrite detect_duplicates_groups. apply duplicate_groups_In.
    exists []. split; [reflexivity|].
    unfold len in *. unfold same_title.
    pose proof (filter_length_le blank_title
                  (fun i => text_eqb (simplified i) []) issues) as Hle.
    assert (List.length (filter blank_title issues)
            <= List.length (filter (fun i => text_eqb (simplified i) []) issues))%nat.
    { apply Hle. intros x _ Hx. apply text_eqb_eq. now apply simplified_blank. }
    lia.
  - intros d Hd Htitle. rewrite detect_duplicates_groups in Hd.
    apply duplicate_groups_In in Hd as (key & -> & _). cbn [dup_title] in Htitle.
    now subst key.
  - intros issue t Htitle Hascii. unfold blank_title. rewrite Htitle.
    rewrite (lower_ascii t Hascii). unfold no_word_char, isascii in *.
    clear Htitle. induction t as [|c t IH]; [reflexivity|]. cbn [forallb map] in *.
    apply andb_prop in Hascii as [Hc Ht].
    now rewrite (lower_char_word c Hc), (IH Ht).
Qed.

Lemma blank_titles_grouped_witness :
  In (mkDuplicate []
        (map number (@same_title ascii_only []
                       [untitled 1; titled 2 "Crash"; titled 3 " ?! "; titled 4 ""])))
     (@detect_duplicates ascii_only
        [untitled 1; titled 2 "Crash"; titled 3 " ?! "; titled 4 ""]).
Proof.
  refine (proj1 (proj2
    (blank_titles_grouped ascii_only
       [untitled 1; titled 2 "Crash"; titled 3 " ?! "; titled 4 ""] _))).
  vm_compute. discriminate.
Defined.

(** * Further properties *)

(** ** Pagination, request by request *)

Section ExactWalk.

Context {A : Type}.
Variable iteration : Reply (list A) -> Z * list A -> World -> Control (Z * list A).
Variable endpoint : Endpoint.
Variable st : option string.
Variable d : Z.
Variable keep : list A -> list A.

Hypothesis full_exact : forall l p acc w,
  len l = per_page ->
  iteration (page_of l) (p, acc) w =
  Next (p + 1, acc ++ keep l) (after_full endpoint st d p w).

Hypothesis short_exact : forall l p acc w,
  len l < per_page ->
  iteration (page_of l) (p, acc) w =
  Break (p, acc ++ keep l) (after_short endpoint st p w).

Lemma exact_full_pages (fulls : list (list A)) :
  forall tail p acc w,
    Forall (fun l => len l = per_page) fulls ->
    while_true iteration (map page_of fulls ++ tail) (p, acc) w =
    while_true iteration tail
      (p + len fulls, acc ++ List.concat (map keep fulls))
      (after_pages endpoint st d p (List.length fulls) w).
Proof.
  induction fulls as [|l fulls IH]; intros tail p acc w Hfull.
  - unfold len. simpl. now rewrite Z.add_0_r, app_nil_r.
  - inversion Hfull as [|? ? Hl Hrest]; subst.
    simpl map. simpl app. cbn [while_true]. rewrite (full_exact l p acc w Hl).
    rewrite (IH tail (p + 1) (acc ++ keep l) _ Hrest).
    rewrite len_cons. simpl List.concat. rewrite <- app_assoc.
    replace (p + 1 + len fulls) with (p + (len fulls + 1)) by lia.
    reflexivity.
Qed.

Lemma exact_walk (fulls : list (list A)) (last : list A) :
  forall rest p acc w,
    Forall (fun l => len l = per_page) fulls ->
    len last < per_page ->
    while_true iteration (map page_of fulls ++ page_of last :: rest) (p, acc) w =
    (Return (p + len fulls, acc ++ List.concat (map keep (fulls ++ [last]))),
     after_short endpoint st (p + len fulls)
       (after_pages endpoint st d p (List.length fulls) w)).
Proof.
  intros rest p acc w Hfull Hlast.
  rewrite (exact_full_pages fulls _ p acc w Hfull). cbn [while_true].
  rewrite (short_exact last _ _ _ Hlast).
  rewrite map_app, concat_app. simpl. now rewrite app_nil_r, <- app_assoc.
Qed.

End ExactWalk.

Lemma after_pages_clock endpoint st d p n w :
  clock (after_pages endpoint st d p n w) = clock w + Z.of_nat n * d.
Proof.
  revert p w. induction n as [|n IH]; intros p w.
  - simpl. lia.
  - cbn [after_pages]. rewrite IH. cbn [after_full clock]. lia.
Qed.

Lemma after_pages_requests endpoint st d p n w :
  requests (trace (after_pages endpoint st d p n w)) =
  requests (trace w) ++ paced_requests endpoint st d p (clock w) n.
Proof.
  revert p w. induction n as [|n IH]; intros p w.
  - simpl. now rewrite app_nil_r.
  - cbn [after_pages]. rewrite IH. cbn [after_full clock trace].
    rewrite !requests_app. cbn [requests]. rewrite app_nil_r, <- app_assoc.
    f_equal. unfold paced_requests. cbn [seq map app].
    rewrite Z.add_0_r, Z.mul_0_l, Z.add_0_r. f_equal.
    rewrite <- seq_shift, map_map. apply map_ext. intros k.
    f_equal; lia.
Qed.

(** The requests of a whole walk: [n] full pages and the short one. *)
Lemma walk_requests endpoint st d p n w :
  requests (trace (after_short endpoint st (p + Z.of_nat n)
                     (after_pages endpoint st d p n w))) =
  requests (trace w) ++ paced_requests endpoint st d p (clock w) (S n).
Proof.
  cbn [after_short trace]. rewrite requests_app, after_pages_requests.
  rewrite after_pages_clock. cbn [requests]. rewrite <- app_assoc. f_equal.
  unfold paced_requests. rewrite seq_S, map_app. reflexivity.
Qed.

Ltac exact_page l :=
  cbn [page_of status_code json ratelimit_remaining ratelimit_reset];
  unfold raises_for_status; cbn [status_code json];
  change (200 =? 403) with false; change ((400 <=? 200) && (200 <? 600)) with false;
  cbv iota;
  destruct l; [try discriminate | ].

Lemma script_issues_full_exact (l : list Issue) p acc w :
  len l = per_page ->
  Script.fetch_issues_iteration (page_of l) (p, acc) w =
  Next (p + 1, acc ++ id l) (after_full IssuesURL (Some "all") 500000 p w).
Proof.
  intros H. destruct (full_page_not_short l H) as [Hne Hlt].
  unfold Script.fetch_issues_iteration, Script.fetch_issues_try.
  exact_page l. rewrite Hlt. reflexivity.
Qed.

Lemma script_issues_short_exact (l : list Issue) p acc w :
  len l < per_page ->
  Script.fetch_issues_iteration (page_of l) (p, acc) w =
  Break (p, acc ++ id l) (after_short IssuesURL (Some "all") p w).
Proof.
  intros H. apply Z.ltb_lt in H.
  unfold Script.fetch_issues_iteration, Script.fetch_issues_try.
  exact_page l; [now rewrite app_nil_r | now rewrite H].
Qed.

Lemma package_issues_full_exact b (l : list Issue) p acc w :
  len l = per_page ->
  Package.fetch_issues_iteration b (page_of l) (p, acc) w =
  Next (p + 1, acc ++ filter not_pull_request l)
       (after_full IssuesURL (Some (Package.state_param b)) 100000 p w).
Proof.
  intros H. destruct (full_page_not_short l H) as [Hne Hlt].
  unfold Package.fetch_issues_iteration, Package.fetch_issues_try.
  exact_page l. rewrite Hlt. destruct b; reflexivity.
Qed.

Lemma package_issues_short_exact b (l : list Issue) p acc w :
  len l < per_page ->
  Package.fetch_issues_iteration b (page_of l) (p, acc) w =
  Break (p, acc ++ filter not_pull_request l)
        (after_short IssuesURL (Some (Package.state_param b)) p w).
Proof.
  intros H. apply Z.ltb_lt in H.
  unfold Package.fetch_issues_iteration, Package.fetch_issues_try.
  exact_page l; [cbn [filter]; now rewrite app_nil_r | rewrite H; destruct b; reflexivity].
Qed.

Lemma script_comments_full_exact n (l : list Comment) p acc w :
  len l = per_page ->
  Script.extract_comments_iteration n (page_of l) (p, acc) w =
  Next (p + 1, acc ++ id l) (after_full (CommentsURL n) None 500000 p w).
Proof.
  intros H. destruct (full_page_not_short l H) as [Hne Hlt].
  unfold Script.extract_comments_iteration, Script.extract_comments_try.
  exact_page l. rewrite Hlt. reflexivity.
Qed.

Lemma script_comments_short_exact n (l : list Comment) p acc w :
  len l < per_page ->
  Script.extract_comments_iteration n (page_of l) (p, acc) w =
  Break (p, acc ++ id l) (after_short (CommentsURL n) None p w).
Proof.
  intros H. apply Z.ltb_lt in H.
  unfold Script.extract_comments_iteration, Script.extract_comments_try.
  exact_page l; [now rewrite app_nil_r | now rewrite H].
Qed.

Lemma package_comments_full_exact n (l : list Comment) p acc w :
  len l = per_page ->
  Package.extract_comments_iteration n (page_of l) (p, acc) w =
  Next (p + 1, acc ++ id l) (after_full (CommentsURL n) None 100000 p w).
Proof.
  intros H. destruct (full_page_not_short l H) as [Hne Hlt].
  unfold Package.extract_comments_iteration, Package.extract_comments_try.
  exact_page l. rewrite Hlt. reflexivity.
Qed.

Lemma package_comments_short_exact n (l : list Comment) p acc w :
  len l < per_page ->
  Package.extract_comments_iteration n (page_of l) (p, acc) w =
  Break (p, acc ++ id l) (after_short (CommentsURL n) None p w).
Proof.
  intros H. apply Z.ltb_lt in H.
  unfold Package.extract_comments_iteration, Package.extract_comments_try.
  exact_page l; [now rewrite app_nil_r | now rewrite H].
Qed.



Lemma walk_is_paced endpoint st d n w :
  paced_run w (after_short endpoint st (1 + Z.of_nat n) (after_pages endpoint st d 1 n w))
            endpoint st d n.
Proof.
  split; [apply walk_requests|].
  cbn [after_short clock]. apply after_pages_clock.
Qed.



(** ** Rate limiting, request by request *)

Ltac wait_step T body Hle Hmax :=
  cbn [rate_limited status_code];
  change (403 =? 403) with true; cbv iota;
  change (rate_limit_exhausted (mkResponse 403 (Some "0") (IntValue T) body)) with true;
  cbv iota;
  match goal with
  | |- context [wait_for_reset ?resp ?w1] =>
      rewrite (wait_for_reset_in_time resp T w1 eq_refl Hle Hmax)
  end;
  reflexivity.

Lemma script_issues_wait T body p acc w :
  int_time w <= T + 1 ->
  T - int_time w + 1 <= longest_sleep ->
  Script.fetch_issues_iteration (rate_limited T body) (p, acc) w =
  Next (p, acc) (after_wait IssuesURL (Some "all") p T w).
Proof.
  intros Hle Hmax. unfold Script.fetch_issues_iteration, Script.fetch_issues_try.
  wait_step T body Hle Hmax.
Qed.

Lemma package_issues_wait b T body p acc w :
  int_time w <= T + 1 ->
  T - int_time w + 1 <= longest_sleep ->
  Package.fetch_issues_iteration b (rate_limited T body) (p, acc) w =
  Next (p, acc) (after_wait IssuesURL (Some (Package.state_param b)) p T w).
Proof.
  intros Hle Hmax. unfold Package.fetch_issues_iteration, Package.fetch_issues_try.
  wait_step T body Hle Hmax.
Qed.

Lemma script_comments_wait n T body p acc w :
  int_time w <= T + 1 ->
  T - int_time w + 1 <= longest_sleep ->
  Script.extract_comments_iteration n (rate_limited T body) (p, acc) w =
  Next (p, acc) (after_wait (CommentsURL n) None p T w).
Proof.
  intros Hle Hmax. unfold Script.extract_comments_iteration, Script.extract_comments_try.
  wait_step T body Hle Hmax.
Qed.

Lemma package_comments_wait n T body p acc w :
  int_time w <= T + 1 ->
  T - int_time w + 1 <= longest_sleep ->
  Package.extract_comments_iteration n (rate_limited T body) (p, acc) w =
  Next (p, acc) (after_wait (CommentsURL n) None p T w).
Proof.
  intros Hle Hmax. unfold Package.extract_comments_iteration, Package.extract_comments_try.
  wait_step T body Hle Hmax.
Qed.

Lemma after_wait_clock endpoint st p T w :
  int_time w <= T + 1 ->
  (T + 1) * second <= clock (after_wait endpoint st p T w).
Proof.
  intros Hle. cbn [after_wait clock]. pose proof (int_time_le_clock w).
  unfold second in *. lia.
Qed.

(** X3: a rate-limited reply whose reset time [T] the loop can wait for
    costs a request and a sleep and nothing else. When the clock, read as
    the reply is handled, shows a second [now] with [now <= T + 1] and the
    sleep of [T - now + 1] seconds is not longer than [time.sleep] accepts,
    each of the four loops goes on, with the page number and the records
    gathered so far unchanged, exactly as if it had been started on the
    remaining replies when the sleep was over, which is not before second
    [T+1]. So a fetch that is rate-limited on its first request returns
    what a fetch begun after the wait returns. *)
Theorem rate_limit_wait_is_transparent :
  forall (T : Z) (w : World),
    int_time w <= T + 1 ->
    T - int_time w + 1 <= longest_sleep ->
    (forall u st p, (T + 1) * second <= clock (after_wait u st p T w)) /\
    (forall body rest p acc,
        while_true Script.fetch_issues_iteration (rate_limited T body :: rest) (p, acc) w =
        while_true Script.fetch_issues_iteration rest (p, acc)
          (after_wait IssuesURL (Some "all") p T w)) /\
    (forall b body rest p acc,
        while_true (Package.fetch_issues_iteration b)
          (rate_limited T body :: rest) (p, acc) w =
        while_true (Package.fetch_issues_iteration b) rest (p, acc)
          (after_wait IssuesURL (Some (Package.state_param b)) p T w)) /\
    (forall n body rest p acc,
        while_true (Script.extract_comments_iteration n)
          (rate_limited T body :: rest) (p, acc) w =
        while_true (Script.extract_comments_iteration n) rest (p, acc)
          (after_wait (CommentsURL n) None p T w)) /\
    (forall n body rest p acc,
        while_true (Package.extract_comments_iteration n)
          (rate_limited T body :: rest) (p, acc) w =
        while_true (Package.extract_comments_iteration n) rest (p, acc)
          (after_wait (CommentsURL n) None p T w)) /\
    (forall body rest,
        Script.fetch_issues (rate_limited T body :: rest) w =
        Script.fetch_issues rest (after_wait IssuesURL (Some "all") 1 T w)) /\
    (forall b body rest,
        Package.fetch_issues b (rate_limited T body :: rest) w =
        Package.fetch_issues b rest
          (after_wait IssuesURL (Some (Package.state_param b)) 1 T w)) /\
    (forall n body rest,
        Script.extract_comments n (rate_limited T body :: rest) w =
        Script.extract_comments n rest (after_wait (CommentsURL n) None 1 T w)) /\
    (forall n body rest,
        Package.extract_comments n (rate_limited T body :: rest) w =
        Package.extract_comments n rest (after_wait (CommentsURL n) None 1 T w)).
Proof.
  intros T w Hle Hmax.
  split; [intros u st p; now apply after_wait_clock|].
  repeat split.
  - intros body rest p acc. cbn [while_true]. now rewrite script_issues_wait.
  - intros b body rest p acc. cbn [while_true]. now rewrite package_issues_wait.
  - intros n body rest p acc. cbn [while_true]. now rewrite script_comments_wait.
  - intros n body rest p acc. cbn [while_true]. now rewrite package_comments_wait.
  - intros body rest. unfold Script.fetch_issues. cbn [while_true].
    now rewrite script_issues_wait.
  - intros b body rest. unfold Package.fetch_issues. cbn [while_true].
    now rewrite package_issues_wait.
  - intros n body rest. unfold Script.extract_comments. cbn [while_true].
    now rewrite script_comments_wait.
  - intros n body rest. unfold Package.extract_comments. cbn [while_true].
    now rewrite package_comments_wait.
Qed.

Lemma rate_limit_wait_is_transparent_witness :
  int_time (at_second 50) <= 100 + 1 /\
  100 - int_time (at_second 50) + 1 <= longest_sleep /\
  Script.fetch_issues [rate_limited 100 None; page_of [an_issue]] (at_second 50) =
  Script.fetch_issues [page_of [an_issue]]
    (after_wait IssuesURL (Some "all") 1 100 (at_second 50)).
Proof.
  assert (int_time (at_second 50) <= 100 + 1) as Hle by (vm_compute; discriminate).
  assert (100 - int_time (at_second 50) + 1 <= longest_sleep) as Hmax
    by (vm_compute; discriminate).
  split; [exact Hle|]. split; [exact Hmax|].
  exact (proj1 (proj2 (proj2 (proj2 (proj2 (proj2
           (rate_limit_wait_is_transparent 100 (at_second 50) Hle Hmax))))))
           None [page_of [an_issue]]).
Defined.

(** [time.sleep] raises nothing but its two errors. *)
Lemma sleep_raises_error (d : Z) (e : Exn) :
  sleep_raises d = Some e -> sleep_error e.
Proof.
  unfold sleep_raises, sleep_error.
  destruct ((d * 1000 <? -9223372036854775808) || (9223372036854775807 <? d * 1000));
    [|destruct (d <? 0)]; intros H; inversion H; auto.
Qed.

(** The wait for a reset time that the header gives: it sleeps once, or the
    sleep raises. *)
Lemma wait_for_reset_cases {A : Type} (resp : Response A) (T : Z) (w : World) :
  ratelimit_reset resp = IntValue T ->
  (exists d, wait_for_reset resp w =
             inr {| clock := clock w + d; trace := trace w ++ [Sleep d] |}) \/
  (exists e, wait_for_reset resp w = inl e /\ sleep_error e).
Proof.
  intros Hreset. unfold wait_for_reset, sleep. rewrite Hreset.
  destruct (sleep_raises ((T - int_time w + 1) * second)) as [e|] eqn:Hraises.
  - right. exists e. split; [reflexivity|]. now apply (sleep_raises_error _ _ Hraises).
  - left. now eexists.
Qed.

Ltac retry_or_raise_step T body :=
  cbn [rate_limited status_code];
  change (403 =? 403) with true; cbv iota;
  change (rate_limit_exhausted (mkResponse 403 (Some "0") (IntValue T) body)) with true;
  cbv iota;
  match goal with
  | |- context [wait_for_reset ?resp ?w1] =>
      destruct (wait_for_reset_cases resp T w1 eq_refl) as [[d ->]|[e [-> [->| ->]]]]
  end;
  eexists;
  (split;
   [|first [left; reflexivity
           | right; eexists; split; [reflexivity | unfold sleep_error; auto]]]);
  cbn [trace requests_get]; rewrite ?page_requests_app; cbn; now rewrite ?app_nil_r.

Lemma script_issues_retry_or_raise :
  retry_or_raise Script.fetch_issues_iteration IssuesURL.
Proof.
  intros T body p acc w.
  unfold Script.fetch_issues_iteration, Script.fetch_issues_try.
  retry_or_raise_step T body.
Qed.

Lemma package_issues_retry_or_raise (b : bool) :
  retry_or_raise (Package.fetch_issues_iteration b) IssuesURL.
Proof.
  intros T body p acc w.
  unfold Package.fetch_issues_iteration, Package.fetch_issues_try.
  retry_or_raise_step T body.
Qed.

Lemma script_comments_retry_or_raise (n : Z) :
  retry_or_raise (Script.extract_comments_iteration n) (CommentsURL n).
Proof.
  intros T body p acc w.
  unfold Script.extract_comments_iteration, Script.extract_comments_try.
  retry_or_raise_step T body.
Qed.

Lemma package_comments_retry_or_raise (n : Z) :
  retry_or_raise (Package.extract_comments_iteration n) (CommentsURL n).
Proof.
  intros T body p acc w.
  unfold Package.extract_comments_iteration, Package.extract_comments_try.
  retry_or_raise_step T body.
Qed.

Section RepeatedRateLimit.

Context {A : Type}.
Variable iteration : Reply (list A) -> Z * list A -> World -> Control (Z * list A).
Variable endpoint : Endpoint.

Hypothesis one_pass : retry_or_raise iteration endpoint.

Lemma rate_limits_in_a_row : retried_without_cap iteration endpoint.
Proof.
  intros resets body rest p acc. induction resets as [|T resets IH]; intros w replies.
  - left. exists w. split; [reflexivity|]. cbn. now rewrite app_nil_r.
  - subst replies. cbn [map app while_true].
    destruct (one_pass T body p acc w) as (w1 & Hreq & [-> | (e & -> & He)]).
    + destruct (IH w1) as [(w' & Hrun & Hasked) | (e & w' & k & Hrun & He & Hk & Hasked)].
      * left. exists w'. split; [exact Hrun|].
        rewrite Hasked, Hreq, <- app_assoc. reflexivity.
      * right. exists e, w', (S k). split; [exact Hrun|]. split; [exact He|].
        split; [cbn [List.length]; lia|].
        rewrite Hasked, Hreq, <- app_assoc. reflexivity.
    + right. exists e, w1, 1%nat. split; [reflexivity|]. split; [exact He|].
      split; [cbn [List.length]; lia | exact Hreq].
Qed.

End RepeatedRateLimit.

(** X4: there is no cap on the retries. However many rate-limited 403s
    the remote sends in a row, and whatever reset times they report, each
    of the four loops asks for the same page again after each of them and
    keeps its page number and the records gathered so far; it never
    returns, exits or moves to another page because of them. The only way
    out of such a run of replies is the [ValueError] or [OverflowError] of
    a [time.sleep] whose length is negative or too large. With the reset
    times 100, 200 and 300, the first reply handled at second 50, the page
    is asked for four times and the fetch returns it; with the reset times
    100, 160 and 100 the third sleep raises, and the page that was ready is
    never asked for. *)
Theorem rate_limit_is_retried_without_cap :
  retried_without_cap Script.fetch_issues_iteration IssuesURL /\
  (forall b, retried_without_cap (Package.fetch_issues_iteration b) IssuesURL) /\
  (forall n, retried_without_cap (Script.extract_comments_iteration n) (CommentsURL n)) /\
  (forall n, retried_without_cap (Package.extract_comments_iteration n) (CommentsURL n)) /\
  Script.fetch_issues
    [rate_limited 100 None; rate_limited 200 None; rate_limited 300 None;
     page_of [an_issue]] (at_second 50)
  = (Return [an_issue],
     mkWorld (301 * second)
       [Get (request_at IssuesURL (Some "all") 1 (50 * second));
        Sleep (51 * second);
        Get (request_at IssuesURL (Some "all") 1 (101 * second));
        Sleep (100 * second);
        Get (request_at IssuesURL (Some "all") 1 (201 * second));
        Sleep (100 * second);
        Get (request_at IssuesURL (Some "all") 1 (301 * second))]) /\
  Package.extract_comments 8
    [rate_limited 100 None; rate_limited 160 None; rate_limited 100 None;
     page_of [a_comment]] (at_second 50)
  = (Uncaught ValueError,
     mkWorld (161 * second)
       [Get (request_at (CommentsURL 8) None 1 (50 * second));
        Sleep (51 * second);
        Get (request_at (CommentsURL 8) None 1 (101 * second));
        Sleep (60 * second);
        Get (request_at (CommentsURL 8) None 1 (161 * second))]).
Proof.
  split; [|split; [|split; [|split; [|split]]]].
  - apply rate_limits_in_a_row, script_issues_retry_or_raise.
  - intros b. apply rate_limits_in_a_row, package_issues_retry_or_raise.
  - intros n. apply rate_limits_in_a_row, script_comments_retry_or_raise.
  - intros n. apply rate_limits_in_a_row, package_comments_retry_or_raise.
  - reflexivity.
  - reflexivity.
Qed.

(** X5: the reset header is read without a check. A 403 that reports
    remaining quota 0 but carries no [X-RateLimit-Reset] header raises
    [KeyError], and one whose reset header is not a number raises
    [ValueError]; no [except] clause of the four loops catches either, so
    on whatever page it happens the exception reaches the top level right
    after the request, also in the comment fetch and in the package, which
    otherwise swallow their errors. *)
Theorem rate_limited_reply_without_reset_time_raises :
  forall (h : IntHeader) (e : Exn) (w : World),
    reset_error h = Some e ->
    (forall body p acc,
        Script.fetch_issues_iteration (rate_limited_with h body) (p, acc) w =
        Propagate e (after_short IssuesURL (Some "all") p w)) /\
    (forall b body p acc,
        Package.fetch_issues_iteration b (rate_limited_with h body) (p, acc) w =
        Propagate e (after_short IssuesURL (Some (Package.state_param b)) p w)) /\
    (forall n body p acc,
        Script.extract_comments_iteration n (rate_limited_with h body) (p, acc) w =
        Propagate e (after_short (CommentsURL n) None p w)) /\
    (forall n body p acc,
        Package.extract_comments_iteration n (rate_limited_with h body) (p, acc) w =
        Propagate e (after_short (CommentsURL n) None p w)) /\
    (forall body rest,
        Script.fetch_issues (rate_limited_with h body :: rest) w =
        (Uncaught e, after_short IssuesURL (Some "all") 1 w)) /\
    (forall b body rest,
        Package.fetch_issues b (rate_limited_with h body :: rest) w =
        (Uncaught e, after_short IssuesURL (Some (Package.state_param b)) 1 w)) /\
    (forall n body rest,
        Script.extract_comments n (rate_limited_with h body :: rest) w =
        (Uncaught e, after_short (CommentsURL n) None 1 w)) /\
    (forall n body rest,
        Package.extract_comments n (rate_limited_with h body :: rest) w =
        (Uncaught e, after_short (CommentsURL n) None 1 w)).
Proof.
  intros h e w He.
  destruct h as [| |T]; [| |discriminate He]; inversion He; subst e;
    repeat split.
Qed.

Lemma rate_limited_reply_without_reset_time_raises_witness :
  reset_error NoHeader = Some KeyError /\
  Package.extract_comments 8 [rate_limited_with NoHeader None; page_of [a_comment]] start
  = (Uncaught KeyError, after_short (CommentsURL 8) None 1 start).
Proof.
  split; [reflexivity|].
  exact (proj2 (proj2 (proj2 (proj2 (proj2 (proj2 (proj2
           (rate_limited_reply_without_reset_time_raises NoHeader KeyError start
              eq_refl))))))) 8 None [page_of [a_comment]]).
Defined.

(** ** Whatever the remote replies *)

Section AnyReplies.

Context {A : Type}.
Variable iteration : Reply (list A) -> Z * list A -> World -> Control (Z * list A).
Variable endpoint : Endpoint.

Hypothesis one_request : forall r p acc w,
  page_requests (trace (world_of (iteration r (p, acc) w))) =
  page_requests (trace w) ++ [(endpoint, Some p)].

Hypothesis next_page : forall r p acc w,
  match iteration r (p, acc) w with
  | Next (p', _) _ => p' = p \/ p' = p + 1
  | _ => True
  end.

Lemma pages_step_by_step (replies : list (Reply (list A))) :
  forall p acc w,
    exists pages,
      asked_pages w (snd (while_true iteration replies (p, acc) w)) endpoint pages /\
      steps_from p pages /\
      (List.length pages <= List.length replies)%nat.
Proof.
  unfold asked_pages.
  induction replies as [|r rest IH]; intros p acc w.
  - exists []. cbn. rewrite app_nil_r. repeat split. apply Nat.le_refl.
  - cbn [while_true]. pose proof (one_request r p acc w) as Hone.
    pose proof (next_page r p acc w) as Hnext.
    destruct (iteration r (p, acc) w) as [[p' acc'] w1|s1 w1|c w1|e w1];
      cbn [world_of snd] in *.
    + destruct (IH p' acc' w1) as (pages & Hasked & Hsteps & Hlen).
      exists (p :: pages). split; [|split].
      * rewrite Hasked, Hone, <- app_assoc. reflexivity.
      * cbn [steps_from]. split; [reflexivity|].
        destruct Hnext as [->| ->]; [now left | now right].
      * cbn [List.length]. lia.
    + exists [p]. cbn. repeat split; auto. lia.
    + exists [p]. cbn. repeat split; auto. lia.
    + exists [p]. cbn. repeat split; auto. lia.
Qed.

End AnyReplies.

Ltac every_case :=
  repeat (cbv beta iota; innermost_case);
  cbn [world_of trace requests_get sleep clock].

Ltac one_request_step :=
  every_case; rewrite ?page_requests_app; cbn; rewrite ?app_nil_r; reflexivity.

Lemma script_issues_one_request r p acc w :
  page_requests (trace (world_of (Script.fetch_issues_iteration r (p, acc) w))) =
  page_requests (trace w) ++ [(IssuesURL, Some p)].
Proof.
  unfold Script.fetch_issues_iteration, Script.fetch_issues_try,
    Script.fetch_issues_except, wait_for_reset, sleep.
  one_request_step.
Qed.

Lemma package_issues_one_request b r p acc w :
  page_requests (trace (world_of (Package.fetch_issues_iteration b r (p, acc) w))) =
  page_requests (trace w) ++ [(IssuesURL, Some p)].
Proof.
  unfold Package.fetch_issues_iteration, Package.fetch_issues_try,
    Package.fetch_issues_except, wait_for_reset, sleep.
  one_request_step.
Qed.

Lemma script_comments_one_request n r p acc w :
  page_requests (trace (world_of (Script.extract_comments_iteration n r (p, acc) w))) =
  page_requests (trace w) ++ [(CommentsURL n, Some p)].
Proof.
  unfold Script.extract_comments_iteration, Script.extract_comments_try,
    Script.extract_comments_except, wait_for_reset, sleep.
  one_request_step.
Qed.

Lemma package_comments_one_request n r p acc w :
  page_requests (trace (world_of (Package.extract_comments_iteration n r (p, acc) w))) =
  page_requests (trace w) ++ [(CommentsURL n, Some p)].
Proof.
  unfold Package.extract_comments_iteration, Package.extract_comments_try,
    Package.extract_comments_except, wait_for_reset, sleep.
  one_request_step.
Qed.

Ltac next_page_step := every_case; auto.

Lemma script_issues_next_page r p acc w :
  match Script.fetch_issues_iteration r (p, acc) w with
  | Next (p', _) _ => p' = p \/ p' = p + 1
  | _ => True
  end.
Proof.
  unfold Script.fetch_issues_iteration, Script.fetch_issues_try,
    Script.fetch_issues_except, wait_for_reset, sleep.
  next_page_step.
Qed.

Lemma package_issues_next_page b r p acc w :
  match Package.fetch_issues_iteration b r (p, acc) w with
  | Next (p', _) _ => p' = p \/ p' = p + 1
  | _ => True
  end.
Proof.
  unfold Package.fetch_issues_iteration, Package.fetch_issues_try,
    Package.fetch_issues_except, wait_for_reset, sleep.
  next_page_step.
Qed.

Lemma script_comments_next_page n r p acc w :
  match Script.extract_comments_iteration n r (p, acc) w with
  | Next (p', _) _ => p' = p \/ p' = p + 1
  | _ => True
  end.
Proof.
  unfold Script.extract_comments_iteration, Script.extract_comments_try,
    Script.extract_comments_except, wait_for_reset, sleep.
  next_page_step.
Qed.

Lemma package_comments_next_page n r p acc w :
  match Package.extract_comments_iteration n r (p, acc) w with
  | Next (p', _) _ => p' = p \/ p' = p + 1
  | _ => True
  end.
Proof.
  unfold Package.extract_comments_iteration, Package.extract_comments_try,
    Package.extract_comments_except, wait_for_reset, sleep.
  next_page_step.
Qed.

(** X6: whatever the remote replies (pages, errors, rate limits, in any
    order), every fetch sends one request for each reply it consumes, all to
    its own endpoint; the first asks for page 1 and each later one asks for
    the page just asked for or for the next one. No page is skipped and
    none is asked for again once a later page was asked for. *)
Theorem pages_are_asked_in_order :
  forall (w : World),
    (forall replies, exists pages,
        asked_pages w (snd (Script.fetch_issues replies w)) IssuesURL pages /\
        steps_from 1 pages /\ (List.length pages <= List.length replies)%nat) /\
    (forall b replies, exists pages,
        asked_pages w (snd (Package.fetch_issues b replies w)) IssuesURL pages /\
        steps_from 1 pages /\ (List.length pages <= List.length replies)%nat) /\
    (forall n replies, exists pages,
        asked_pages w (snd (Script.extract_comments n replies w)) (CommentsURL n) pages /\
        steps_from 1 pages /\ (List.length pages <= List.length replies)%nat) /\
    (forall n replies, exists pages,
        asked_pages w (snd (Package.extract_comments n replies w)) (CommentsURL n) pages /\
        steps_from 1 pages /\ (List.length pages <= List.length replies)%nat).
Proof.
  intros w. repeat split.
  - intros replies. unfold Script.fetch_issues. rewrite snd_bind.
    apply (pages_step_by_step Script.fetch_issues_iteration IssuesURL
             script_issues_one_request script_issues_next_page).
  - intros b replies. unfold Package.fetch_issues. rewrite (snd_bind _ snd).
    apply (pages_step_by_step (Package.fetch_issues_iteration b) IssuesURL
             (package_issues_one_request b) (package_issues_next_page b)).
  - intros n replies. unfold Script.extract_comments. rewrite (snd_bind _ snd).
    apply (pages_step_by_step (Script.extract_comments_iteration n) (CommentsURL n)
             (script_comments_one_request n) (script_comments_next_page n)).
  - intros n replies. unfold Package.extract_comments. rewrite (snd_bind _ snd).
    apply (pages_step_by_step (Package.extract_comments_iteration n) (CommentsURL n)
             (package_comments_one_request n) (package_comments_next_page n)).
Qed.

Section HowLoopsEnd.

Context {S A : Type}.
Variable iteration : Reply A -> S -> World -> Control S.
Variable allowed : Reply A -> Prop.
Variable exit_ok : Z -> Prop.
Variable exn_ok : Exn -> Prop.

Hypothesis pass_ends : forall r s w,
  allowed r -> ends_within_pass exit_ok exn_ok (iteration r s w).

Lemma loop_ends_within (replies : list (Reply A)) :
  forall s w,
    Forall allowed replies ->
    ends_within exit_ok exn_ok (fst (while_true iteration replies s w)).
Proof.
  induction replies as [|r rest IH]; intros s w Hall; [exact I|].
  inversion Hall as [|? ? Hr Hrest]; subst.
  cbn [while_true]. pose proof (pass_ends r s w Hr) as Hpass.
  destruct (iteration r s w) as [s1 w1|s1 w1|c w1|e w1];
    cbn [fst ends_within ends_within_pass] in *; auto.
Qed.

End HowLoopsEnd.

Lemma ends_within_bind {A B : Type} exit_ok exn_ok (m : Outcome A * World) (f : A -> B) :
  ends_within exit_ok exn_ok (fst m) ->
  ends_within exit_ok exn_ok (fst (bind m (fun a w => (Return (f a), w)))).
Proof. destruct m as [[a|c|e|] w]; cbn; auto. Qed.

Ltac ending_step :=
  intros [|?resp] [?p ?acc] ?w; cbn [is_rate_limited]; cbv beta iota;
  try change (sleep_raises 500000) with (@None Exn);
  try change (sleep_raises 100000) with (@None Exn);
  unfold sleep_raises;
  repeat (cbv beta iota; cbn [is_RequestException]; innermost_case);
  unfold rate_limit_error, never, no_exception;
  cbn; intros; try discriminate; auto.

Lemma script_issues_ends r s w :
  True ->
  ends_within_pass (fun c => c = 1) rate_limit_error (Script.fetch_issues_iteration r s w).
Proof.
  revert r s w.
  unfold ends_within_pass, Script.fetch_issues_iteration, Script.fetch_issues_try,
    Script.fetch_issues_except, wait_for_reset, sleep.
  ending_step.
Qed.

Lemma package_issues_ends b r s w :
  True ->
  ends_within_pass never rate_limit_error (Package.fetch_issues_iteration b r s w).
Proof.
  revert r s w.
  unfold ends_within_pass, Package.fetch_issues_iteration, Package.fetch_issues_try,
    Package.fetch_issues_except, wait_for_reset, sleep.
  ending_step.
Qed.

Lemma script_comments_ends n r s w :
  True ->
  ends_within_pass never rate_limit_error (Script.extract_comments_iteration n r s w).
Proof.
  revert r s w.
  unfold ends_within_pass, Script.extract_comments_iteration,
    Script.extract_comments_try, Script.extract_comments_except, wait_for_reset, sleep.
  ending_step.
Qed.

Lemma package_comments_ends n r s w :
  True ->
  ends_within_pass never rate_limit_error (Package.extract_comments_iteration n r s w).
Proof.
  revert r s w.
  unfold ends_within_pass, Package.extract_comments_iteration,
    Package.extract_comments_try, Package.extract_comments_except, wait_for_reset, sleep.
  ending_step.
Qed.

Lemma script_issues_ends_quietly r s w :
  is_rate_limited r = false ->
  ends_within_pass (fun c => c = 1) no_exception (Script.fetch_issues_iteration r s w).
Proof.
  revert r s w.
  unfold ends_within_pass, Script.fetch_issues_iteration, Script.fetch_issues_try,
    Script.fetch_issues_except, wait_for_reset, sleep.
  ending_step.
Qed.

Lemma package_issues_ends_quietly b r s w :
  is_rate_limited r = false ->
  ends_within_pass never no_exception (Package.fetch_issues_iteration b r s w).
Proof.
  revert r s w.
  unfold ends_within_pass, Package.fetch_issues_iteration, Package.fetch_issues_try,
    Package.fetch_issues_except, wait_for_reset, sleep.
  ending_step.
Qed.

Lemma script_comments_ends_quietly n r s w :
  is_rate_limited r = false ->
  ends_within_pass never no_exception (Script.extract_comments_iteration n r s w).
Proof.
  revert r s w.
  unfold ends_within_pass, Script.extract_comments_iteration,
    Script.extract_comments_try, Script.extract_comments_except, wait_for_reset, sleep.
  ending_step.
Qed.

Lemma package_comments_ends_quietly n r s w :
  is_rate_limited r = false ->
  ends_within_pass never no_exception (Package.extract_comments_iteration n r s w).
Proof.
  revert r s w.
  unfold ends_within_pass, Package.extract_comments_iteration,
    Package.extract_comments_try, Package.extract_comments_except, wait_for_reset, sleep.
  ending_step.
Qed.

(** X7: how a fetch can end. [extract_comments] of either file and
    [fetch_issues] of the package never end the process through [sys.exit],
    and [fetch_issues] of the script does so with status 1 only. The only
    exceptions that leave any of the four loops are those of the rate-limit
    branch: the [KeyError] and [ValueError] of a reset header that is
    missing or is not a number, and the [ValueError] and [OverflowError] of
    a [time.sleep] whose length is negative or too large. So when no reply
    is a 403 that reports remaining quota 0, no exception leaves them at
    all, and the comment fetch and the package's issue fetch can only
    return. *)
Theorem how_a_fetch_ends :
  (forall replies w,
      ends_within (fun c => c = 1) rate_limit_error (fst (Script.fetch_issues replies w))) /\
  (forall b replies w,
      ends_within never rate_limit_error (fst (Package.fetch_issues b replies w))) /\
  (forall n replies w,
      ends_within never rate_limit_error (fst (Script.extract_comments n replies w))) /\
  (forall n replies w,
      ends_within never rate_limit_error (fst (Package.extract_comments n replies w))) /\
  (forall replies w,
      Forall (fun r => is_rate_limited r = false) replies ->
      ends_within (fun c => c = 1) no_exception (fst (Script.fetch_issues replies w))) /\
  (forall b replies w,
      Forall (fun r => is_rate_limited r = false) replies ->
      ends_within never no_exception (fst (Package.fetch_issues b replies w))) /\
  (forall n replies w,
      Forall (fun r => is_rate_limited r = false) replies ->
      ends_within never no_exception (fst (Script.extract_comments n replies w))) /\
  (forall n replies w,
      Forall (fun r => is_rate_limited r = false) replies ->
      ends_within never no_exception (fst (Package.extract_comments n replies w))).
Proof.
  assert (forall (A : Type) (l : list A), Forall (fun _ => True) l) as Htrue.
  { intros A l. apply Forall_forall. trivial. }
  repeat split.
  - intros replies w. apply ends_within_bind.
    apply (loop_ends_within _ (fun _ => True) _ _ script_issues_ends), Htrue.
  - intros b replies w. apply (ends_within_bind _ _ _ snd).
    apply (loop_ends_within _ (fun _ => True) _ _ (package_issues_ends b)), Htrue.
  - intros n replies w. apply (ends_within_bind _ _ _ snd).
    apply (loop_ends_within _ (fun _ => True) _ _ (script_comments_ends n)), Htrue.
  - intros n replies w. apply (ends_within_bind _ _ _ snd).
    apply (loop_ends_within _ (fun _ => True) _ _ (package_comments_ends n)), Htrue.
  - intros replies w Hq. apply ends_within_bind.
    now apply (loop_ends_within _ _ _ _ script_issues_ends_quietly).
  - intros b replies w Hq. apply (ends_within_bind _ _ _ snd).
    now apply (loop_ends_within _ _ _ _ (package_issues_ends_quietly b)).
  - intros n replies w Hq. apply (ends_within_bind _ _ _ snd).
    now apply (loop_ends_within _ _ _ _ (script_comments_ends_quietly n)).
  - intros n replies w Hq. apply (ends_within_bind _ _ _ snd).
    now apply (loop_ends_within _ _ _ _ (package_comments_ends_quietly n)).
Qed.

Lemma how_a_fetch_ends_witness :
  ends_within never no_exception
    (fst (Package.extract_comments 8 [page_of (repeat a_comment 100); server_error] start)).
Proof.
  apply (proj2 (proj2 (proj2 (proj2 (proj2 (proj2 (proj2 how_a_fetch_ends))))))).
  repeat constructor.
Defined.

(** ** The linkage check and the loops of [main] *)

(** X8: [check_issue_has_pr] answers [True] exactly when the search call
    comes back with status 200 and a JSON object whose [total_count] is
    present and positive. It sends one request and never sleeps or asks
    again: on a rate-limited 403 too it answers [False] at once, so the
    rate limit that the fetch loops wait out makes this check keep the
    issue. *)
Theorem check_issue_has_pr_answer :
  forall (n : Z) (r : Reply SearchResult) (w : World),
    (fst (Package.check_issue_has_pr n r w) = true <->
     exists resp count,
       r = Responds resp /\ status_code resp = 200 /\
       json resp = Some (mkSearchResult (Some count)) /\ 0 < count) /\
    snd (Package.check_issue_has_pr n r w) =
      {| clock := clock w; trace := trace w ++ [Get (search_request n (clock w))] |} /\
    (is_rate_limited r = true -> fst (Package.check_issue_has_pr n r w) = false).
Proof.
  intros n r w. unfold Package.check_issue_has_pr. split; [|split].
  - destruct r as [|resp]; cbn [fst].
    + split; [discriminate | intros (resp & c & H & _); discriminate H].
    + destruct (status_code resp =? 200) eqn:H200.
      * apply Z.eqb_eq in H200.
        destruct (json resp) as [[[c|]]|] eqn:Hjson; cbn [fst total_count].
        -- rewrite Z.gtb_gt. split.
           ++ intros Hc. exists resp, c. repeat split; trivial. lia.
           ++ intros (resp' & c' & Hr & _ & Hj & Hc). inversion Hr; subst resp'.
              rewrite Hjson in Hj. inversion Hj; subst. lia.
        -- split; [discriminate|].
           intros (resp' & c' & Hr & _ & Hj & _). inversion Hr; subst resp'.
           rewrite Hjson in Hj. discriminate Hj.
        -- split; [discriminate|].
           intros (resp' & c' & Hr & _ & Hj & _). inversion Hr; subst resp'.
           rewrite Hjson in Hj. discriminate Hj.
      * cbn [fst]. split; [discriminate|].
        intros (resp' & c' & Hr & Hs & _). inversion Hr; subst resp'.
        rewrite Hs in H200. discriminate H200.
  - destruct r as [|resp]; [reflexivity|].
    destruct (status_code resp =? 200); [|reflexivity].
    destruct (json resp); reflexivity.
  - destruct r as [|resp]; [discriminate|]. cbn [is_rate_limited]. intros H.
    apply andb_prop in H as [H403 _]. apply Z.eqb_eq in H403. rewrite H403.
    reflexivity.
Qed.

Lemma check_issue_has_pr_answer_witness :
  fst (Package.check_issue_has_pr 8 (rate_limited 100 None) start) = false.
Proof.
  apply (proj2 (proj2 (check_issue_has_pr_answer 8 (rate_limited 100 None) start))).
  reflexivity.
Defined.

Lemma check_issue_has_pr_world n r w :
  snd (Package.check_issue_has_pr n r w) =
  {| clock := clock w; trace := trace w ++ [Get (search_request n (clock w))] |}.
Proof.
  unfold Package.check_issue_has_pr. destruct r as [|resp]; [reflexivity|].
  destruct (status_code resp =? 200); [|reflexivity].
  destruct (json resp); reflexivity.
Qed.

Lemma after_checks_clock (issues : list Issue) :
  forall w, clock (after_checks issues w) = clock w + len issues * 100000.
Proof.
  induction issues as [|i issues IH]; intros w.
  - unfold len. simpl. lia.
  - cbn [after_checks]. rewrite IH, len_cons. cbn [clock]. lia.
Qed.

Lemma after_checks_requests (issues : list Issue) :
  forall w,
    map url (requests (trace (after_checks issues w))) =
    map url (requests (trace w)) ++ map (fun i => SearchURL (number i)) issues.
Proof.
  induction issues as [|i issues IH]; intros w.
  - simpl. now rewrite app_nil_r.
  - cbn [after_checks]. rewrite IH. cbn [trace]. rewrite !requests_app.
    cbn [requests]. rewrite app_nil_r, map_app, <- app_assoc. reflexivity.
Qed.

(** X9: the loop of [main] that drops the issues with a pull request always
    runs to its end. It calls the search endpoint once for every issue, in
    the order of the list, with a tenth of a second after each call, and
    returns, in their order, exactly the issues for which
    [check_issue_has_pr] answered [False]. *)
Theorem filter_issues_run :
  forall (remote : Remote) (issues filtered : list Issue) (w : World),
    Package.filter_issues remote issues filtered w =
    (Return (filtered ++ filter (fun i => negb (has_pr remote i)) issues),
     after_checks issues w) /\
    map url (requests (trace (after_checks issues w))) =
    map url (requests (trace w)) ++ map (fun i => SearchURL (number i)) issues /\
    clock (after_checks issues w) = clock w + len issues * 100000.
Proof.
  intros remote issues filtered w.
  split; [|split; [apply after_checks_requests | apply after_checks_clock]].
  revert filtered w. induction issues as [|issue rest IH]; intros filtered w.
  - cbn. now rewrite app_nil_r.
  - cbn [Package.filter_issues filter after_checks].
    pose proof (check_issue_has_pr_any_world remote issue w) as Hany.
    pose proof (check_issue_has_pr_world (number issue)
                  (search_api remote (number issue)) w) as Hworld.
    destruct (Package.check_issue_has_pr (number issue)
                (search_api remote (number issue)) w) as [b w1].
    cbn [fst snd] in Hany, Hworld. subst b w1.
    unfold time_sleep, sleep. change (sleep_raises 100000) with (@None Exn). cbv iota. cbn [bind].
    cbn [clock trace]. rewrite IH.
    destruct (has_pr remote issue); cbn [negb]; [reflexivity|].
    now rewrite <- app_assoc.
Qed.

(** X10: with [--no-comments] the loop of [main] over the issues sends no
    request and takes no time: it records every issue, in order, with a
    comment count of 0. *)
Theorem no_comments_skips_the_comment_fetch :
  forall (args : Package.Args) (remote : Remote) (issues : list Issue)
         (processed : list Processed) (w : World),
    Package.no_comments args = true ->
    Package.process_issues args remote issues processed w =
    (Return (processed ++ map (fun i => mkProcessed (number i) 0) issues), w).
Proof.
  intros args remote issues processed w Hflag. revert processed.
  induction issues as [|issue rest IH]; intros processed.
  - cbn. now rewrite app_nil_r.
  - cbn [Package.process_issues]. rewrite Hflag. cbn [negb bind].
    rewrite IH. cbn [map]. now rewrite <- app_assoc.
Qed.

Lemma no_comments_skips_the_comment_fetch_witness :
  Package.process_issues (Package.mkArgs true false false) commented_repository
    [an_issue; an_issue] [] start
  = (Return ([] ++ map (fun i => mkProcessed (number i) 0) [an_issue; an_issue]), start).
Proof.
  apply (no_comments_skips_the_comment_fetch
           (Package.mkArgs true false false) commented_repository
           [an_issue; an_issue] [] start).
  reflexivity.
Defined.

Ltac exact_request_step :=
  every_case; rewrite ?requests_app; cbn [requests app]; rewrite ?app_nil_r;
  reflexivity.

Lemma script_issues_request r p acc w :
  requests (trace (world_of (Script.fetch_issues_iteration r (p, acc) w))) =
  requests (trace w) ++ [request_at IssuesURL (Some "all") p (clock w)].
Proof.
  unfold Script.fetch_issues_iteration, Script.fetch_issues_try,
    Script.fetch_issues_except, wait_for_reset, sleep.
  exact_request_step.
Qed.

Lemma package_issues_request b r p acc w :
  requests (trace (world_of (Package.fetch_issues_iteration b r (p, acc) w))) =
  requests (trace w) ++ [request_at IssuesURL (Some (Package.state_param b)) p (clock w)].
Proof.
  unfold Package.fetch_issues_iteration, Package.fetch_issues_try,
    Package.fetch_issues_except, wait_for_reset, sleep.
  exact_request_step.
Qed.

Lemma script_comments_request n r p acc w :
  requests (trace (world_of (Script.extract_comments_iteration n r (p, acc) w))) =
  requests (trace w) ++ [request_at (CommentsURL n) None p (clock w)].
Proof.
  unfold Script.extract_comments_iteration, Script.extract_comments_try,
    Script.extract_comments_except, wait_for_reset, sleep.
  exact_request_step.
Qed.

Lemma package_comments_request n r p acc w :
  requests (trace (world_of (Package.extract_comments_iteration n r (p, acc) w))) =
  requests (trace w) ++ [request_at (CommentsURL n) None p (clock w)].
Proof.
  unfold Package.extract_comments_iteration, Package.extract_comments_try,
    Package.extract_comments_except, wait_for_reset, sleep.
  exact_request_step.
Qed.

(** A property of requests that every request of a loop has is kept by the
    loop. *)
Section RequestInvariant.

Context {A : Type}.
Variable iteration : Reply (list A) -> Z * list A -> World -> Control (Z * list A).
Variable endpoint : Endpoint.
Variable st : option string.
Variable P : Request -> Prop.

Hypothesis sends : forall r p acc w,
  requests (trace (world_of (iteration r (p, acc) w))) =
  requests (trace w) ++ [request_at endpoint st p (clock w)].

Hypothesis fits : forall p t, P (request_at endpoint st p t).

Lemma loop_keeps_requests (replies : list (Reply (list A))) :
  forall s w,
    Forall P (requests (trace w)) ->
    Forall P (requests (trace (snd (while_true iteration replies s w)))).
Proof.
  intros s w. apply (while_true_world_invariant iteration
                       (fun w => Forall P (requests (trace w)))).
  intros r [p acc] w0 Hw0. rewrite sends. apply Forall_app. split; [exact Hw0|].
  constructor; [apply fits | constructor].
Qed.

End RequestInvariant.

Lemma bind_keeps {A B : Type} (Q : World -> Prop) (m : Outcome A * World)
    (k : A -> World -> Outcome B * World) :
  Q (snd m) -> (forall a w, Q w -> Q (snd (k a w))) -> Q (snd (bind m k)).
Proof. destruct m as [[a|c|e|] w]; cbn; auto. Qed.

Lemma not_search_issues st p t n : url (request_at IssuesURL st p t) <> SearchURL n.
Proof. discriminate. Qed.

Lemma not_search_comments m st p t n :
  url (request_at (CommentsURL m) st p t) <> SearchURL n.
Proof. discriminate. Qed.

Lemma script_fetch_issues_no_search replies w :
  no_search w -> no_search (snd (Script.fetch_issues replies w)).
Proof.
  intros Hw. unfold Script.fetch_issues. rewrite snd_bind.
  apply (loop_keeps_requests Script.fetch_issues_iteration IssuesURL (Some "all") _
           script_issues_request); [intros p t n; apply not_search_issues | exact Hw].
Qed.

Lemma package_fetch_issues_no_search b replies w :
  no_search w -> no_search (snd (Package.fetch_issues b replies w)).
Proof.
  intros Hw. unfold Package.fetch_issues. rewrite (snd_bind _ snd).
  apply (loop_keeps_requests (Package.fetch_issues_iteration b) IssuesURL
           (Some (Package.state_param b)) _ (package_issues_request b));
    [intros p t n; apply not_search_issues | exact Hw].
Qed.

Lemma script_extract_comments_no_search m replies w :
  no_search w -> no_search (snd (Script.extract_comments m replies w)).
Proof.
  intros Hw. unfold Script.extract_comments. rewrite (snd_bind _ snd).
  apply (loop_keeps_requests (Script.extract_comments_iteration m) (CommentsURL m)
           None _ (script_comments_request m));
    [intros p t n; apply not_search_comments | exact Hw].
Qed.

Lemma package_extract_comments_no_search m replies w :
  no_search w -> no_search (snd (Package.extract_comments m replies w)).
Proof.
  intros Hw. unfold Package.extract_comments. rewrite (snd_bind _ snd).
  apply (loop_keeps_requests (Package.extract_comments_iteration m) (CommentsURL m)
           None _ (package_comments_request m));
    [intros p t n; apply not_search_comments | exact Hw].
Qed.

Lemma time_sleep_requests d w :
  requests (trace (snd (time_sleep d w))) = requests (trace w).
Proof.
  unfold time_sleep, sleep. destruct (sleep_raises d); [reflexivity|].
  cbn [snd trace]. rewrite requests_app. cbn. apply app_nil_r.
Qed.

Lemma script_process_issues_no_search remote issues :
  forall processed w,
    no_search w -> no_search (snd (Script.process_issues remote issues processed w)).
Proof.
  induction issues as [|issue rest IH]; intros processed w Hw; [exact Hw|].
  cbn [Script.process_issues]. apply bind_keeps.
  - now apply script_extract_comments_no_search.
  - intros comments w1 Hw1. apply bind_keeps.
    + unfold no_search. now rewrite time_sleep_requests.
    + intros _ w2 Hw2. now apply IH.
Qed.

Lemma package_process_issues_no_search args remote issues :
  forall processed w,
    no_search w ->
    no_search (snd (Package.process_issues args remote issues processed w)).
Proof.
  induction issues as [|issue rest IH]; intros processed w Hw; [exact Hw|].
  cbn [Package.process_issues]. apply bind_keeps.
  - destruct (negb (Package.no_comments args)); [|exact Hw].
    now apply package_extract_comments_no_search.
  - intros comments w1 Hw1. now apply IH.
Qed.

(** X11: the pull-request search runs only for [--no-pr] without
    [--open-only]. In every other run of the package's [main], also with
    both flags given, and in every run of the script's [main], no request
    is sent to the search endpoint: with [--open-only --no-pr] the issues
    that have a linked pull request are not looked for, and stay. *)
Theorem search_runs_only_for_no_pr_alone :
  forall (U : Unicode),
  (forall args remote w,
      Package.no_pr args && negb (Package.open_only args) = false ->
      no_search w -> no_search (snd (Package.main args remote w))) /\
  (forall remote w,
      no_search w -> no_search (snd (Script.main remote w))).
Proof.
  intros U.
  split.
  - intros args remote w Hflags Hw. unfold Package.main. rewrite Hflags.
    apply bind_keeps; [now apply package_fetch_issues_no_search|].
    intros issues w1 Hw1. destruct issues as [|i issues]; [exact Hw1|].
    cbn [bind]. apply bind_keeps; [now apply package_process_issues_no_search|].
    intros processed w2 Hw2. exact Hw2.
  - intros remote w Hw. unfold Script.main.
    apply bind_keeps; [now apply script_fetch_issues_no_search|].
    intros issues w1 Hw1. destruct issues as [|i issues]; [exact Hw1|].
    apply bind_keeps; [now apply script_process_issues_no_search|].
    intros processed w2 Hw2. exact Hw2.
Qed.

Lemma search_runs_only_for_no_pr_alone_witness :
  no_search
    (snd (@Package.main ascii_only (Package.mkArgs false true true)
            commented_repository start)).
Proof.
  apply (proj1 (search_runs_only_for_no_pr_alone ascii_only)
           (Package.mkArgs false true true) commented_repository start).
  - reflexivity.
  - constructor.
Defined.

Lemma script_process_issues_records remote issues :
  forall processed w ps w',
    Script.process_issues remote issues processed w = (Return ps, w') ->
    exists entries,
      ps = processed ++ entries /\
      Forall2 (recorded (fun n w => Script.extract_comments n (comments_api remote n) w))
              issues entries.
Proof.
  induction issues as [|issue rest IH]; intros processed w ps w' Hrun.
  - cbn in Hrun. inversion Hrun; subst. exists []. split; [now rewrite app_nil_r|].
    constructor.
  - cbn [Script.process_issues] in Hrun.
    destruct (Script.extract_comments (number issue)
                (comments_api remote (number issue)) w)
      as [[comments|c|e|] w1] eqn:Hfetch; cbn [bind] in Hrun; try discriminate Hrun.
    destruct (time_sleep 100000 w1) as [[[]|c|e|] w2]; cbn [bind] in Hrun;
      try discriminate Hrun.
    destruct (IH _ _ _ _ Hrun) as (entries & Hps & Hrec).
    exists (mkProcessed (number issue) (len comments) :: entries). split.
    + rewrite Hps, <- app_assoc. reflexivity.
    + constructor; [|exact Hrec]. split; [reflexivity|].
      exists w, comments. rewrite Hfetch. split; reflexivity.
Qed.

Lemma package_process_issues_records args remote issues :
  forall processed w ps w',
    Package.process_issues args remote issues processed w = (Return ps, w') ->
    exists entries,
      ps = processed ++ entries /\
      Forall2 (recorded (fun n w =>
                 if negb (Package.no_comments args)
                 then Package.extract_comments n (comments_api remote n) w
                 else (Return [], w)))
              issues entries.
Proof.
  induction issues as [|issue rest IH]; intros processed w ps w' Hrun.
  - cbn in Hrun. inversion Hrun; subst. exists []. split; [now rewrite app_nil_r|].
    constructor.
  - cbn [Package.process_issues] in Hrun.
    destruct (if negb (Package.no_comments args)
              then Package.extract_comments (number issue)
                     (comments_api remote (number issue)) w
              else (Return [], w))
      as [[comments|c|e|] w1] eqn:Hfetch; cbn [bind] in Hrun; try discriminate Hrun.
    destruct (IH _ _ _ _ Hrun) as (entries & Hps & Hrec).
    exists (mkProcessed (number issue) (len comments) :: entries). split.
    + rewrite Hps, <- app_assoc. reflexivity.
    + constructor; [|exact Hrec]. split; [reflexivity|].
      exists w, comments. rewrite Hfetch. split; reflexivity.
Qed.

(** X12: what [main] has computed when it starts printing. When [main]
    gets that far, the issue fetch had returned a list that is not empty;
    [processed_issues], before the printing sorts it by number, holds one
    entry for each issue that is left after the optional pull-request
    filter, in the order of the list, with the issue's number and the
    number of comments that the comment fetch returned for it (0 under
    [--no-comments]); and the four analyses were run on that same list.
    The package does not check again whether the filter left anything: the
    report can be empty. *)
Theorem main_reports_the_fetched_issues :
  forall (U : Unicode),
  (forall remote w report w',
      Script.main remote w = (Return (Some report), w') ->
      exists issues w1,
        Script.fetch_issues (issues_api remote) w = (Return issues, w1) /\
        issues <> [] /\
        Forall2 (recorded (fun n w => Script.extract_comments n (comments_api remote n) w))
                issues (processed_issues report) /\
        analysis_of issues (clock w') report) /\
  (forall args remote w report w',
      Package.main args remote w = (Return (Some report), w') ->
      exists issues w1,
        Package.fetch_issues (Package.open_only args && Package.no_pr args)
          (issues_api remote) w = (Return issues, w1) /\
        issues <> [] /\
        let kept :=
          if Package.no_pr args && negb (Package.open_only args)
          then filter (fun i => negb (has_pr remote i)) issues
          else issues in
        Forall2 (recorded (fun n w =>
                   if negb (Package.no_comments args)
                   then Package.extract_comments n (comments_api remote n) w
                   else (Return [], w)))
                kept (processed_issues report) /\
        analysis_of kept (clock w') report).
Proof.
  intros U.
  split.
  - intros remote w report w' Hmain. unfold Script.main in Hmain.
    destruct (Script.fetch_issues (issues_api remote) w)
      as [[issues|c|e|] w1] eqn:Hfetch; cbn [bind] in Hmain; try discriminate Hmain.
    destruct issues as [|i issues]; [discriminate Hmain|].
    destruct (Script.process_issues remote (i :: issues) [] w1)
      as [[ps|c|e|] w2] eqn:Hproc; cbn [bind] in Hmain; try discriminate Hmain.
    inversion Hmain; subst.
    destruct (script_process_issues_records _ _ _ _ _ _ Hproc) as (entries & Hps & Hrec).
    cbn [app] in Hps. subst ps.
    exists (i :: issues), w1. split; [reflexivity|]. split; [discriminate|].
    split; [exact Hrec|]. repeat split.
  - intros args remote w report w' Hmain. unfold Package.main in Hmain.
    destruct (Package.fetch_issues (Package.open_only args && Package.no_pr args)
                (issues_api remote) w)
      as [[issues|c|e|] w1] eqn:Hfetch; cbn [bind] in Hmain; try discriminate Hmain.
    destruct issues as [|i issues]; [discriminate Hmain|].
    exists (i :: issues), w1. split; [reflexivity|]. split; [discriminate|].
    destruct (Package.no_pr args && negb (Package.open_only args)).
    + destruct (filter_issues_run remote (i :: issues) [] w1) as [Hfilter _].
      rewrite Hfilter in Hmain. cbn [bind app] in Hmain.
      destruct (Package.process_issues args remote
                  (filter (fun i0 => negb (has_pr remote i0)) (i :: issues)) []
                  (after_checks (i :: issues) w1))
        as [[ps|c|e|] w2] eqn:Hproc; cbn [bind] in Hmain; try discriminate Hmain.
      inversion Hmain; subst.
      destruct (package_process_issues_records _ _ _ _ _ _ _ Hproc)
        as (entries & Hps & Hrec).
      cbn [app] in Hps. subst ps. split; [exact Hrec|]. repeat split.
    + cbn [bind] in Hmain.
      destruct (Package.process_issues args remote (i :: issues) [] w1)
        as [[ps|c|e|] w2] eqn:Hproc; cbn [bind] in Hmain; try discriminate Hmain.
      inversion Hmain; subst.
      destruct (package_process_issues_records _ _ _ _ _ _ _ Hproc)
        as (entries & Hps & Hrec).
      cbn [app] in Hps. subst ps. split; [exact Hrec|]. repeat split.
Qed.

Lemma main_reports_the_fetched_issues_witness :
  exists issues w1,
    Script.fetch_issues (issues_api small_repository) start = (Return issues, w1) /\
    issues <> [] /\
    Forall2 (recorded (fun n w =>
               Script.extract_comments n (comments_api small_repository n) w))
            issues
            (processed_issues
               (analyse (U := ascii_only) [an_issue] [mkProcessed 8 0]
                  (snd (Script.main (U := ascii_only) small_repository start)))) /\
    analysis_of (U := ascii_only) issues
      (clock (snd (Script.main (U := ascii_only) small_repository start)))
      (analyse (U := ascii_only) [an_issue] [mkProcessed 8 0]
         (snd (Script.main (U := ascii_only) small_repository start))).
Proof.
  apply (proj1 (main_reports_the_fetched_issues ascii_only) small_repository start).
  reflexivity.
Defined.

(** X13: [main] returns early, without a report, exactly when the issue
    fetch returns an empty list. The package's fetch returns the empty list
    also when its first request fails for good, so there a network failure
    or an HTTP error on page 1 ends the run like a repository without
    issues: no exit status, no exception, no other request. *)
Theorem main_without_issues :
  forall (U : Unicode),
  (forall remote w w',
      Script.main remote w = (Return None, w') <->
      Script.fetch_issues (issues_api remote) w = (Return [], w')) /\
  (forall args remote w w',
      Package.main args remote w = (Return None, w') <->
      Package.fetch_issues (Package.open_only args && Package.no_pr args)
        (issues_api remote) w = (Return [], w')) /\
  (forall args remote bad rest w,
      issues_api remote = bad :: rest ->
      unrecoverable bad = true ->
      exists w',
        Package.main args remote w = (Return None, w') /\
        requests (trace w') =
        requests (trace w)
        ++ [request_at IssuesURL
              (Some (Package.state_param (Package.open_only args && Package.no_pr args)))
              1 (clock w)]).
Proof.
  intros U.
  split; [|split].
  - intros remote w w'. unfold Script.main.
    destruct (Script.fetch_issues (issues_api remote) w) as [[issues|c|e|] w1];
      cbn [bind]; try (split; discriminate).
    destruct issues as [|i issues];
      [split; intros H; inversion H; reflexivity|].
    destruct (Script.process_issues remote (i :: issues) [] w1) as [[ps|c|e|] w2];
      cbn [bind]; split; discriminate.
  - intros args remote w w'. unfold Package.main.
    destruct (Package.fetch_issues (Package.open_only args && Package.no_pr args)
                (issues_api remote) w) as [[issues|c|e|] w1];
      cbn [bind]; try (split; discriminate).
    destruct issues as [|i issues];
      [split; intros H; inversion H; reflexivity|].
    destruct (if Package.no_pr args && negb (Package.open_only args)
              then Package.filter_issues remote (i :: issues) [] w1
              else (Return (i :: issues), w1)) as [[kept|c|e|] w2];
      cbn [bind]; try (split; discriminate).
    destruct (Package.process_issues args remote kept [] w2) as [[ps|c|e|] w3];
      cbn [bind]; split; discriminate.
  - intros args remote bad rest w Hapi Hbad. unfold Package.main, Package.fetch_issues.
    rewrite Hapi. cbn [while_true].
    pose proof (package_issues_request
                  (Package.open_only args && Package.no_pr args) bad 1 [] w) as Hreq.
    destruct (package_issues_unrecoverable
                (Package.open_only args && Package.no_pr args) bad 1 [] w Hbad)
      as (w1 & Hstep).
    rewrite Hstep in Hreq |- *. cbn [world_of] in Hreq. cbn [bind snd].
    exists w1. split; [reflexivity | exact Hreq].
Qed.

Lemma main_without_issues_witness :
  exists w',
    Package.main (U := ascii_only) (Package.mkArgs false false true)
      (mkRemote [server_error] (fun _ => Fails) (fun _ => [])) start
    = (Return None, w') /\
    requests (trace w') =
    requests (trace start)
    ++ [request_at IssuesURL (Some (Package.state_param (false && true))) 1 (clock start)].
Proof.
  apply (proj2 (proj2 (main_without_issues ascii_only)) (Package.mkArgs false false true)
           (mkRemote [server_error] (fun _ => Fails) (fun _ => []))
           server_error [] start); reflexivity.
Defined.

(** ** Summaries *)

Section Summaries.

Context {U : Unicode}.

Lemma unwords_chars (P : char -> Prop) (ws : list text) :
  Forall (fun w => Forall P w) ws ->
  Forall (fun c => c = 32 \/ P c) (unwords ws).
Proof.
  induction ws as [|w ws IH]; [constructor|]. intros H.
  inversion H as [|? ? Hw Hws]; subst. specialize (IH Hws).
  assert (Forall (fun c => c = 32 \/ P c) w) as Hw'
    by (eapply Forall_impl; [|exact Hw]; intros c Hc; now right).
  destruct ws as [|w' ws']; [exact Hw'|].
  change (unwords (w :: w' :: ws')) with (w ++ 32 :: unwords (w' :: ws')).
  apply Forall_app. split; [exact Hw'|]. constructor; [now left | exact IH].
Qed.

(** The words of a text, written with one space between them, hold no
    whitespace but the plain space. *)
Lemma unwords_flat (s : text) : flat (unwords (words s)).
Proof.
  unfold flat. eapply Forall_impl;
    [|apply (unwords_chars (fun c => is_space c = false));
      eapply Forall_impl; [|apply words_shape]; intros w [_ Hw]; exact Hw].
  intros c [Hc|Hc] Hsp; [exact Hc | congruence].
Qed.

Lemma unwords_not_empty (s : text) :
  all_space s = false -> unwords (words s) <> [].
Proof.
  intros Hs. pose proof (words_shape s) as Hshape.
  destruct (words s) as [|w ws] eqn:Hw.
  - apply words_all_space in Hw. congruence.
  - inversion Hshape as [|? ? [Hne _] _]; subst.
    destruct w as [|c w]; [congruence|]. rewrite unwords_cons. discriminate.
Qed.

(** The excerpt that [summarize_issue] makes of a body. *)
Lemma excerpt_cut (limit : nat) (b : text) :
  excerpt limit b = cut limit (unwords (words b)).
Proof.
  unfold excerpt, cut, take. rewrite collapse_strip_words.
  destruct (Nat.ltb_spec limit (List.length (unwords (words b))));
    destruct (Nat.leb_spec (List.length (unwords (words b))) limit);
    try reflexivity; lia.
Qed.

Lemma dots_end : ends_with_space (str "...") = false.
Proof. reflexivity. Qed.

Lemma cut_end (limit : nat) (clean : text) :
  ends_with_space clean = false -> ends_with_space (cut limit clean) = false.
Proof.
  intros H. unfold cut. destruct (Nat.leb (List.length clean) limit); [exact H|].
  rewrite ends_with_space_app by discriminate. apply dots_end.
Qed.

Lemma cut_not_empty (limit : nat) (clean : text) :
  clean <> [] -> cut limit clean <> [].
Proof.
  intros H. unfold cut. destruct (Nat.leb (List.length clean) limit); [exact H|].
  intros Hnil. apply app_eq_nil in Hnil as [_ Hdots]. discriminate Hdots.
Qed.

Lemma cut_length (limit : nat) (clean : text) :
  (List.length (cut limit clean) <= limit + 3)%nat.
Proof.
  unfold cut. destruct (Nat.leb_spec (List.length clean) limit); [lia|].
  rewrite length_app, length_firstn. cbn [List.length str map list_ascii_of_string]. lia.
Qed.

Lemma firstn_Forall {A : Type} (P : A -> Prop) (n : nat) (l : list A) :
  Forall P l -> Forall P (firstn n l).
Proof.
  revert l. induction n as [|n IH]; intros l H; [constructor|].
  destruct l as [|x l]; [constructor|]. inversion H; subst.
  cbn [firstn]. constructor; [assumption | now apply IH].
Qed.

Lemma cut_flat (limit : nat) (clean : text) : flat clean -> flat (cut limit clean).
Proof.
  unfold flat, cut. intros H. destruct (Nat.leb (List.length clean) limit); [exact H|].
  apply Forall_app. split; [now apply firstn_Forall|].
  repeat constructor; discriminate.
Qed.

(** [x.strip()] on a text that ends with one space and has no other
    whitespace at its ends. *)
Lemma strip_trailing_space (x : text) :
  starts_with_space x = false -> ends_with_space x = false -> x <> [] ->
  strip (x ++ [32]) = x.
Proof.
  intros Hstart Hend Hne. unfold strip.
  rewrite lstrip_trimmed by (destruct x; [congruence | exact Hstart]).
  rewrite rstrip_space. now apply rstrip_trimmed.
Qed.

Lemma heading_start (issue : Issue) (rest : text) :
  starts_with_space (heading issue ++ rest) = false.
Proof. reflexivity. Qed.

Lemma nonempty_true (s : text) : s <> [] -> nonempty s = true.
Proof. destruct s; [congruence | reflexivity]. Qed.

End Summaries.

(** X14: what a summary holds of a body that has a word. The body is
    split at its whitespace and its words are written with one space
    between them; the summary holds all of that when it has no more than
    500 characters in the script and 300 in the package, and else its first
    500 or 300 characters followed by three dots. The script writes it
    after the heading and ". Description: ", the package after the heading
    and " - "; nothing follows it. So this part of a summary never has
    more than 503 or 303 characters, and holds no line break or tab: its
    only whitespace is the plain space. *)
Theorem summary_of_a_body :
  forall (U : Unicode) (issue : Issue) (b : text),
    body issue = Some b ->
    all_space b = false ->
    let clean := unwords (words b) in
    Script.summarize_issue issue
      = heading issue ++ str ". Description: " ++ cut 500 clean /\
    Package.summarize_issue issue = heading issue ++ str " - " ++ cut 300 clean /\
    (List.length (cut 500 clean) <= 503)%nat /\
    (List.length (cut 300 clean) <= 303)%nat /\
    flat (cut 500 clean) /\ flat (cut 300 clean).
Proof.
  intros U issue b Hbody Hword clean.
  assert (b <> []) as Hb by (intros ->; discriminate Hword).
  assert (clean <> []) as Hclean by (now apply unwords_not_empty).
  assert (ends_with_space clean = false) as Hend
    by (apply unwords_end, words_shape).
  split; [|split; [|split; [|split; [|split]]]].
  - unfold Script.summarize_issue. rewrite Hbody. cbn [get_or_empty].
    rewrite (nonempty_true b Hb), excerpt_cut. fold clean.
    rewrite (nonempty_true _ (cut_not_empty 500 clean Hclean)).
    transitivity (strip ((heading issue ++ str ". Description: " ++ cut 500 clean)
                         ++ [32])).
    + f_equal. unfold heading. rewrite <- ?app_assoc. reflexivity.
    + apply strip_trailing_space.
      * apply heading_start.
      * rewrite app_assoc, ends_with_space_app
          by (now apply cut_not_empty). now apply cut_end.
      * intros Hnil. apply app_eq_nil in Hnil as [_ Hnil].
        apply app_eq_nil in Hnil as [Hnil _]. discriminate Hnil.
  - unfold Package.summarize_issue. rewrite Hbody. cbn [get_or_empty].
    rewrite (nonempty_true b Hb), excerpt_cut. fold clean.
    rewrite (nonempty_true _ (cut_not_empty 300 clean Hclean)).
    unfold heading. rewrite <- ?app_assoc. reflexivity.
  - apply cut_length.
  - apply cut_length.
  - apply cut_flat, unwords_flat.
  - apply cut_flat, unwords_flat.
Qed.

Lemma summary_of_a_body_witness :
  Script.summarize_issue (U := ascii_only) (with_body 12 "  Steps:
   1. open   the page ")
  = str "Issue #12 [open]: No title. Description: Steps: 1. open the page" /\
  Package.summarize_issue (U := ascii_only) (with_body 12 "  Steps:
   1. open   the page ")
  = str "Issue #12 [open]: No title - Steps: 1. open the page".
Proof.
  pose proof (summary_of_a_body ascii_only (with_body 12 "  Steps:
   1. open   the page ") _ eq_refl eq_refl) as (Hs & Hp & _).
  split; [rewrite Hs | rewrite Hp]; reflexivity.
Defined.

(** X15: a body made of whitespace only is summarized like a missing body:
    the script writes the heading and ". No description provided.", and
    the package writes the heading and nothing after it. *)
Theorem blank_body_is_no_description :
  forall (U : Unicode) (issue : Issue) (b : text),
    body issue = Some b ->
    all_space b = true ->
    Script.summarize_issue issue = Script.summarize_issue (without_body issue) /\
    Package.summarize_issue issue = Package.summarize_issue (without_body issue) /\
    Package.summarize_issue issue = heading issue /\
    Script.summarize_issue issue = heading issue ++ str ". No description provided.".
Proof.
  intros U issue b Hbody Hblank.
  assert ((if nonempty b then excerpt 500 b else b) = []) as H500.
  { destruct b as [|c b]; [reflexivity|]. cbn [nonempty]. rewrite excerpt_cut.
    apply words_all_space in Hblank. now rewrite Hblank. }
  assert ((if nonempty b then excerpt 300 b else b) = []) as H300.
  { destruct b as [|c b]; [reflexivity|]. cbn [nonempty]. rewrite excerpt_cut.
    apply words_all_space in Hblank. now rewrite Hblank. }
  assert (Package.summarize_issue issue = heading issue) as Hp.
  { unfold Package.summarize_issue. rewrite Hbody. cbn [get_or_empty].
    rewrite H300. cbn [nonempty]. unfold heading. rewrite <- ?app_assoc. reflexivity. }
  assert (Script.summarize_issue issue
          = heading issue ++ str ". No description provided.") as Hs.
  { unfold Script.summarize_issue. rewrite Hbody. cbn [get_or_empty].
    rewrite H500. cbn [nonempty].
    transitivity (strip ((heading issue ++ str ". No description provided.") ++ [32])).
    - f_equal. unfold heading. rewrite <- ?app_assoc. reflexivity.
    - apply strip_trailing_space.
      + apply heading_start.
      + rewrite ends_with_space_app by discriminate. reflexivity.
      + intros Hnil. apply app_eq_nil in Hnil as [_ Hnil]. discriminate Hnil. }
  split; [|split; [|split; [exact Hp | exact Hs]]].
  - rewrite Hs. unfold Script.summarize_issue at 1.
    cbn [without_body number title state body get_or_empty nonempty]. symmetry.
    transitivity (strip ((heading issue ++ str ". No description provided.") ++ [32])).
    + f_equal. unfold heading. rewrite <- ?app_assoc. reflexivity.
    + apply strip_trailing_space.
      * apply heading_start.
      * rewrite ends_with_space_app by discriminate. reflexivity.
      * intros Hnil. apply app_eq_nil in Hnil as [_ Hnil]. discriminate Hnil.
  - rewrite Hp. unfold Package.summarize_issue.
    cbn [without_body number title state body get_or_empty nonempty].
    unfold heading. rewrite <- ?app_assoc. reflexivity.
Qed.

Lemma blank_body_is_no_description_witness :
  Script.summarize_issue (U := ascii_only) (with_body 12 "  ")
  = str "Issue #12 [open]: No title. No description provided." /\
  Package.summarize_issue (U := ascii_only) (with_body 12 "  ")
  = str "Issue #12 [open]: No title".
Proof.
  pose proof (blank_body_is_no_description ascii_only (with_body 12 "  ") _
                eq_refl eq_refl) as (_ & _ & Hp & Hs).
  split; [rewrite Hs | rewrite Hp]; reflexivity.
Defined.

(** ** More of the analyzer *)

Lemma detect_inconsistencies_conflicting {U : Unicode} (issues : list Issue) :
  detect_inconsistencies issues = map number (filter conflicting issues).
Proof.
  unfold detect_inconsistencies. rewrite <- fold_left_select.
  apply fold_left_same. intros acc i. reflexivity.
Qed.

(** X16: [detect_inconsistencies] reports, in the order of the issues, the
    numbers of exactly those issues that carry a label which reads "bug"
    and a label which reads "feature" when letter case is ignored. An
    issue with fewer than two labels is never reported. *)
Theorem inconsistency_detection :
  forall (U : Unicode) (issues : list Issue),
    detect_inconsistencies issues = map number (filter conflicting issues) /\
    (forall issue,
        conflicting issue = true <->
        exists bug feature,
          In bug (labels issue) /\ In feature (labels issue) /\
          lower bug = str "bug" /\ lower feature = str "feature") /\
    (forall issue, (List.length (labels issue) <= 1)%nat -> conflicting issue = false) /\
    (forall n,
        In n (detect_inconsistencies issues) <->
        exists issue, In issue issues /\ number issue = n /\ conflicting issue = true).
Proof.
  intros U issues.
  assert (forall issue,
             conflicting issue = true <->
             exists bug feature,
               In bug (labels issue) /\ In feature (labels issue) /\
               lower bug = str "bug" /\ lower feature = str "feature") as Hiff.
  { intros issue. unfold conflicting. rewrite andb_true_iff, !mem_lower_labels. split.
    - intros [(b & Hb & Hlb) (f & Hf & Hlf)]. exists b, f. tauto.
    - intros (b & f & Hb & Hf & Hlb & Hlf). split; [exists b | exists f]; tauto. }
  split; [apply detect_inconsistencies_conflicting|]. split; [exact Hiff|]. split.
  - intros issue Hlen. destruct (conflicting issue) eqn:Hc; [|reflexivity].
    apply Hiff in Hc as (b & f & Hb & Hf & Hlb & Hlf).
    destruct (labels issue) as [|l [|l' rest]]; [contradiction| |simpl in Hlen; lia].
    destruct Hb as [<-|[]]. destruct Hf as [<-|[]]. rewrite Hlb in Hlf. discriminate.
  - intros n. rewrite detect_inconsistencies_conflicting, in_map_iff. split.
    + intros (i & Hn & Hin). apply filter_In in Hin. exists i. tauto.
    + intros (i & Hin & Hn & Hc). exists i. split; [exact Hn|].
      apply filter_In. tauto.
Qed.

Lemma inconsistency_detection_witness :
  conflicting (U := ascii_only) (labelled 3 ["Bug"]) = false.
Proof.
  apply (proj1 (proj2 (proj2 (inconsistency_detection ascii_only [])))
           (labelled 3 ["Bug"])).
  apply Nat.le_refl.
Defined.

Example inconsistency_examples :
  forall (U : Unicode),
    detect_inconsistencies
      [labelled 1 ["bug"; "feature"];
       labelled 2 ["bug"];
       labelled 3 ["Feature"; "help wanted"; "BUG"];
       labelled 4 ["bugfix"; "feature"]]
    = [1; 3].
Proof. reflexivity. Qed.

Lemma timedelta_days_monotone (now later created : Z) :
  now <= later -> timedelta_days now created <= timedelta_days later created.
Proof.
  intros H. unfold timedelta_days. apply Z.div_le_mono; [|lia].
  unfold day, second. lia.
Qed.

(** X17: an age that is reported is at least 366 days, and an issue that
    is reported stays reported: every issue that the pass flags at one
    time, it flags at every later time, with an age that is no smaller. *)
Theorem stale_issues_stay_stale :
  forall (now later : Z) (issues : list Issue),
    now <= later ->
    (forall n days,
        In (n, days) (detect_unaddressed_errors now issues) -> 366 <= days) /\
    (forall issue, stale now issue = true -> stale later issue = true) /\
    (forall n days,
        In (n, days) (detect_unaddressed_errors now issues) ->
        exists days',
          In (n, days') (detect_unaddressed_errors later issues) /\ days <= days').
Proof.
  intros now later issues Hle.
  assert (forall issue, stale now issue = true -> stale later issue = true) as Hstay.
  { intros issue. unfold stale, age_in_days.
    destruct (is_open issue); [|discriminate].
    destruct (created_at issue) as [c|]; [|discriminate]. cbn [option_map andb].
    rewrite !Z.gtb_gt. pose proof (timedelta_days_monotone now later c Hle). lia. }
  split; [|split; [exact Hstay|]].
  - intros n days Hin. rewrite detect_unaddressed_errors_stale in Hin.
    apply in_map_iff in Hin as (i & Heq & Hi). apply filter_In in Hi as [_ Hs].
    unfold stale, age_in_days in *. destruct (is_open i); [|discriminate].
    destruct (created_at i) as [c|]; [|discriminate]. cbn [option_map andb] in *.
    inversion Heq; subst. apply Z.gtb_gt in Hs. lia.
  - intros n days Hin. rewrite detect_unaddressed_errors_stale in Hin.
    apply in_map_iff in Hin as (i & Heq & Hi). apply filter_In in Hi as [Hi Hs].
    pose proof (Hstay i Hs) as Hlater.
    exists (match age_in_days later i with Some d => d | None => 0 end). split.
    + rewrite detect_unaddressed_errors_stale. apply in_map_iff. exists i.
      inversion Heq; subst. split; [reflexivity|]. apply filter_In. now split.
    + unfold stale, age_in_days in *. destruct (is_open i); [|discriminate].
      destruct (created_at i) as [c|]; [|discriminate]. cbn [option_map] in *.
      inversion Heq; subst. now apply timedelta_days_monotone.
Qed.

Lemma stale_issues_stay_stale_witness :
  exists days',
    In (1, days') (detect_unaddressed_errors (400 * day) [year_old "open" 1]) /\
    366 <= days'.
Proof.
  apply (proj2 (proj2 (stale_issues_stay_stale (366 * day) (400 * day)
                         [year_old "open" 1] ltac:(vm_compute; discriminate)))).
  vm_compute. left. reflexivity.
Defined.

(** ** Normalizing twice *)

Section NormalForm.

Context {U : Unicode}.

Lemma lower_char_ascii (c : char) :
  is_ascii c = true ->
  is_ascii (lower_char c) = true /\ is_upper (lower_char c) = false.
Proof.
  intros Hascii. unfold lower_char. destruct (is_upper c) eqn:Hup.
  - apply is_upper_range in Hup. unfold is_ascii, is_upper, between.
    decide_comparisons. now split.
  - now split.
Qed.

Lemma simplified_ascii_normal (issue : Issue) :
  isascii (get_or_empty (title issue)) = true ->
  Forall ascii_normal (simplified issue).
Proof.
  intros Hascii. unfold simplified, strip. rewrite (lower_ascii _ Hascii).
  apply rstrip_chars, lstrip_chars.
  eapply Forall_impl;
    [|apply collapse_whitespace_chars,
        (strip_non_word_chars
           (fun c => is_ascii c = true /\ is_upper c = false))].
  - intros c [->|[[[Ha Hu] [Hw|Hsp]] Hnsp]].
    + repeat split; now left.
    + repeat split; trivial. now right.
    + congruence.
  - unfold isascii in Hascii. rewrite forallb_forall in Hascii.
    apply Forall_forall. intros c Hc. apply in_map_iff in Hc as (c0 & <- & Hc0).
    apply lower_char_ascii. now apply Hascii.
Qed.

Lemma ascii_normal_isascii (s : text) : Forall ascii_normal s -> isascii s = true.
Proof.
  unfold isascii. intros H. apply forallb_forall. intros c Hc.
  rewrite Forall_forall in H. now destruct (H c Hc).
Qed.

Lemma lower_normal (s : text) : Forall ascii_normal s -> lower s = s.
Proof.
  intros H. rewrite (lower_ascii s (ascii_normal_isascii s H)).
  induction H as [|c s (_ & Hup & _) _ IH]; [reflexivity|].
  cbn [map]. rewrite IH. unfold lower_char. now rewrite Hup.
Qed.

Lemma strip_non_word_normal (s : text) :
  Forall ascii_normal s -> strip_non_word s = s.
Proof.
  induction 1 as [|c s (_ & _ & Hc) _ IH]; [reflexivity|].
  cbn [strip_non_word]. rewrite IH.
  destruct Hc as [->|[Hw _]]; [reflexivity | now rewrite Hw].
Qed.

Lemma collapse_whitespace_normal (s : text) :
  Forall ascii_normal s -> no_double_space s = true ->
  collapse_whitespace s = s.
Proof.
  induction 1 as [|c s (_ & _ & Hc) Hs IH]; intros Hnd; [reflexivity|].
  cbn [no_double_space] in Hnd. apply andb_prop in Hnd as [Hcd Hnd].
  specialize (IH Hnd). cbn [collapse_whitespace].
  destruct Hc as [->|[_ Hnsp]].
  - rewrite space_is_space in *. cbn [andb] in Hcd.
    destruct s as [|c' s']; [reflexivity|].
    cbn [starts_with_space] in Hcd. apply negb_true_iff in Hcd. rewrite Hcd.
    now rewrite IH.
  - rewrite Hnsp. now rewrite IH.
Qed.

End NormalForm.

(** X18: normalizing an ASCII title twice is normalizing it once. An
    issue whose title is the normalized title of an issue with an ASCII
    title is filed under that very title: an issue titled with the title
    printed for a group of duplicates belongs to that group. *)
Theorem normalization_is_idempotent :
  forall (U : Unicode) (issue other : Issue),
    isascii (get_or_empty (title issue)) = true ->
    title other = Some (simplified issue) ->
    simplified other = simplified issue.
Proof.
  intros U issue other Hascii Htitle.
  pose proof (simplified_ascii_normal issue Hascii) as Hnormal.
  destruct (simplified_shape issue) as (_ & Hs & He & Hd).
  unfold simplified at 1. rewrite Htitle. cbn [get_or_empty].
  rewrite (lower_normal _ Hnormal), (strip_non_word_normal _ Hnormal).
  rewrite (collapse_whitespace_normal _ Hnormal Hd). unfold strip.
  rewrite (lstrip_trimmed _ Hs). now apply rstrip_trimmed.
Qed.

Lemma normalization_is_idempotent_witness :
  simplified (U := ascii_only)
    (retitled (simplified (U := ascii_only) (titled 1 " Fix  Login-Bug! ")) (titled 2 ""))
  = str "fix loginbug".
Proof.
  rewrite (normalization_is_idempotent ascii_only (titled 1 " Fix  Login-Bug! ")
             (retitled (simplified (U := ascii_only) (titled 1 " Fix  Login-Bug! "))
                       (titled 2 "")) eq_refl eq_refl).
  reflexivity.
Defined.

(** ** The order of the issues *)

Lemma filter_Permutation {A : Type} (p : A -> bool) (l l' : list A) :
  Permutation l l' -> Permutation (filter p l) (filter p l').
Proof.
  induction 1 as [|x l l' H IH|x y l|l l' l'' H1 IH1 H2 IH2]; cbn [filter].
  - constructor.
  - destruct (p x); [now constructor | exact IH].
  - destruct (p x), (p y); try apply Permutation_refl. apply perm_swap.
  - now transitivity (filter p l').
Qed.

Lemma same_title_Permutation {U : Unicode} (key : text) (issues issues' : list Issue) :
  Permutation issues issues' ->
  Permutation (same_title key issues) (same_title key issues').
Proof. apply filter_Permutation. Qed.

(** X19: which titles are reported as duplicated, and which issues under
    each, does not depend on the order in which the issues were fetched:
    for two orderings of the same issues the reported titles are the same,
    and the numbers under a title are the same up to their order. *)
Theorem duplicates_do_not_depend_on_order :
  forall (U : Unicode) (issues issues' : list Issue),
    Permutation issues issues' ->
    (forall key,
        In key (map dup_title (detect_duplicates issues)) <->
        In key (map dup_title (detect_duplicates issues'))) /\
    (forall d d',
        In d (detect_duplicates issues) -> In d' (detect_duplicates issues') ->
        dup_title d = dup_title d' ->
        Permutation (dup_issues d) (dup_issues d')).
Proof.
  intros U issues issues' Hperm.
  assert (forall l l' key,
             Permutation l l' ->
             In key (map dup_title (detect_duplicates l)) ->
             In key (map dup_title (detect_duplicates l'))) as Hone.
  { intros l l' key Hp Hin. apply in_map_iff in Hin as (d & Hkey & Hd).
    rewrite detect_duplicates_groups in Hd.
    apply duplicate_groups_In in Hd as (k & -> & Hlen). cbn [dup_title] in Hkey.
    subst k. apply in_map_iff.
    exists (mkDuplicate key (map number (same_title key l'))). split; [reflexivity|].
    rewrite detect_duplicates_groups. apply duplicate_groups_In.
    exists key. split; [reflexivity|].
    unfold len in *.
    rewrite <- (Permutation_length (same_title_Permutation key l l' Hp)). exact Hlen. }
  split.
  - intros key. split; apply Hone; [exact Hperm | now apply Permutation_sym].
  - intros d d' Hd Hd' Htitle. rewrite detect_duplicates_groups in Hd, Hd'.
    apply duplicate_groups_In in Hd as (k & -> & _).
    apply duplicate_groups_In in Hd' as (k' & -> & _).
    cbn [dup_title dup_issues] in *. subst k'.
    apply Permutation_map. now apply same_title_Permutation.
Qed.

Lemma duplicates_do_not_depend_on_order_witness :
  In (str "crash")
     (map dup_title (detect_duplicates (U := ascii_only)
                       [titled 1 "Crash"; titled 2 "Docs"; titled 3 "crash!"])) <->
  In (str "crash")
     (map dup_title (detect_duplicates (U := ascii_only)
                       [titled 3 "crash!"; titled 2 "Docs"; titled 1 "Crash"])).
Proof.
  assert (Permutation [titled 1 "Crash"; titled 2 "Docs"; titled 3 "crash!"]
                      [titled 3 "crash!"; titled 2 "Docs"; titled 1 "Crash"]) as Hperm.
  { apply (perm_trans (l' := [titled 2 "Docs"; titled 1 "Crash"; titled 3 "crash!"])).
    - apply perm_swap.
    - apply (perm_trans (l' := [titled 2 "Docs"; titled 3 "crash!"; titled 1 "Crash"])).
      + apply perm_skip, perm_swap.
      + apply perm_swap. }
  exact (proj1 (duplicates_do_not_depend_on_order ascii_only _ _ Hperm) (str "crash")).
Defined.

(** ** A keyword that never decides *)

Lemma occurs_in_trans (a b s : text) : occurs_in a b -> occurs_in b s -> occurs_in a s.
Proof.
  intros (p1 & q1 & ->) (p2 & q2 & ->).
  exists (p2 ++ p1), (q1 ++ q2). now rewrite <- !app_assoc.
Qed.

Lemma any_in_without_document (s : text) :
  any_in doc_keywords s = any_in doc_keywords_without_document s.
Proof.
  apply eq_true_iff_eq. rewrite !any_in_spec. unfold keyword_occurs. split.
  - intros (kw & Hin & Hocc). destruct Hin as [<-|Hin].
    + exists (str "doc"). split; [now left|].
      apply (occurs_in_trans (str "doc") (str "document") s); [|exact Hocc].
      now exists [], (str "ument").
    + exists kw. split; [exact Hin | exact Hocc].
  - intros (kw & Hin & Hocc). exists kw. split; [now right | exact Hocc].
Qed.

(** X20: the keyword "document" never decides. Every text in which it
    occurs holds "doc" as well, so the documentation list of
    [categorize_issues] is the list that the four keywords "doc", "readme",
    "tutorial" and "example" and the label "documentation" give. *)
Theorem document_keyword_is_redundant :
  forall (U : Unicode) (issues : list Issue),
    documentation (categorize_issues issues) =
    map number
      (filter (fun issue =>
                 mem (str "documentation") (lower_labels issue)
                 || any_in doc_keywords_without_document
                      (lower (get_or_empty (title issue)))
                 || any_in doc_keywords_without_document
                      (lower (get_or_empty (body issue))))
              issues).
Proof.
  intros U issues. rewrite categorize_issues_selects. cbn [documentation]. f_equal.
  apply filter_ext. intros issue. unfold is_documentation.
  now rewrite !any_in_without_document.
Qed.

(** ** The issue fetch and pull requests *)

Lemma fetch_issues_drops_pull_requests_witness :
  Script.fetch_issues [page_of [a_pull_request; an_issue]] start =
    (Return [an_issue],
     snd (Script.fetch_issues [page_of [a_pull_request; an_issue]] start)) /\
  no_pull_requests [an_issue].
Proof.
  split; [reflexivity|].
  apply (proj1 fetch_issues_drops_pull_requests
           [page_of [a_pull_request; an_issue]] start [an_issue]
           (snd (Script.fetch_issues [page_of [a_pull_request; an_issue]] start))).
  reflexivity.
Defined.
